(** * compute-engine: a verified reading of the rewriting, expansion,
      validation and comparison kernel

    The development follows the TypeScript sources:
    - [compute-engine/rules.ts]            (rule application, [replace])
    - [compute-engine/symbolic/expand.ts]  ([powers], [expandPower], [expand])
    - [boxed-expression/utils.ts]          ([getImaginaryFactor], [normalizeFlags])
    - [boxed-expression/validate.ts]       ([checkArity], [checkNumericArgs],
                                            [validateArguments])
    - [test/comparisons.test.ts]           (the expectation table for [compare])

    JavaScript numbers that the code uses as counters, lengths and exponents
    are modelled by [Z] (or [nat] for array lengths); the numbers that
    [expand.ts] adds and multiplies, the entries of Pascal's triangle, are
    modelled as doubles, with the rounding written out. Arrays are lists,
    without a bound on their length. Loops that JavaScript does not bound
    are modelled with an explicit fuel argument, [None] meaning that the
    function does not return: the budget ran out, or an exception is
    thrown. *)

From Stdlib Require Import ZArith List Lia Bool.
From Stdlib Require Import QArith Qcanon Lqa.
From stdpp Require Import base option list list_numbers sorting strings gmap.

Set Default Proof Using "Type".
Set Warnings "-register-all".
Local Open Scope string_scope.
Local Open Scope list_scope.
Local Open Scope Z_scope.

(** ** MathJSON expressions *)

(** Modelled from the spec: the [Expression] type of [public.ts], which
    [rules.ts] and the comparison test work on. An expression is a number
    literal, a symbol, or the application of an operator name to an ordered
    sequence of operands. *)
Inductive Expression : Type :=
| Num (n : Z)
| Sym (name : string)
| Fn (head : string) (args : list Expression).

(** Structural equality, as an executable test. *)
Fixpoint Expression_eqb (x y : Expression) {struct x} : bool :=
  match x, y with
  | Num n, Num m => Z.eqb n m
  | Sym s, Sym t => String.eqb s t
  | Fn h xs, Fn k ys =>
      String.eqb h k &&
      (fix all2 (xs ys : list Expression) {struct xs} : bool :=
         match xs, ys with
         | [], [] => true
         | x :: xs', y :: ys' => Expression_eqb x y && all2 xs' ys'
         | _, _ => false
         end) xs ys
  | _, _ => false
  end.

(** ** [normalizeFlags] (utils.ts) *)

Module Flags.

(** [Partial<NumericFlags>]: every field is optional; only the parity
    fields are read or written by [normalizeFlags], the others are
    copied by the spread. *)
Record NumericFlags : Type := mkFlags {
  number : option bool;
  integer : option bool;
  zero : option bool;
  positive : option bool;
  even : option bool;
  odd : option bool;
}.

(** JavaScript truthiness of an optional boolean field. *)
Definition truthy (b : option bool) : bool :=
  match b with Some true => true | _ => false end.

Definition set_even (v : bool) (f : NumericFlags) : NumericFlags :=
  mkFlags (number f) (integer f) (zero f) (positive f) (Some v) (odd f).

Definition set_odd (v : bool) (f : NumericFlags) : NumericFlags :=
  mkFlags (number f) (integer f) (zero f) (positive f) (even f) (Some v).

Definition normalizeFlags (flags : option NumericFlags) : option NumericFlags :=
  match flags with
  | None => None                                  (* if (!flags) return undefined *)
  | Some flags =>
      let result := flags in                      (* { ...flags } *)
      let result := if truthy (odd result) then set_even false result else result in
      let result := if truthy (even result) then set_odd false result else result in
      Some result
  end.

End Flags.

(** ** Rules and the rewriting driver (rules.ts) *)

Module Rules.

(** [Substitution]: pattern-variable name to matched expression. *)
Abbreviation Substitution := (gmap string Expression).

(** A value of a TypeScript type [T | null]. *)
Inductive Nullable (A : Type) : Type :=
| null
| value (a : A).
Arguments null {A}.
Arguments value {A} a.

(** [match] and [substitute] are imported from [./patterns]; the driver is
    verified for every implementation of this interface. *)
Class Patterns : Type := {
  match_ : Expression -> Expression -> option Substitution;
  substitute : Expression -> Substitution -> Expression;
}.

Section Driver.

Context {CE : Type} {patterns : Patterns}.

(** [Rule]: the triple [[lhs, rhs, condition]]; the condition is either a
    function of the engine and the substitution, or undefined. *)
Record Rule : Type := mkRule {
  lhs : Expression;
  rhs : Expression;
  condition : option (CE -> Substitution -> bool);
}.

(** A [RuleSet] is a JavaScript [Set] of rule tuples: iteration follows
    insertion order, and distinct tuples are distinct members. *)
Definition RuleSet : Type := list Rule.

(** [applyRule]; the [console.log] of the applied rule is not modelled. *)
Definition applyRule (ce : CE) (rule : Rule) (expr : Expression) : option Expression :=
  match match_ (lhs rule) expr with
  | None => None                                        (* sub === null *)
  | Some sub =>
      match condition rule with
      | Some cond => if negb (cond ce sub) then None else Some (substitute (rhs rule) sub)
      | None => Some (substitute (rhs rule) sub)
      end
  end.

(** The body of the [while] loop after [done = true]: the [for] loop over
    the rule set, threading the two mutable locals [done] and [expr]. *)
Fixpoint scan (ce : CE) (rules : RuleSet) (done : bool) (expr : Expression)
  : bool * Expression :=
  match rules with
  | [] => (done, expr)
  | rule :: rest =>
      match applyRule ce rule expr with
      | Some result => scan ce rest false result        (* done = false; expr = result *)
      | None => scan ce rest done expr
      end
  end.

(** [replace]: [while (!done) { done = true; for ... }; return expr].
    Each unit of fuel pays for one iteration of the [while] loop. *)
Fixpoint replace (fuel : nat) (ce : CE) (rules : RuleSet) (expr : Expression)
  : option (Nullable Expression) :=
  match fuel with
  | O => None
  | S fuel' =>
      let '(done, expr') := scan ce rules true expr in
      if done then Some (value expr') else replace fuel' ce rules expr'
  end.

(** The driver as the specification words it: the first rule of the set
    that applies at the root triggers the replacement and the scan restarts
    from the first rule against the new root, until no rule applies. *)
Fixpoint firstApplicable (ce : CE) (rules : RuleSet) (expr : Expression)
  : option Expression :=
  match rules with
  | [] => None
  | rule :: rest =>
      match applyRule ce rule expr with
      | Some result => Some result
      | None => firstApplicable ce rest expr
      end
  end.

Fixpoint replace_restarting (fuel : nat) (ce : CE) (rules : RuleSet) (expr : Expression)
  : option (Nullable Expression) :=
  match fuel with
  | O => None
  | S fuel' =>
      match firstApplicable ce rules expr with
      | Some result => replace_restarting fuel' ce rules result
      | None => Some (value expr)
      end
  end.

(** No rule of the set applies at the root of [expr]. *)
Definition irreducible (ce : CE) (rules : RuleSet) (expr : Expression) : Prop :=
  Forall (fun rule => applyRule ce rule expr = None) rules.

End Driver.

Arguments Rule : clear implicits.
Arguments RuleSet : clear implicits.

(** Modelled from the spec: the naming convention of pattern variables in
    [./patterns]. They are the symbols whose name starts with an underscore,
    the names that [SUBS] maps the identifiers of a rule to. *)
Definition isPatternVariable (name : string) : bool := String.prefix "_" name.

(** Modelled from the spec: [match] of [./patterns], with the substitution
    built so far. A pattern variable binds the subexpression at its
    position, a repeated variable must meet a structurally equal
    subexpression, and the literal symbols, operators and numbers of the
    pattern must equal the candidate's. *)
Fixpoint matchWith (pattern candidate : Expression) (sub : Substitution) {struct pattern}
  : option Substitution :=
  match pattern with
  | Num n =>
      match candidate with
      | Num m => if Z.eqb n m then Some sub else None
      | _ => None
      end
  | Sym s =>
      if isPatternVariable s then
        match sub !! s with
        | None => Some (<[s := candidate]> sub)
        | Some bound => if Expression_eqb bound candidate then Some sub else None
        end
      else
        match candidate with
        | Sym t => if String.eqb s t then Some sub else None
        | _ => None
        end
  | Fn h ps =>
      match candidate with
      | Fn k cs =>
          if String.eqb h k then
            (fix matchOperands (ps cs : list Expression) (sub : Substitution) {struct ps}
               : option Substitution :=
               match ps, cs with
               | [], [] => Some sub
               | p :: ps', c :: cs' =>
                   match matchWith p c sub with
                   | Some sub' => matchOperands ps' cs' sub'
                   | None => None
                   end
               | _, _ => None
               end) ps cs sub
          else None
      | _ => None
      end
  end.

(** Modelled from the spec: [substitute] of [./patterns]. Every bound
    variable is replaced in the right-hand side, and the tree is rebuilt. *)
Fixpoint substituteSpec (expr : Expression) (sub : Substitution) : Expression :=
  match expr with
  | Num n => Num n
  | Sym s => match sub !! s with Some v => v | None => Sym s end
  | Fn h args => Fn h (map (fun a => substituteSpec a sub) args)
  end.

(** Modelled from the spec: the interface of [./patterns], by the two
    functions above. *)
Definition specPatterns : Patterns :=
  {| match_ := fun pattern candidate => matchWith pattern candidate ∅;
     substitute := substituteSpec |}.

End Rules.

(** ** Boxed expressions *)

(** Modelled from the spec: the [BoxedExpression] interface of [public.ts].
    A boxed expression is a number literal (real and imaginary part, exact
    rationals of the numeric tower), a symbol, a string, or the application
    of an operator to an ordered sequence of operands. An error sentinel is
    the application of the operator [Error] to an error code and the
    offending values. *)
Inductive BoxedExpression : Type :=
| BoxedNumber (re im : Qc)
| BoxedSymbol (name : string)
| BoxedString (text : string)
| BoxedFunction (operator : string) (ops : list BoxedExpression).

(** A JavaScript array read [xs[i]] at an integer index: [None] stands for
    [undefined]. *)
Definition index {A : Type} (xs : list A) (i : Z) : option A :=
  if i <? 0 then None else xs !! Z.to_nat i.

(** The accessors of the interface. *)
Module Accessors.

(** Modelled from the spec: the symbol that stands for an absent operand. *)
Definition Nothing : BoxedExpression := BoxedSymbol "Nothing".

(** Modelled from the spec: the accessor [head] of the interface, called
    [operator] in [utils.ts] and [validate.ts]. It names the operator of an
    application and the kind of an atom. *)
Definition head (expr : BoxedExpression) : string :=
  match expr with
  | BoxedNumber _ _ => "Number"
  | BoxedSymbol _ => "Symbol"
  | BoxedString _ => "String"
  | BoxedFunction h _ => h
  end.

(** Modelled from the spec: the accessor [ops] of the interface, the
    operands of an application and [null] for an atom. *)
Definition ops (expr : BoxedExpression) : option (list BoxedExpression) :=
  match expr with
  | BoxedFunction _ xs => Some xs
  | _ => None
  end.

(** [expr.ops!]: the operands of an application. *)
Definition ops_ (expr : BoxedExpression) : list BoxedExpression :=
  default [] (ops expr).

(** Modelled from the spec: the accessor [nops], the number of operands. *)
Definition nops (expr : BoxedExpression) : Z := Z.of_nat (length (ops_ expr)).

(** Modelled from the spec: the accessors [op1] and [op2] of the
    interface. They read the first and the second operand and give the
    symbol [Nothing] when the operand is absent. *)
Definition op1 (expr : BoxedExpression) : BoxedExpression :=
  default Nothing (ops_ expr !! 0%nat).

(** Modelled from the spec: the accessor [op2], as [op1]. *)
Definition op2 (expr : BoxedExpression) : BoxedExpression :=
  default Nothing (ops_ expr !! 1%nat).

(** Modelled from the spec: the accessor [symbol], the name of a symbol
    and [null] for any other expression. *)
Definition symbol (expr : BoxedExpression) : option string :=
  match expr with
  | BoxedSymbol s => Some s
  | _ => None
  end.

End Accessors.

(** ** Algebraic expansion (symbolic/expand.ts) *)

Module Expand.

Import Accessors.

(** A JavaScript number as this file computes them: a double whose value is
    an integer, an infinity, or [NaN]. *)
Inductive JSNumber : Type :=
| Finite (z : Z)
| Infinity (negative : bool)
| NaN.

(** The largest integer up to which every integer is a double. *)
Definition maxExact : Z := 2 ^ 53.

(** The double nearest to an integer (round to nearest, ties to even): an
    integer up to [2^53] in absolute value is a double; a larger one keeps
    its 53 leading bits, rounded; when that reaches [2^1024] the result is
    an infinity. *)
Definition roundToDouble (z : Z) : JSNumber :=
  let a := Z.abs z in
  if a <=? maxExact then Finite z
  else
    let e := Z.log2 a - 52 in
    let q := a / 2 ^ e in
    let r := a mod 2 ^ e in
    let half := 2 ^ (e - 1) in
    let q' := if (r <? half) || ((r =? half) && Z.even q) then q else q + 1 in
    if q' * 2 ^ e >=? 2 ^ 1024 then Infinity (z <? 0)
    else Finite (Z.sgn z * (q' * 2 ^ e)).

(** [x + y] on such numbers. *)
Definition addDouble (x y : JSNumber) : JSNumber :=
  match x, y with
  | Finite a, Finite b => roundToDouble (a + b)
  | Finite _, Infinity s | Infinity s, Finite _ => Infinity s
  | Infinity s, Infinity s' => if Bool.eqb s s' then Infinity s else NaN
  | _, _ => NaN
  end.

(** [x * y] on such numbers; the sign of a zero is not kept. *)
Definition mulDouble (x y : JSNumber) : JSNumber :=
  match x, y with
  | Finite a, Finite b => roundToDouble (a * b)
  | Finite a, Infinity s | Infinity s, Finite a =>
      if a =? 0 then NaN else Infinity (xorb s (a <? 0))
  | Infinity s, Infinity s' => Infinity (xorb s s')
  | _, _ => NaN
  end.

(** The constructors of the engine that the file calls ([ce.One],
    [ce.add(...)], and so on). *)
Class IComputeEngine : Type := {
  One : BoxedExpression;
  NegativeOne : BoxedExpression;
  number : JSNumber -> BoxedExpression;
  add : list BoxedExpression -> BoxedExpression;
  mul : list BoxedExpression -> BoxedExpression;
  div : BoxedExpression -> BoxedExpression -> BoxedExpression;
  pow : BoxedExpression -> Z -> BoxedExpression;
  neg : BoxedExpression -> BoxedExpression;
  inv : BoxedExpression -> BoxedExpression;
  _fn : string -> list BoxedExpression -> BoxedExpression;
  box : string -> list BoxedExpression -> BoxedExpression;    (* ce.box([head, ...ops]) *)
}.

(** The functions the file imports from other modules. *)
Class Imports : Type := {
  asMachineInteger : BoxedExpression -> option Z;
  isRelationalOperator : string -> bool;
  simplifyAdd : list BoxedExpression -> BoxedExpression;
  canonicalNegate : BoxedExpression -> BoxedExpression;
}.

(** *** The state: the module-level table [binomials]

    A computation reads and extends the table of Pascal's triangle, and may
    not return. *)

Abbreviation Table := (list (list JSNumber)).

Definition M (A : Type) : Type := Table -> option (A * Table).

#[export] Instance M_ret : MRet M := fun A x t => Some (x, t).

#[export] Instance M_bind : MBind M := fun A B f m t =>
  match m t with
  | Some (x, t') => f x t'
  | None => None
  end.

(** Out of fuel. *)
Definition diverge {A : Type} : M A := fun _ => None.

(** An exception: the function does not return either. *)
Definition throw {A : Type} : M A := fun _ => None.

(** A computation that does not touch the table. *)
Definition lift {A : Type} (x : option A) : M A := fun t =>
  match x with
  | Some a => Some (a, t)
  | None => None
  end.

(** [xs.map(f)], and any loop that pushes one value per element. *)
Fixpoint mapM_ {A B : Type} (f : A -> M B) (xs : list A) : M (list B) :=
  match xs with
  | [] => mret []
  | x :: xs' => y ← f x; ys ← mapM_ f xs'; mret (y :: ys)
  end.

Definition binomials : Table :=
  map (map Finite)
    [ [1];
      [1; 1];
      [1; 2; 1];
      [1; 3; 3; 1];
      [1; 4; 6; 4; 1];
      [1; 5; 10; 10; 5; 1];
      [1; 6; 15; 20; 15; 6; 1];
      [1; 7; 21; 35; 35; 21; 7; 1];
      [1; 8; 28; 56; 70; 56; 28; 8; 1] ].

(** [prev[i]] as an operand of [+]: a read outside the row is [undefined],
    and a sum with [undefined] is [NaN]. *)
Definition entry (prev : list JSNumber) (i : nat) : JSNumber :=
  default NaN (prev !! i).

(** The row that follows the row [prev] of index [s']:
    [nextRow[0] = 1], [nextRow[i] = prev[i-1] + prev[i]] for [1 <= i <= s'],
    [nextRow[s' + 1] = 1]. *)
Definition rowAfter (s' : nat) (prev : list JSNumber) : list JSNumber :=
  [Finite 1] ++ map (fun i => addDouble (entry prev (i - 1)) (entry prev i)) (seq 1 s')
    ++ [Finite 1].

(** The row that one iteration of the [while] loop of [choose] pushes,
    where [prev] is the last row and [s] the number of rows; on an empty
    table the loop over [i] does nothing and [nextRow[0]] is set twice. *)
Definition nextRow (t : Table) : list JSNumber :=
  let s := length t in
  let prev := default [] (last t) in
  match s with
  | O => [Finite 1]
  | S s' => rowAfter s' prev
  end.

(** [while (n >= binomials.length) { ... binomials.push(nextRow) }]; the
    counter bounds the number of iterations. *)
Fixpoint growTable (iterations : nat) (n : Z) (t : Table) : Table :=
  match iterations with
  | O => t
  | S iterations' =>
      if n >=? Z.of_nat (length t) then growTable iterations' n (t ++ [nextRow t])
      else t
  end.

(** [choose(n, k)]: the table is extended up to row [n], then read. For a
    negative [n] there is no row [binomials[n]], and reading its entry [k]
    throws. A read outside a row is [undefined], which the caller's product
    turns into [NaN]. *)
Definition choose (n k : Z) : M JSNumber := fun t =>
  let t' := growTable (Z.to_nat (n + 1 - Z.of_nat (length t))) n t in
  match index t' n with
  | Some row => Some (default NaN (index row k), t')
  | None => throw t'
  end.

(** The [for] loop of [multinomialCoefficient], with its two locals. *)
Fixpoint multinomialLoop (k : list Z) (n : Z) (prod : JSNumber) : M JSNumber :=
  match k with
  | [] => mret prod
  | ki :: k' =>
      c ← choose n ki;
      multinomialLoop k' (n - ki) (mulDouble prod c)
  end.

Definition multinomialCoefficient (k : list Z) : M JSNumber :=
  let n := fold_left (fun acc v => acc + v) k 0 in
  multinomialLoop k n (Finite 1).

(** The integers [0, 1, ..., exp] that [for (let i = 0; i <= exp; i += 1)]
    visits. *)
Definition upto (exp : Z) : list Z := seqZ 0 (exp + 1).

(** [powers(n, exp)]: the values the generator yields, in order. The
    recursion on [n - 1] is not bounded below in the source, hence the
    fuel. *)
Fixpoint powers (fuel : nat) (n exp : Z) : option (list (list Z)) :=
  match fuel with
  | O => None
  | S fuel' =>
      if n =? 1 then Some [[exp]]
      else
        (fun yields => List.concat yields) <$>
          mapM (fun i => map (cons i) <$> powers fuel' (n - 1) (exp - i)) (upto exp)
  end.

(** Vocabulary for the properties of [powers]: the sum of a tuple, the
    lexicographic order on tuples, and the compositions of [exp] into [n]
    parts by recursion on [n]. *)
Definition sumZ (p : list Z) : Z := fold_right Z.add 0 p.

Fixpoint lexlt (p q : list Z) : Prop :=
  match p, q with
  | x :: p', y :: q' => x < y \/ (x = y /\ lexlt p' q')
  | [], _ :: _ => True
  | _, _ => False
  end.

Fixpoint compositions (n : nat) (exp : Z) : list (list Z) :=
  match n with
  | O => []
  | S O => [[exp]]
  | S n' => List.concat (map (fun i => map (cons i) (compositions n' (exp - i))) (upto exp))
  end.

(** The binomial coefficient, by Pascal's rule. *)
Fixpoint binom (n k : nat) : Z :=
  match k, n with
  | O, _ => 1
  | S _, O => 0
  | S k', S n' => binom n' k' + binom n' k
  end.

(** The row [n] of Pascal's triangle as the code computes it, each entry
    the double nearest to the sum of the two entries above it. *)
Fixpoint computedRow (n : nat) : list JSNumber :=
  match n with
  | O => [Finite 1]
  | S n' => rowAfter n' (computedRow n')
  end.

(** The states of [binomials]: the table holds the first rows of the
    triangle as the code computes them, and at least one. *)
Definition computedTable (t : Table) : Prop :=
  t <> [] /\ t = map computedRow (seq 0 (length t)).

(** The number of rows up to which every coefficient that is formed from
    the table is exact: a multinomial coefficient of an exponent [e] is at
    most [e!], and [18! <= 2^53 < 19!]. *)
Definition exactRows : nat := 19.

(** The multinomial coefficient of a tuple, as the product of binomial
    coefficients that the loop of [multinomialCoefficient] forms. *)
Fixpoint multinomial (k : list Z) : Z :=
  match k with
  | [] => 1
  | ki :: k' => binom (Z.to_nat (ki + sumZ k')) (Z.to_nat ki) * multinomial k'
  end.

Section Functions.

Context {ce : IComputeEngine} {imports : Imports}.

(** The inner loop of [expandPower]: the factors of one term. *)
Fixpoint factors (terms : list BoxedExpression) (val : list Z) (i : nat)
  : list BoxedExpression :=
  match val with
  | [] => []
  | v :: val' =>
      (if v =? 0 then []
       else if v =? 1 then [default Nothing (terms !! i)]
       else [pow (default Nothing (terms !! i)) v])
      ++ factors terms val' (S i)
  end.

Definition term (terms : list BoxedExpression) (val : list Z) : M BoxedExpression :=
  c ← multinomialCoefficient val;
  mret (mul (number c :: factors terms val 0)).

(** The term that [expandPower] builds for the composition [val], with the
    coefficient that [multinomialCoefficient] computes. *)
Definition termOf (terms : list BoxedExpression) (val : list Z) : BoxedExpression :=
  mul (number (Finite (multinomial val)) :: factors terms val 0).

Definition isHead (expr : BoxedExpression) (name : string) : bool :=
  String.eqb (head expr) name.

Fixpoint distribute2 (fuel : nat) (lhs rhs : BoxedExpression) {struct fuel}
  : M BoxedExpression :=
  match fuel with
  | O => diverge
  | S fuel =>
      if isHead lhs "Negate" && isHead rhs "Negate" then
        distribute2 fuel (op1 lhs) (op1 rhs)
      else if isHead lhs "Negate" then
        r ← distribute2 fuel (op1 lhs) rhs; mret (canonicalNegate r)
      else if isHead rhs "Negate" then
        r ← distribute2 fuel lhs (op1 rhs); mret (canonicalNegate r)
      else if isHead lhs "Divide" && isHead rhs "Divide" then
        let denom := mul [op2 lhs; op2 rhs] in
        r ← distribute2 fuel (op1 lhs) (op1 rhs); mret (div r denom)
      else if isHead lhs "Divide" then
        r ← distribute2 fuel (op1 lhs) rhs; mret (div r (op2 lhs))
      else if isHead rhs "Divide" then
        r ← distribute2 fuel lhs (op1 rhs); mret (div r (op2 rhs))
      else if isHead lhs "Add" then
        xs ← mapM_ (fun x => distribute2 fuel x rhs) (ops_ lhs); mret (add xs)
      else if isHead rhs "Add" then
        xs ← mapM_ (fun x => distribute2 fuel lhs x) (ops_ rhs); mret (add xs)
      else mret (mul [lhs; rhs])
  end.

Fixpoint distribute (fuel : nat) (head : string) (ops : list BoxedExpression)
  {struct fuel} : M (option BoxedExpression) :=
  match fuel with
  | O => diverge
  | S fuel =>
      if String.eqb head "Power" then
        match ops !! 1%nat ≫= asMachineInteger with
        | None => mret None
        | Some exp => expandPower fuel (default Nothing (ops !! 0%nat)) exp
        end
      else if String.eqb head "Negate" then
        distribute fuel "Multiply" [NegativeOne; default Nothing (ops !! 0%nat)]
      else if String.eqb head "Divide" then
        match ops !! 0%nat ≫= Accessors.ops with
        | None => mret None
        | Some ops0 =>
            num ← distribute fuel (Accessors.head (default Nothing (ops !! 0%nat))) ops0;
            match num with
            | None => mret None
            | Some num => mret (Some (div num (default Nothing (ops !! 1%nat))))
            end
        end
      else if String.eqb head "Multiply" then
        match ops with
        | [x] => mret (Some x)
        | [x; y] => r ← distribute2 fuel x y; mret (Some r)
        | _ =>
            rhs ← distribute fuel head (tail ops);
            match rhs with
            | None => mret None
            | Some rhs => r ← distribute2 fuel (default Nothing (ops !! 0%nat)) rhs; mret (Some r)
            end
        end
      else mret None
  end

with expandPower (fuel : nat) (base : BoxedExpression) (exp : Z) {struct fuel}
  : M (option BoxedExpression) :=
  match fuel with
  | O => diverge
  | S fuel =>
      if exp <? 0 then
        expr ← expandPower fuel base (- exp);
        mret (inv <$> expr)
      else if exp =? 0 then mret (Some One)
      else if exp =? 1 then expand fuel (Some base)
      else if isHead base "Negate" then            (* Number.isInteger(exp) holds *)
        let sign := if Z.rem exp 2 =? 0 then 1 else -1 in
        result ← expandPower fuel (op1 base) exp;
        match result with
        | None => mret None
        | Some result => mret (Some (if sign >? 0 then result else neg result))
        end
      else if negb (isHead base "Add") then mret None
      else
        let terms := ops_ base in
        it ← lift (powers fuel (Z.of_nat (length terms)) exp);
        result ← mapM_ (term terms) it;
        mret (Some (add result))
  end

with expandMultinomial (fuel : nat) (expr : BoxedExpression) {struct fuel}
  : M (option BoxedExpression) :=
  match fuel with
  | O => diverge
  | S fuel =>
      if negb (isHead expr "Power") then mret None
      else
        match asMachineInteger (op2 expr) with
        | None => mret None
        | Some exp => expandPower fuel (op1 expr) exp
        end
  end

with expandNumerator (fuel : nat) (expr : BoxedExpression) {struct fuel}
  : M (option BoxedExpression) :=
  match fuel with
  | O => diverge
  | S fuel =>
      if negb (isHead expr "Divide") then mret None
      else
        expandedNumerator ← expand fuel (Some (op1 expr));
        match expandedNumerator with
        | None => mret None
        | Some expandedNumerator =>
            if isHead expandedNumerator "Add" then
              mret (Some (add (map (fun x => div x (op2 expr)) (ops_ expandedNumerator))))
            else mret (Some (div expandedNumerator (op2 expr)))
        end
  end

with expand (fuel : nat) (expr : option BoxedExpression) {struct fuel}
  : M (option BoxedExpression) :=
  match fuel with
  | O => diverge
  | S fuel =>
      match expr with
      | None => mret None                                   (* if (!expr) return null *)
      | Some expr =>
          let h := head expr in
          if isRelationalOperator h then
            xs ← mapM_ (fun x => r ← expand fuel (Some x); mret (default x r)) (ops_ expr);
            mret (Some (_fn h xs))
          else
            result ← expandNumerator fuel expr;
            match result with
            | Some result => mret (Some result)
            | None =>
                if String.eqb h "Multiply" then distribute fuel "Multiply" (ops_ expr)
                else if String.eqb h "Add" then mret (Some (simplifyAdd (ops_ expr)))
                else if String.eqb h "Negate" then
                  op ← expand fuel (Some (op1 expr));
                  match op with
                  | None => mret None
                  | Some op => mret (Some (neg op))
                  end
                else if String.eqb h "Power" then expandMultinomial fuel expr
                else mret None
            end
      end
  end.

End Functions.

(** *** Vocabulary for the properties of [expandPower] *)

Definition prodZ (xs : list Z) : Z := fold_right Z.mul 1 xs.

(** Sums over [0 .. n-1]. *)
Definition bsum (f : nat -> Z) (n : nat) : Z := sumZ (map f (seq 0 n)).

(** The monomial [x1^k1 * ... * xm^km]. *)
Fixpoint monomial (xs k : list Z) : Z :=
  match xs, k with
  | x :: xs', ki :: k' => x ^ ki * monomial xs' k'
  | _, _ => 1
  end.

(** An integer literal. *)
Definition integer (z : Z) : BoxedExpression := BoxedNumber (Q2Qc (inject_Z z)) (Q2Qc 0).

Definition asInteger (q : Qc) : option Z :=
  if (Zpos (Qden q) =? 1) then Some (Qnum q) else None.

(** An engine whose constructors build the application node and simplify
    nothing: it lets the functions run on concrete expressions. *)
Definition plainEngine : IComputeEngine :=
  {| One := integer 1;
     NegativeOne := integer (-1);
     number := fun n =>
       match n with
       | Finite z => integer z
       | Infinity false => BoxedSymbol "PositiveInfinity"
       | Infinity true => BoxedSymbol "NegativeInfinity"
       | NaN => BoxedSymbol "NaN"
       end;
     add := BoxedFunction "Add";
     mul := BoxedFunction "Multiply";
     div := fun x y => BoxedFunction "Divide" [x; y];
     pow := fun x n => BoxedFunction "Power" [x; integer n];
     neg := fun x => BoxedFunction "Negate" [x];
     inv := fun x => BoxedFunction "Divide" [integer 1; x];
     _fn := BoxedFunction;
     box := BoxedFunction |}.

(** The imported functions for the examples: [asMachineInteger] reads the
    integer literals, and [simplifyAdd] returns the sum as it is, which has
    the value of every simplified form. *)
Definition plainImports : Imports :=
  {| asMachineInteger := fun x =>
       match x with
       | BoxedNumber re im => if Qc_eq_dec im (Q2Qc 0) then asInteger re else None
       | _ => None
       end;
     isRelationalOperator := fun h =>
       existsb (String.eqb h)
         ["Equal"; "NotEqual"; "Less"; "LessEqual"; "Greater"; "GreaterEqual"];
     simplifyAdd := BoxedFunction "Add";
     canonicalNegate := fun x => BoxedFunction "Negate" [x] |}.

(** The integer value of an expression built from integer literals, symbols,
    [Add], [Multiply], [Negate] and [Power] with a literal exponent, under a
    valuation of the symbols; any other node is given the value 0. *)
Fixpoint evalZ (rho : string -> Z) (expr : BoxedExpression) : Z :=
  match expr with
  | BoxedNumber re _ => default 0 (asInteger re)
  | BoxedSymbol s => rho s
  | BoxedString _ => 0
  | BoxedFunction h xs =>
      let vs := map (evalZ rho) xs in
      if String.eqb h "Add" then sumZ vs
      else if String.eqb h "Multiply" then prodZ vs
      else if String.eqb h "Negate" then - nth 0 vs 0
      else if String.eqb h "Power" then
        nth 0 vs 0 ^ match xs !! 1%nat with
                     | Some (BoxedNumber n _) => default 0 (asInteger n)
                     | _ => 0
                     end
      else 0
  end.

End Expand.

(** ** The imaginary factor of an expression (utils.ts) *)

Module Utils.

Import Accessors.

(** The methods of the engine and of boxed expressions that
    [getImaginaryFactor] calls: [ce.One], [ce.number(x)], [e.neg()],
    [e.mul(x)] with a number and [e.div(d)]. *)
Class Arithmetic : Type := {
  One : BoxedExpression;
  number : Qc -> BoxedExpression;
  neg : BoxedExpression -> BoxedExpression;
  mul : BoxedExpression -> Qc -> BoxedExpression;
  div : BoxedExpression -> BoxedExpression -> BoxedExpression;
}.

(** Modelled from the spec: the accessor [re] of a boxed expression, the
    real part of a number literal and [NaN] ([None]) for any other
    expression. *)
Definition re (expr : BoxedExpression) : option Qc :=
  match expr with
  | BoxedNumber r _ => Some r
  | _ => None
  end.

(** Modelled from the spec: the accessor [im], the imaginary part of a
    number literal and [NaN] ([None]) for any other expression. *)
Definition im (expr : BoxedExpression) : option Qc :=
  match expr with
  | BoxedNumber _ i => Some i
  | _ => None
  end.

(** Modelled from the spec: the accessor [isNumberLiteral]. *)
Definition isNumberLiteral (expr : BoxedExpression) : bool :=
  match expr with
  | BoxedNumber _ _ => true
  | _ => false
  end.

(** [x === 0] for a number that may be [NaN]. *)
Definition isZero (q : option Qc) : bool :=
  match q with
  | Some x => if Qc_eq_dec x (Q2Qc 0) then true else false
  | None => false
  end.

(** Modelled from the spec: the method [expr.is(0)], which holds for the
    number literal zero. *)
Definition is0 (expr : BoxedExpression) : bool :=
  isNumberLiteral expr && isZero (re expr) && isZero (im expr).

(** [expr.symbol === name] *)
Definition isSymbol (expr : BoxedExpression) (name : string) : bool :=
  match symbol expr with
  | Some s => String.eqb s name
  | None => false
  end.

(** [expr.operator === name]; the operator of an atom is its kind. *)
Definition isOperator (expr : BoxedExpression) (name : string) : bool :=
  String.eqb (head expr) name.

Section Functions.

Context {arith : Arithmetic}.

(** [ce.number(x)] for a number that may be [NaN]. *)
Definition numberOf (x : option Qc) : BoxedExpression :=
  match x with
  | Some q => number q
  | None => BoxedSymbol "NaN"
  end.

(** The block [if (expr.operator === 'Multiply' && expr.nops === 2) {...}]:
    [Some] when one of its four [return] statements is reached. *)
Definition multiplyCase (expr : BoxedExpression) : option BoxedExpression :=
  if isOperator expr "Multiply" && (nops expr =? 2) then
    let op1 := op1 expr in
    let op2 := op2 expr in
    if isSymbol op1 "ImaginaryUnit" then Some op2
    else if isSymbol op2 "ImaginaryUnit" then Some op1
    else if isNumberLiteral op2 && isZero (re op2) && negb (isZero (im op2)) then
      Some (mul op1 (default (Q2Qc 0) (im op2)))
    else if isNumberLiteral op1 && isZero (re op1) && negb (isZero (im op1)) then
      Some (mul op2 (default (Q2Qc 0) (im op1)))
    else None
  else None.

(** [getImaginaryFactor] on a boxed expression. The recursive calls are on
    [expr.op1]; for an application without operands [op1] is the symbol
    [Nothing], for which the function returns [undefined]. *)
Fixpoint getImaginaryFactorBoxed (expr : BoxedExpression) : option BoxedExpression :=
  if isSymbol expr "ImaginaryUnit" then Some One
  else if isZero (re expr) then Some (numberOf (im expr))
  else
    match expr with
    | BoxedFunction h xs =>
        if String.eqb h "Negate" then
          neg <$> match xs with
                  | x :: _ => getImaginaryFactorBoxed x
                  | [] => None
                  end
        else if String.eqb h "Complex" then
          if is0 (op1 expr) && negb (match re (op2 expr) with None => true | Some _ => false end)
          then Some (numberOf (re (op2 expr)))
          else None
        else
          match multiplyCase expr with
          | Some factor => Some factor
          | None =>
              if String.eqb h "Divide" then
                let denom := op2 expr in
                if is0 denom then None
                else
                  (fun factor => div factor denom)
                    <$> match xs with
                        | x :: _ => getImaginaryFactorBoxed x
                        | [] => None
                        end
              else None
          end
    | _ => None
    end.

(** [getImaginaryFactor(expr: number | BoxedExpression)] *)
Definition getImaginaryFactor (expr : Qc + BoxedExpression) : option BoxedExpression :=
  match expr with
  | inl _ => None                           (* typeof expr === 'number' *)
  | inr expr => getImaginaryFactorBoxed expr
  end.

End Functions.

(** *** Vocabulary: complex values *)

(** A complex number with rational parts. *)
Definition C : Type := Qc * Qc.

Definition Ci : C := (Q2Qc 0, Q2Qc 1).
Definition Cre (q : Qc) : C := (q, Q2Qc 0).

Definition Cadd (x y : C) : C := ((x.1 + y.1)%Qc, (x.2 + y.2)%Qc).
Definition Cneg (x : C) : C := ((- x.1)%Qc, (- x.2)%Qc).
Definition Cmul (x y : C) : C :=
  ((x.1 * y.1 - x.2 * y.2)%Qc, (x.1 * y.2 + x.2 * y.1)%Qc).
Definition Cinv (x : C) : C :=
  let n := (x.1 * x.1 + x.2 * x.2)%Qc in ((x.1 / n)%Qc, (- x.2 / n)%Qc).
Definition Cdiv (x y : C) : C := Cmul x (Cinv y).

(** The value of an expression under a valuation of its symbols; the symbol
    [ImaginaryUnit] is the imaginary unit. Operators other than [Negate],
    [Add], [Multiply], [Divide] and [Complex] are given the value 0. *)
Fixpoint evalC (rho : string -> C) (expr : BoxedExpression) : C :=
  match expr with
  | BoxedNumber r i => (r, i)
  | BoxedSymbol s => if String.eqb s "ImaginaryUnit" then Ci else rho s
  | BoxedString _ => Cre (Q2Qc 0)
  | BoxedFunction h xs =>
      let vs := map (evalC rho) xs in
      let v1 := nth 0 vs (rho "Nothing") in
      let v2 := nth 1 vs (rho "Nothing") in
      if String.eqb h "Negate" then Cneg v1
      else if String.eqb h "Add" then fold_right Cadd (Cre (Q2Qc 0)) vs
      else if String.eqb h "Multiply" then fold_right Cmul (Cre (Q2Qc 1)) vs
      else if String.eqb h "Divide" then Cdiv v1 v2
      else if String.eqb h "Complex" then Cadd v1 (Cmul Ci v2)
      else Cre (Q2Qc 0)
  end.

(** The operands of every [Complex] node on the path that
    [getImaginaryFactor] follows are real. *)
Fixpoint realParts (expr : BoxedExpression) : bool :=
  match expr with
  | BoxedFunction h xs =>
      if String.eqb h "Complex" then isZero (im (op2 expr))
      else match xs with
           | x :: _ => realParts x
           | [] => true
           end
  | _ => true
  end.

(** Constructors that build the node and simplify nothing. *)
Definition plainArithmetic : Arithmetic :=
  {| One := BoxedNumber (Q2Qc 1) (Q2Qc 0);
     number := fun q => BoxedNumber q (Q2Qc 0);
     neg := fun x => BoxedFunction "Negate" [x];
     mul := fun x q => BoxedFunction "Multiply" [x; BoxedNumber q (Q2Qc 0)];
     div := fun x d => BoxedFunction "Divide" [x; d] |}.

End Utils.

(** ** Validation of arguments (validate.ts) *)

Module Validate.

Import Accessors.

(** Modelled from the spec: the types of [common/type/types], a primitive
    type named by a string, a function signature, or a type of another
    kind. *)
Inductive Ty : Type :=
| TPrimitive (name : string)
| TSignature (args optArgs : list Ty) (restArg : option Ty) (result : Ty)
| TOther (kind : string) (parts : list Ty).

(** Modelled from the spec: [ce.error], the error sentinel, an application
    of [Error] to an error code and the offending values. *)
Definition error (code : string) (detail : option string) : BoxedExpression :=
  BoxedFunction "Error"
    (BoxedFunction "ErrorCode" [BoxedString code]
     :: match detail with Some s => [BoxedString s] | None => [] end).

(** Modelled from the spec: the accessor [isValid]. An expression is valid
    unless it is an error sentinel or is built from an invalid operand. *)
Fixpoint isValid (expr : BoxedExpression) : bool :=
  match expr with
  | BoxedFunction h xs => negb (String.eqb h "Error") && forallb isValid xs
  | _ => true
  end.

(** What the validators read from the engine [ce], whose state holds the
    definitions of symbols and functions, and from the operands. [infer] is
    the one operation that changes that state. *)
Class Engine (CE : Type) : Type := {
  strict : CE -> bool;
  lookupSymbol : CE -> string -> bool;
  lookupFunction : CE -> string -> bool;
  flatten : list BoxedExpression -> option string -> list BoxedExpression;
  toString : BoxedExpression -> string;
  typeToString : Ty -> string;
  typeOf : CE -> BoxedExpression -> Ty;                    (* op.type.type *)
  isUnknown : Ty -> bool;                                  (* op.type.isUnknown *)
  isSubtype : Ty -> Ty -> bool;
  matches : Ty -> Ty -> bool;                              (* op.type.matches(param) *)
  isNumber : CE -> BoxedExpression -> bool;
  isFiniteIndexableCollection : CE -> BoxedExpression -> bool;
  each : CE -> BoxedExpression -> list BoxedExpression;
  inferredType : CE -> BoxedExpression -> bool;            (* op.symbolDefinition?.inferredType *)
  inferredSignature : CE -> BoxedExpression -> bool;       (* op.functionDefinition?.inferredSignature *)
  valueIsHold : CE -> BoxedExpression -> bool;             (* op.symbolDefinition?.value?.operator === 'Hold' *)
  infer : BoxedExpression -> Ty -> CE -> CE;
}.

Section Functions.

Context {CE : Type} {engine : Engine CE}.

(** Modelled from the spec: [ce.typeError], the error sentinel that carries
    the expected type, the actual type and the offending operand. *)
Definition typeError (expected actual : Ty) (op : BoxedExpression) : BoxedExpression :=
  BoxedFunction "Error"
    [ BoxedFunction "ErrorCode"
        [ BoxedString "incompatible-type";
          BoxedString (typeToString expected);
          BoxedString (typeToString actual) ];
      op ].

Definition missing : BoxedExpression := error "missing" None.

Definition unexpected (op : BoxedExpression) : BoxedExpression :=
  error "unexpected-argument" (Some (toString op)).

(** Every value of a list is valid. *)
Definition allValid (xs : list BoxedExpression) : bool := forallb isValid xs.

(** The state of the loops of [validateArguments]: when the flag is down an
    invalid value has been pushed, and, unless the mode is lazy, while the
    flag is up the operands consumed so far are valid. *)
Definition checked (lazy : bool) (ops : list BoxedExpression)
    (state : nat * bool * list BoxedExpression) : Prop :=
  let '(i, valid, result) := state in
  (valid = false -> allValid result = false) /\
  (lazy = false -> valid = true -> allValid (take i ops) = true).

(** [while (i < count) { xs.push(ce.error('missing')); i += 1; }] *)
Fixpoint whileMissing (steps i count : nat) (xs : list BoxedExpression)
  : nat * list BoxedExpression :=
  match steps with
  | O => (i, xs)
  | S steps' =>
      if (i <? count)%nat then whileMissing steps' (S i) count (xs ++ [error "missing" None])
      else (i, xs)
  end.

(** [while (i < ops.length) { xs.push(ce.error('unexpected-argument',
    ops[i].toString())); i += 1; }] *)
Fixpoint whileUnexpected (steps i : nat) (ops xs : list BoxedExpression)
  : nat * list BoxedExpression :=
  match steps with
  | O => (i, xs)
  | S steps' =>
      match ops !! i with
      | Some op =>
          whileUnexpected steps' (S i) ops
            (xs ++ [error "unexpected-argument" (Some (toString op))])
      | None => (i, xs)                                   (* i >= ops.length *)
      end
  end.

(** [checkArity]; the expected count is a natural number. *)
Definition checkArity (ce : CE) (ops : list BoxedExpression) (count : nat)
  : list BoxedExpression :=
  let ops := flatten ops None in
  if negb (strict ce) then ops
  else if (length ops =? count)%nat then ops
  else
    let xs := take count ops in                           (* ops.slice(0, count) *)
    let i := Nat.min count (length ops) in
    let '(i, xs) := whileMissing (count - i) i count xs in
    let '(_, xs) := whileUnexpected (length ops - i) i ops xs in
    xs.

(** The options of [checkNumericArgs]: a bare number stands for
    [{ count }]. *)
Record Options : Type := mkOptions {
  count : option nat;
  flattenHead : option string;
}.

Definition complexType : Ty := TPrimitive "complex".
Definition numberType : Ty := TPrimitive "number".
Definition realType : Ty := TPrimitive "real".

(** [let inferredType = 'real'; for (const x of xs) if (isSubtype('complex',
    x.type.type)) { inferredType = 'number'; break; }] *)
Definition inferredTypeFor (ce : CE) (xs : list BoxedExpression) : Ty :=
  if existsb (fun x => isSubtype complexType (typeOf ce x)) xs then numberType
  else realType.

(** [for (const y of ys) y.infer(type)] *)
Definition inferAll (type : Ty) (ys : list BoxedExpression) (ce : CE) : CE :=
  fold_left (fun ce y => infer y type ce) ys ce.

(** The classification of one operand in the strict loop of
    [checkNumericArgs]: the updated flag and the value pushed. *)
Definition classify (ce : CE) (count i : nat) (op : option BoxedExpression)
    (valid : bool) : bool * BoxedExpression :=
  match op with
  | None =>
      (* i > count - 1 cannot hold here: the loop stops at the larger of the
         two lengths *)
      (false, error "missing" None)
  | Some op =>
      if (count <=? i)%nat then (false, error "unexpected-argument" (Some (toString op)))
      else if negb (isValid op) then (false, op)
      else if isNumber ce op then (valid, op)
      else if match symbol op with
              | Some s => negb (lookupSymbol ce s) && negb (lookupFunction ce s)
              | None => false
              end then (valid, op)
      else if isUnknown (typeOf ce op) then (valid, op)
      else if isFiniteIndexableCollection ce op then
        let valid := valid && forallb (isNumber ce) (each ce op) in
        if negb valid then (valid, typeError numberType (typeOf ce op) op)
        else (valid, op)
      else if inferredType ce op && isSubtype numberType (typeOf ce op) then (valid, op)
      else if inferredSignature ce op && isSubtype numberType (typeOf ce op) then (valid, op)
      else if String.eqb (head op) "Hold" || valueIsHold ce op then (valid, op)
      else (false, typeError numberType (typeOf ce op) op)
  end.

(** [checkNumericArgs]: the operands returned, and the engine after the
    inferences. *)
Definition checkNumericArgs (ce : CE) (ops : list BoxedExpression) (options : Options)
  : list BoxedExpression * CE :=
  let ops := flatten ops (flattenHead options) in
  if negb (strict ce) then
    let inferredType := inferredTypeFor ce ops in
    (ops,
     fold_left (fun ce x =>
                  if negb (isFiniteIndexableCollection ce x) then infer x inferredType ce
                  else ce) ops ce)
  else
    let count := default (length ops) (count options) in
    let '(valid, xs) :=
      fold_left (fun '(valid, xs) i =>
                   let '(valid, x) := classify ce count i (ops !! i) valid in
                   (valid, xs ++ [x]))
                (seq 0 (Nat.max count (length ops))) (true, []) in
    if valid then
      let inferredType := inferredTypeFor ce xs in
      (xs,
       fold_left (fun ce x =>
                    if isFiniteIndexableCollection ce x then inferAll inferredType (each ce x) ce
                    else infer x inferredType ce) xs ce)
    else (xs, ce).

(** The signature of a function: the types of its required and optional
    parameters and of its rest parameter. *)
Record Signature : Type := mkSignature {
  args : list Ty;
  optArgs : list Ty;
  restArg : option Ty;
}.

Definition signatureOf (type : Ty) : option Signature :=
  match type with
  | TSignature a o r _ => Some (mkSignature a o r)
  | _ => None                       (* a string, or a kind other than 'signature' *)
  end.

(** The checks that the three loops of [validateArguments] apply to an
    operand that is present; the required parameters alone also accept an
    inferred signature. Returns the value pushed and whether the operand
    passed. *)
Definition checkOperand (ce : CE) (lazy threadable withSignature : bool)
    (op : BoxedExpression) (param : Ty) : BoxedExpression * bool :=
  if lazy then (op, true)
  else if negb (isValid op) then (op, false)
  else if isUnknown (typeOf ce op) then (op, true)
  else if threadable && isFiniteIndexableCollection ce op then (op, true)
  else if inferredType ce op && matches (typeOf ce op) param then (op, true)
  else if withSignature && inferredSignature ce op && matches (typeOf ce op) param
    then (op, true)
  else if negb (matches (typeOf ce op) param) then (typeError param (typeOf ce op) op, false)
  else (op, true).

(** The loop over the required parameters: [i], [isValid], [result]. *)
Fixpoint validateRequired (ce : CE) (lazy threadable : bool) (ops : list BoxedExpression)
    (params : list Ty) (i : nat) (valid : bool) (result : list BoxedExpression)
  : nat * bool * list BoxedExpression :=
  match params with
  | [] => (i, valid, result)
  | param :: params' =>
      match ops !! i with
      | None =>
          validateRequired ce lazy threadable ops params' (S i) false
            (result ++ [error "missing" None])
      | Some op =>
          let '(x, ok) := checkOperand ce lazy threadable true op param in
          validateRequired ce lazy threadable ops params' (S i) (valid && ok) (result ++ [x])
      end
  end.

(** The loop over the optional parameters; it stops at the first absent
    operand. *)
Fixpoint validateOptional (ce : CE) (lazy threadable : bool) (ops : list BoxedExpression)
    (optParams : list Ty) (i : nat) (valid : bool) (result : list BoxedExpression)
  : nat * bool * list BoxedExpression :=
  match optParams with
  | [] => (i, valid, result)
  | param :: optParams' =>
      match ops !! i with
      | None => (i, valid, result)                                      (* break *)
      | Some op =>
          let '(x, ok) := checkOperand ce lazy threadable false op param in
          validateOptional ce lazy threadable ops optParams' (S i) (valid && ok) (result ++ [x])
      end
  end.

(** The loop over the remaining operands when there is a rest parameter. *)
Fixpoint validateRest (ce : CE) (lazy threadable : bool) (rest : list BoxedExpression)
    (restParam : Ty) (i : nat) (valid : bool) (result : list BoxedExpression)
  : nat * bool * list BoxedExpression :=
  match rest with
  | [] => (i, valid, result)
  | op :: rest' =>
      let '(x, ok) := checkOperand ce lazy threadable false op restParam in
      validateRest ce lazy threadable rest' restParam (S i) (valid && ok) (result ++ [x])
  end.

(** The inference of one operand: [if (!threadable ||
    !isFiniteIndexableCollection(op)) op.infer(param)]. *)
Definition inferOperand (threadable : bool) (op : BoxedExpression) (param : Ty) (ce : CE)
  : CE :=
  if negb threadable || negb (isFiniteIndexableCollection ce op) then infer op param ce
  else ce.

(** The three loops that infer the types once every operand is valid. The
    loops over the required and the rest parameters test [!lazy]; the loop
    over the optional parameters does not. *)
Fixpoint inferRequired (lazy threadable : bool) (ops : list BoxedExpression)
    (params : list Ty) (i : nat) (ce : CE) : nat * CE :=
  match params with
  | [] => (i, ce)
  | param :: params' =>
      let ce :=
        if negb lazy then
          match ops !! i with
          | Some op => inferOperand threadable op param ce
          | None => ce                    (* not reached: no operand was missing *)
          end
        else ce in
      inferRequired lazy threadable ops params' (S i) ce
  end.

Fixpoint inferOptional (threadable : bool) (ops : list BoxedExpression)
    (optParams : list Ty) (i : nat) (ce : CE) : nat * CE :=
  match optParams with
  | [] => (i, ce)
  | param :: optParams' =>
      match ops !! i with
      | None => (i, ce)                                                 (* break *)
      | Some op => inferOptional threadable ops optParams' (S i) (inferOperand threadable op param ce)
      end
  end.

Definition inferRest (lazy threadable : bool) (rest : list BoxedExpression)
    (restParam : Ty) (ce : CE) : CE :=
  fold_left (fun ce op => if negb lazy then inferOperand threadable op restParam ce else ce)
            rest ce.

(** [validateArguments]: [None] is [null] (the arguments match), otherwise
    the list with the mismatches marked; and the engine after the
    inferences. *)
Definition validateArguments (ce : CE) (ops : list BoxedExpression) (signature : Ty)
    (lazy threadable : bool) : option (list BoxedExpression) * CE :=
  if negb (strict ce) then (None, ce)
  else
    match signatureOf signature with
    | None => (None, ce)
    | Some sig =>
        let params := args sig in
        let optParams := optArgs sig in
        let restParam := restArg sig in
        let '(i, valid, result) :=
          validateRequired ce lazy threadable ops params 0 true [] in
        let '(i, valid, result) :=
          validateOptional ce lazy threadable ops optParams i valid result in
        let '(i, valid, result) :=
          match restParam with
          | Some restParam =>
              validateRest ce lazy threadable (drop i ops) restParam i valid result
          | None => (i, valid, result)
          end in
        let '(valid, result) :=
          if (i <? length ops)%nat then
            (false,
             result ++ map (fun op => error "unexpected-argument" (Some (toString op)))
                           (drop i ops))
          else (valid, result) in
        if negb valid then (Some result, ce)
        else
          let '(i, ce) := inferRequired lazy threadable ops params 0 ce in
          let '(i, ce) := inferOptional threadable ops optParams i ce in
          let ce :=
            match restParam with
            | Some restParam => inferRest lazy threadable (drop i ops) restParam ce
            | None => ce
            end in
          (None, ce)
    end.

End Functions.

(** *** A small engine to run the validators on *)

(** Modelled from the spec: the owning context, with its strictness flag and
    its table of definitions, here the type of each declared symbol. *)
Record SmallEngine : Type := mkSmallEngine {
  isStrict : bool;
  definitions : gmap string Ty;
}.

Definition primitiveName (t : Ty) : string :=
  match t with
  | TPrimitive n => n
  | TSignature _ _ _ _ => "function"
  | TOther k _ => k
  end.

Definition smallSubtype (a b : Ty) : bool :=
  let a := primitiveName a in
  let b := primitiveName b in
  String.eqb a b || String.eqb b "any"
  || (String.eqb b "number" && (String.eqb a "real" || String.eqb a "complex")).

Definition smallTypeOf (ce : SmallEngine) (expr : BoxedExpression) : Ty :=
  match expr with
  | BoxedNumber _ i => if Qc_eq_dec i (Q2Qc 0) then realType else complexType
  | BoxedSymbol s => default (TPrimitive "unknown") (definitions ce !! s)
  | BoxedString _ => TPrimitive "string"
  | BoxedFunction h _ =>
      if String.eqb h "List" then TOther "list" [] else TPrimitive "unknown"
  end.

(** Modelled from the spec: inference gives a type to a symbol that has none
    or whose type is unknown, and leaves a concrete type alone. *)
Definition smallInfer (expr : BoxedExpression) (type : Ty) (ce : SmallEngine) : SmallEngine :=
  match expr with
  | BoxedSymbol s =>
      if String.eqb (primitiveName (smallTypeOf ce expr)) "unknown"
      then mkSmallEngine (isStrict ce) (<[s := type]> (definitions ce))
      else ce
  | _ => ce
  end.

#[export] Instance smallEngine : Engine SmallEngine :=
  {| strict := isStrict;
     lookupSymbol := fun ce s => bool_decide (is_Some (definitions ce !! s));
     lookupFunction := fun _ _ => false;
     flatten := fun ops _ =>
       flat_map (fun op => if String.eqb (head op) "Sequence" then ops_ op else [op]) ops;
     toString := fun expr =>
       match expr with
       | BoxedSymbol s => s
       | BoxedString s => s
       | BoxedFunction h _ => h
       | BoxedNumber _ _ => "number"
       end;
     typeToString := primitiveName;
     typeOf := smallTypeOf;
     isUnknown := fun t => String.eqb (primitiveName t) "unknown";
     isSubtype := smallSubtype;
     matches := smallSubtype;
     isNumber := fun ce expr => smallSubtype (smallTypeOf ce expr) numberType;
     isFiniteIndexableCollection := fun _ expr => String.eqb (head expr) "List";
     each := fun _ expr => ops_ expr;
     inferredType := fun _ _ => false;
     inferredSignature := fun _ _ => false;
     valueIsHold := fun _ _ => false;
     infer := smallInfer |}.

End Validate.

(** ** Canonical comparison (the subject of comparisons.test.ts) *)

Module Compare.

Local Open Scope Q_scope.

(** The three-way result as the number that [compare] returns. *)
Definition threeWay (c : comparison) : Z :=
  match c with
  | Lt => (-1)%Z
  | Eq => 0%Z
  | Gt => 1%Z
  end.

Section Model.

(** The numeric value of the known constant symbols, and the order on
    operands that sorts the terms of a canonical expression. *)
Variable constantValue : string -> option Q.
Variable operandOrder : Expression -> Expression -> Z.

(** Modelled from the spec: the real numeric value that a side reduces to,
    a number literal or a known constant symbol. *)
Definition numericValue (expr : Expression) : option Q :=
  match expr with
  | Num n => Some (inject_Z n)
  | Sym s => constantValue s
  | Fn _ _ => None
  end.

Definition occurrences (x : Expression) (xs : list Expression) : nat :=
  length (filter (fun y => Expression_eqb x y = true) xs).

Definition sameMultiset (xs ys : list Expression) : bool :=
  forallb (fun x => Nat.eqb (occurrences x xs) (occurrences x ys)) (xs ++ ys).

(** The order of the first pair of operands that differ. *)
Fixpoint lexicographic (xs ys : list Expression) : option Z :=
  match xs, ys with
  | x :: xs', y :: ys' =>
      if Expression_eqb x y then lexicographic xs' ys' else Some (operandOrder x y)
  | [], [] => Some 0%Z
  | _, _ => None
  end.

(** Modelled from the spec: [compare], which is not part of the sources at
    hand. Two sides with a real numeric value compare as numbers; identical
    expressions compare as 0; two applications of the same operator to the
    same multiset of operands compare lexicographically by operand
    position; anything else is incomparable ([None] for [undefined]). *)
Definition compare (a b : Expression) : option Z :=
  match numericValue a, numericValue b with
  | Some x, Some y => Some (threeWay (x ?= y))
  | _, _ =>
      if Expression_eqb a b then Some 0%Z
      else
        match a, b with
        | Fn h xs, Fn k ys =>
            if String.eqb h k && sameMultiset xs ys then lexicographic xs ys else None
        | _, _ => None
        end
  end.


End Model.


(** The table [exprs] of the test: [[a, b, compare(a, b)]]. *)
Definition exprs : list (Expression * Expression * option Z) :=
  [ (Num 1, Num 1, Some 0%Z);
    (Num 1, Num 0, Some 1%Z);
    (Num 2, Num 5, Some (-1)%Z);
    (Num 5, Num 2, Some 1%Z);
    (Num 7, Num 7, Some 0%Z);

    (Num 1, Sym "Pi", Some (-1)%Z);
    (Sym "Pi", Sym "Pi", Some 1%Z);
    (Num 4, Sym "Pi", Some 1%Z);
    (Sym "Pi", Num 1, Some 1%Z);
    (Sym "Pi", Num 4, Some (-1)%Z);

    (Num 1, Sym "x", None);
    (Sym "x", Num 1, None);
    (Sym "x", Sym "y", None);
    (Sym "x", Fn "Foo" [], None);
    (Fn "Foo" [], Sym "x", None);

    (Fn "Add" [Sym "x"; Num 1], Fn "Add" [Sym "x"; Num 1], Some 0%Z);
    (Fn "Add" [Num 1; Sym "x"], Fn "Add" [Sym "x"; Num 1], Some (-1)%Z) ].

End Compare.

(** ** Inputs of the examples *)

(** Concrete rule sets over the specification's matcher. *)

Definition rule_of (l r : Expression) : Rules.Rule unit :=
  @Rules.mkRule unit l r None.

Definition rules_bc_ab_bd : Rules.RuleSet unit :=
  [ rule_of (Sym "b") (Sym "c");
    rule_of (Sym "a") (Sym "b");
    rule_of (Sym "b") (Sym "d") ].

Definition rules_loop : Rules.RuleSet unit := [ rule_of (Sym "a") (Sym "a") ].

(** The symbols of the expansion examples, and a valuation that tells them
    apart. *)
Definition sym_a : BoxedExpression := BoxedSymbol "a".
Definition sym_b : BoxedExpression := BoxedSymbol "b".
Definition sym_c : BoxedExpression := BoxedSymbol "c".

Definition power (x : BoxedExpression) (n : Z) : BoxedExpression :=
  BoxedFunction "Power" [x; Expand.integer n].

Definition times_ (xs : list BoxedExpression) : BoxedExpression :=
  BoxedFunction "Multiply" xs.

Definition rho_34 (s : string) : Z := if String.eqb s "a" then 3 else 4.

Definition rho_11 (s : string) : Z := 1.

Definition imaginaryUnit : BoxedExpression := BoxedSymbol "ImaginaryUnit".

Definition real (z : Z) : BoxedExpression := BoxedNumber (Q2Qc (inject_Z z)) (Q2Qc 0).

(** Operands for the examples. *)
Definition symbol_x : BoxedExpression := BoxedSymbol "x".
Definition symbol_y : BoxedExpression := BoxedSymbol "y".
Definition number_7 : BoxedExpression := BoxedNumber (Q2Qc (inject_Z 7)) (Q2Qc 0).

Definition strictEngine : Validate.SmallEngine := Validate.mkSmallEngine true ∅.

(** An invalid operand: an error sentinel. *)
Definition badOperand : BoxedExpression := Validate.error "missing" None.

Definition noOptions : Validate.Options := Validate.mkOptions None None.

Definition binaryReal : Validate.Ty :=
  Validate.TSignature [Validate.realType; Validate.realType] [] None Validate.realType.

Definition twoOptionalReal : Validate.Ty :=
  Validate.TSignature [] [Validate.realType; Validate.realType] None Validate.realType.

(** ** Further vocabulary and functions of the same sources *)

(** *** The rewrite relation of a rule set (rules.ts) *)

Module Rewriting.

Section Relation.

Context {CE : Type} {patterns : Rules.Patterns}.

(** One application of [applyRule] with some rule of the set, at the
    root. *)
Definition step (ce : CE) (rules : Rules.RuleSet CE) (a b : Expression) : Prop :=
  exists rule, In rule rules /\ Rules.applyRule ce rule a = Some b.

(** Finitely many applications, one after the other. *)
Definition reaches (ce : CE) (rules : Rules.RuleSet CE) : Expression -> Expression -> Prop :=
  rtc (step ce rules).

End Relation.

End Rewriting.

(** A rule whose pattern is a lone pattern variable, and which wraps what
    it matched. *)
Definition rules_wrap : Rules.RuleSet unit :=
  [ rule_of (Sym "_x") (Fn "f" [Sym "_x"]) ].

(** *** Vocabulary for [choose], [multinomialCoefficient] and [powers]
        (expand.ts) *)

Module Counting.

(** [n!] *)
Fixpoint factorial (n : nat) : Z :=
  match n with
  | O => 1
  | S n' => Z.of_nat n * factorial n'
  end.

(** [k1! * ... * km!] for a tuple of exponents. *)
Definition factorials (k : list Z) : Z :=
  Expand.prodZ (map (fun ki => factorial (Z.to_nat ki)) k).

End Counting.

(** *** The remaining functions of expand.ts *)

Module Expansion.

Import Accessors Expand.

Section Functions.

Context {ce : IComputeEngine} {imports : Imports}.


(** [expandAll]: [expr.head && expr.ops] holds for an application whose
    operator is not the empty string. *)
Fixpoint expandAll (fuel : nat) (expr : BoxedExpression) {struct fuel}
  : M (option BoxedExpression) :=
  match fuel with
  | O => diverge
  | S fuel =>
      match ops expr with
      | Some xs =>
          if String.eqb (head expr) "" then mret None
          else
            ops ← mapM_ (fun x => r ← expandAll fuel x; mret (default x r)) xs;
            let result := box (head expr) ops in
            r ← expand fuel (Some result);
            mret (Some (default result r))
      | None => mret None
      end
  end.

End Functions.

(** Whatever the first computation returns, the second returns too. *)
Definition refines {A : Type} (m m' : M A) : Prop :=
  forall t res, m t = Some res -> m' t = Some res.

End Expansion.

(** *** Rational values of expressions (expand.ts) *)

Module Value.

Import Accessors Expand.

Local Open Scope Qc_scope.

(** An integer as a rational. *)
Definition ofZ (z : Z) : Qc := Q2Qc (inject_Z z).

Definition sumQ (xs : list Qc) : Qc := fold_right Qcplus 0 xs.

Definition prodQ (xs : list Qc) : Qc := fold_right Qcmult 1 xs.

(** A power with an integer exponent; a negative exponent is the inverse of
    the positive power. The inverse of 0 is 0, as in [Qc]. *)
Definition powQ (x : Qc) (n : Z) : Qc :=
  if (n <? 0)%Z then / (x ^ Z.to_nat (- n)) else x ^ Z.to_nat n.

(** The monomial [x1^k1 * ... * xm^km]. *)
Fixpoint monomialQ (xs : list Qc) (k : list Z) : Qc :=
  match xs, k with
  | x :: xs', ki :: k' => x ^ Z.to_nat ki * monomialQ xs' k'
  | _, _ => 1
  end.

(** Sums over [0 .. n-1]. *)
Definition bsumQ (f : nat -> Qc) (n : nat) : Qc := sumQ (map f (seq 0 n)).

(** The number of applications in an expression. *)
Fixpoint size (expr : BoxedExpression) : nat :=
  match expr with
  | BoxedFunction _ xs => S (list_sum (map size xs))
  | _ => O
  end.

(** Every sum and every product in the expression has at least one
    operand. *)
Fixpoint wellFormed (expr : BoxedExpression) : bool :=
  match expr with
  | BoxedFunction h xs =>
      negb ((String.eqb h "Multiply" || String.eqb h "Add")
            && match xs with [] => true | _ :: _ => false end)
      && forallb wellFormed xs
  | _ => true
  end.

Section Soundness.

Context {ce : IComputeEngine} {imports : Imports}.

(** A valuation of boxed expressions in the rationals that reads the
    arithmetic nodes as the operations they name, and under which the
    constructors of the engine and the imported functions build what their
    names say. A relational node has a value that depends on the values of
    its operands only. *)
Record Sound (denote : BoxedExpression -> Qc) : Prop := {
  node_Negate : forall e, head e = "Negate" -> denote e = - denote (op1 e);
  node_Divide : forall e, head e = "Divide" -> denote e = denote (op1 e) / denote (op2 e);
  node_Add : forall e, head e = "Add" -> denote e = sumQ (map denote (ops_ e));
  node_Multiply : forall e, head e = "Multiply" -> denote e = prodQ (map denote (ops_ e));
  node_Power : forall e n,
    head e = "Power" -> asMachineInteger (op2 e) = Some n ->
    denote e = powQ (denote (op1 e)) n;
  node_relational : forall e xs,
    isRelationalOperator (head e) = true -> map denote xs = map denote (ops_ e) ->
    denote (_fn (head e) xs) = denote e;
  build_One : denote One = 1;
  build_NegativeOne : denote NegativeOne = - 1;
  build_number : forall z, denote (number (Finite z)) = ofZ z;
  build_add : forall xs, denote (add xs) = sumQ (map denote xs);
  build_mul : forall xs, denote (mul xs) = prodQ (map denote xs);
  build_div : forall x y, denote (div x y) = denote x / denote y;
  build_pow : forall x n, (0 <= n)%Z -> denote (pow x n) = powQ (denote x) n;
  build_neg : forall x, denote (neg x) = - denote x;
  build_inv : forall x, denote (inv x) = / denote x;
  build_canonicalNegate : forall x, denote (canonicalNegate x) = - denote x;
  build_simplifyAdd : forall xs, denote (simplifyAdd xs) = sumQ (map denote xs);
}.

(** No power in the expression has an integer exponent of absolute value
    19 or more; the exponent is read as [expandMultinomial] reads it. *)
Fixpoint smallExponents (expr : BoxedExpression) : bool :=
  match expr with
  | BoxedFunction h xs =>
      (if String.eqb h "Power"
       then match asMachineInteger (default Nothing (xs !! 1%nat)) with
            | Some exp => (Z.abs exp <? Z.of_nat exactRows)%Z
            | None => true
            end
       else true)
      && forallb smallExponents xs
  | _ => true
  end.

(** A computation keeps the table [binomials] a table of computed rows and
    only extends it; and what it returns satisfies [R] when the coefficients
    it forms are exact, which is so under the condition [guard] on its
    arguments, and whenever it leaves at most [exactRows] rows. *)
Definition keeps {A : Type} (guard : Prop) (m : M A) (R : A -> Prop) : Prop :=
  forall t a t',
    computedTable t -> m t = Some (a, t') ->
    computedTable t' /\ (length t <= length t')%nat /\
    (guard \/ (length t' <= exactRows)%nat -> R a).

(** Moreover, under the assumption [P], when the computation returns an
    expression rather than [null], the expression has the value [v]. *)
Definition preserves (denote : BoxedExpression -> Qc) (guard P : Prop)
    (m : M (option BoxedExpression)) (v : Qc) : Prop :=
  keeps guard m (fun o => P -> forall r, o = Some r -> denote r = v).

End Soundness.

(** The value of an application, from its operator and the values of its
    operands; [absent] is the value of an absent operand. A relation is
    given the value 1 when it holds and 0 when it does not. *)
Definition truth (b : bool) : Qc := if b then 1 else 0.

Definition applyQ (absent : Qc) (h : string) (vs : list Qc) : Qc :=
  let v1 := nth 0 vs absent in
  let v2 := nth 1 vs absent in
  if String.eqb h "Add" then sumQ vs
  else if String.eqb h "Multiply" then prodQ vs
  else if String.eqb h "Negate" then - v1
  else if String.eqb h "Divide" then v1 / v2
  else if String.eqb h "Power" then
    match asInteger v2 with
    | Some n => powQ v1 n
    | None => 0
    end
  else if String.eqb h "Equal" then truth (Qc_eq_bool v1 v2)
  else if String.eqb h "NotEqual" then truth (negb (Qc_eq_bool v1 v2))
  else if String.eqb h "Less" then truth (match v1 ?= v2 with Lt => true | _ => false end)
  else if String.eqb h "LessEqual" then truth (match v1 ?= v2 with Gt => false | _ => true end)
  else if String.eqb h "Greater" then truth (match v1 ?= v2 with Gt => true | _ => false end)
  else if String.eqb h "GreaterEqual" then truth (match v1 ?= v2 with Lt => false | _ => true end)
  else 0.

(** The value of an expression under a valuation of its symbols. *)
Fixpoint evalQ (rho : string -> Qc) (expr : BoxedExpression) : Qc :=
  match expr with
  | BoxedNumber re _ => re
  | BoxedSymbol s => rho s
  | BoxedString _ => 0
  | BoxedFunction h xs => applyQ (rho "Nothing") h (map (evalQ rho) xs)
  end.

(** The canonical form of the empty sum is 0 and of the empty product 1. *)
Fixpoint canonicalize (expr : BoxedExpression) : BoxedExpression :=
  match expr with
  | BoxedFunction h xs =>
      match xs with
      | [] =>
          if String.eqb h "Add" then integer 0
          else if String.eqb h "Multiply" then integer 1
          else BoxedFunction h []
      | _ :: _ => BoxedFunction h (map canonicalize xs)
      end
  | _ => expr
  end.

(** The plain engine, with a [box] that returns canonical forms. *)
Definition canonicalEngine : IComputeEngine :=
  {| One := One (IComputeEngine := plainEngine);
     NegativeOne := NegativeOne (IComputeEngine := plainEngine);
     number := number (IComputeEngine := plainEngine);
     add := add (IComputeEngine := plainEngine);
     mul := mul (IComputeEngine := plainEngine);
     div := div (IComputeEngine := plainEngine);
     pow := pow (IComputeEngine := plainEngine);
     neg := neg (IComputeEngine := plainEngine);
     inv := inv (IComputeEngine := plainEngine);
     _fn := _fn (IComputeEngine := plainEngine);
     box := fun h xs => canonicalize (BoxedFunction h xs) |}.

End Value.

(** A valuation of the symbols of the examples. *)
Definition rho_half (s : string) : Qc :=
  if String.eqb s "a" then Q2Qc (1 # 2) else Q2Qc (inject_Z 3).

Definition plus (xs : list BoxedExpression) : BoxedExpression := BoxedFunction "Add" xs.

Definition over (x y : BoxedExpression) : BoxedExpression := BoxedFunction "Divide" [x; y].

Definition minus (x : BoxedExpression) : BoxedExpression := BoxedFunction "Negate" [x].

(** *** The remaining validators of validate.ts *)

Module Checks.

Import Accessors Validate.

(** The two properties of a boxed expression that [checkType] and
    [checkPure] read besides those of [Validate.Engine]. *)
Class Forms : Type := {
  canonical : BoxedExpression -> BoxedExpression;        (* arg.canonical *)
  isPure : BoxedExpression -> bool;                      (* arg.isPure *)
}.

Section Functions.

Context {CE : Type} {engine : Engine CE} {forms : Forms}.

(** [checkType]; [None] stands for [undefined] or [null]. *)
Definition checkType (ce : CE) (arg : option BoxedExpression) (type : option Ty)
  : BoxedExpression :=
  match arg with
  | None => error "missing" None
  | Some arg =>
      match type with
      | None => error "unexpected-argument" (Some (toString arg))
      | Some type =>
          let arg := canonical arg in
          if negb (isValid arg) then arg
          else if matches (typeOf ce arg) type then arg
          else typeError type (typeOf ce arg) arg
      end
  end.

(** [checkTypes]: the quick check, then one loop over the types and one
    over the arguments that are left. *)
Definition checkTypes (ce : CE) (args : list BoxedExpression) (types : list Ty)
  : list BoxedExpression :=
  if (length args =? length types)%nat
     && forallb (fun p => matches (typeOf ce p.1) p.2) (zip args types)
  then args
  else
    map (fun i => checkType ce (args !! i) (types !! i)) (seq 0 (length types))
    ++ map (fun i => error "unexpected-argument" (toString <$> args !! i))
           (seq (length types) (length args - length types)).

(** [checkPure] *)
Definition checkPure (ce : CE) (arg : option BoxedExpression) : BoxedExpression :=
  match arg with
  | None => error "missing" None
  | Some arg =>
      let arg := canonical arg in
      if negb (isValid arg) then arg
      else if isPure arg then arg
      else error "expected-pure-expression" (Some (toString arg))
  end.

(** The value that a validator reports at position [j] for the operands
    [ops]: the operand itself, a type error that wraps it or an
    unexpected-argument error for it; and a missing error where there is no
    operand. *)
Definition positional (ops : list BoxedExpression) (j : nat) (x : BoxedExpression) : Prop :=
  match ops !! j with
  | Some op =>
      x = op \/ (exists expected actual, x = typeError expected actual op) \/ x = unexpected op
  | None => x = missing
  end.

End Functions.

End Checks.

(** A list of numbers. *)
Definition list_7 : BoxedExpression := BoxedFunction "List" [number_7].

(** *** [hashCode] (utils.ts) *)

Module Hash.

(** [x | 0]: the conversion of an integer to a signed 32-bit integer. *)
Definition toInt32 (x : Z) : Z := (x + 2 ^ 31) mod 2 ^ 32 - 2 ^ 31.

(** [Math.imul(a, b)] *)
Definition imul (a b : Z) : Z := toInt32 (toInt32 a * toInt32 b).

(** The loop of [hashCode] over the UTF-16 code units [s.charCodeAt(i)] of
    the string. *)
Definition hashLoop (s : list Z) : Z :=
  fold_left (fun hash c => toInt32 (imul 31 hash + c)) s 0.

Definition hashCode (s : list Z) : Z := Z.abs (hashLoop s).

(** Horner's rule in the integers: [c0 * 31^(n-1) + ... + c(n-1)]. *)
Definition horner (s : list Z) : Z := fold_left (fun hash c => 31 * hash + c) s 0.

End Hash.

(** *** Definitions of symbols and functions (utils.ts) *)

Module Definitions.

(** What [typeof] says of the value of a field. *)
Inductive FieldType : Type :=
| IsString
| IsFunction
| IsOther.

(** What the two predicates read of their argument [def]: whether it is a
    non-null object, whether it has an [engine] field (a boxed expression),
    and which of the fields they test with [in] are present; for [type] and
    [sgn], also the [typeof] of the value. *)
Record Def : Type := mkDef {
  isObject : bool;
  engine : bool;
  value : bool;
  constant : bool;
  inferred : bool;
  type : option FieldType;
  signature : bool;
  sgn : option FieldType;
  evaluate : bool;
  complexity : bool;
  canonical : bool;
}.

(** A predicate returns a boolean or throws an [Error]. *)
Inductive Outcome : Type :=
| Returns (b : bool)
| Throws (message : string).

Definition present {A : Type} (field : option A) : bool :=
  match field with Some _ => true | None => false end.

Definition isNot (t : FieldType) (field : option FieldType) : bool :=
  match field with
  | Some IsString => match t with IsString => false | _ => true end
  | Some IsFunction => match t with IsFunction => false | _ => true end
  | Some IsOther => true
  | None => false
  end.

Definition isSymbolDefinition (def : Def) : Outcome :=
  if negb (isObject def) then Returns false
  else if engine def then Returns false                       (* isBoxedExpression(def) *)
  else if value def || constant def || inferred def || present (type def) then
    if isNot IsString (type def) then
      Throws "The `type` field of a symbol definition should be of type `string`"
    else if signature def then
      Throws "Symbol definition cannot have a `signature` field. Use a `type` field instead."
    else if present (sgn def) then
      Throws "Symbol definition cannot have a `sgn` field. Use a `flags.sgn` field instead."
    else Returns true
  else Returns false.

Definition isFunctionDefinition (def : Def) : Outcome :=
  if negb (isObject def) then Returns false
  else if engine def then Returns false
  else if (signature def || complexity def) && constant def then
    Throws "Function definition cannot have a `constant` field and symbol definition cannot have a `signature` field."
  else if negb (evaluate def) && negb (signature def) && negb (present (sgn def))
          && negb (complexity def) && negb (canonical def) then Returns false
  else if isNot IsFunction (type def) then
    Throws "The `type` field of a function definition should be a function"
  else if isNot IsFunction (sgn def) then
    Throws "The `sgn` field of a function definition should be a function"
  else Returns true.

End Definitions.

(** *** The expectations of the ordering suites (comparisons.test.ts) *)

Module Suites.

(** A row of the table [exprs]. *)
Abbreviation Row := (Expression * Expression * option Z)%type.

(** [expr[2] === undefined ? undefined : expr[2] < 0 ? true : false], and
    the same with [<=], [>] and [>=]. *)
Definition expectedLess (row : Row) : option bool := (fun c => c <? 0) <$> row.2.
Definition expectedLessEqual (row : Row) : option bool := (fun c => c <=? 0) <$> row.2.
Definition expectedGreater (row : Row) : option bool := (fun c => c >? 0) <$> row.2.
Definition expectedGreaterEqual (row : Row) : option bool := (fun c => c >=? 0) <$> row.2.

(** A suite passes when, on every row of the table, [engine.less] returns
    what the suite expects: the four suites all call [engine.less]. *)
Definition passes (less : Expression -> Expression -> option bool)
    (expected : Row -> option bool) : Prop :=
  Forall (fun row => less row.1.1 row.1.2 = expected row) Compare.exprs.

End Suites.

(** *** Multiples of pi (utils.ts) *)

Module Angles.

Import Accessors Utils.

(** Modelled from the spec: a [NumericValue] of [../types], an exact
    number, here a complex number with rational parts, with its methods
    [neg], [add], [mul] and [div] as the operations on such numbers. *)
Abbreviation NumericValue := C.

(** What the function takes from the numeric tower and the evaluator, which
    are not part of the sources at hand: [expr.N().numericValue], the
    numeric value that the evaluation of an expression gives, [undefined]
    ([None]) when it gives none; and [x.div(0)], the result of a division by
    zero, about which the specification says nothing. *)
Class Numerics : Type := {
  N : BoxedExpression -> option NumericValue;
  divideByZero : NumericValue -> NumericValue;
}.

(** Modelled from the spec: the accessor [numericValue] of a number
    literal, the number it stands for. *)
Definition numericValue (expr : BoxedExpression) : NumericValue :=
  match expr with
  | BoxedNumber r i => (r, i)
  | _ => Cre (Q2Qc 0)
  end.

Definition isZeroValue (d : NumericValue) : bool :=
  if Qc_eq_dec d.1 (Q2Qc 0) then (if Qc_eq_dec d.2 (Q2Qc 0) then true else false)
  else false.

Section Functions.

Context {numerics : Numerics}.

(** Modelled from the spec: the method [div] of a [NumericValue], the exact
    quotient when the divisor is not zero. *)
Definition div (x d : NumericValue) : NumericValue :=
  if isZeroValue d then divideByZero x else Cdiv x d.

(** The last statement of [getPiTerm]:
    [[ce._numericValue(0), ce._numericValue(expr.N().numericValue ?? 0)]]. *)
Definition numericTerm (expr : BoxedExpression) : option (NumericValue * NumericValue) :=
  Some (Cre (Q2Qc 0), default (Cre (Q2Qc 0)) (N expr)).

(** [getPiTerm]: the pair [[k, t]]; [None] when the call throws, which it
    does on a [Negate] without operand, where [expr.ops![0]] is
    [undefined]. *)
Fixpoint getPiTerm (expr : BoxedExpression) : option (NumericValue * NumericValue) :=
  if isSymbol expr "Pi" then Some (Cre (Q2Qc 1), Cre (Q2Qc 0))
  else
    match expr with
    | BoxedFunction h xs =>
        if String.eqb h "Negate" then
          match xs with
          | x :: _ => (fun kt => (Cneg kt.1, Cneg kt.2)) <$> getPiTerm x
          | [] => None
          end
        else if String.eqb h "Add" && (nops expr =? 2) then
          match xs with
          | [a; b] =>
              kt1 ← getPiTerm a;
              kt2 ← getPiTerm b;
              Some (Cadd kt1.1 kt2.1, Cadd kt1.2 kt2.2)
          | _ => numericTerm expr                  (* not reached: nops is 2 *)
          end
        else if String.eqb h "Multiply" && (nops expr =? 2) then
          match xs with
          | [a; b] =>
              if isNumberLiteral a then
                (fun kt => (Cmul kt.1 (numericValue a), Cmul kt.2 (numericValue a)))
                  <$> getPiTerm b
              else if isNumberLiteral b then
                (fun kt => (Cmul kt.1 (numericValue b), Cmul kt.2 (numericValue b)))
                  <$> getPiTerm a
              else numericTerm expr
          | _ => numericTerm expr                  (* not reached: nops is 2 *)
          end
        else if String.eqb h "Divide" then
          match xs with
          | a :: b :: _ =>
              if isNumberLiteral b then
                (fun kt => (div kt.1 (numericValue b), div kt.2 (numericValue b)))
                  <$> getPiTerm a
              else numericTerm expr
          | _ => numericTerm expr                  (* op2 is the symbol Nothing *)
          end
        else numericTerm expr
    | _ => numericTerm expr
    end.

(** The expressions on which [getPiTerm] meets no expression without
    numeric value and no division by zero: it follows the same path, and
    asks that [N] is defined where the function falls back on it and that a
    number literal that divides is not zero. *)
Fixpoint numericLeaves (expr : BoxedExpression) : bool :=
  if isSymbol expr "Pi" then true
  else
    match expr with
    | BoxedFunction h xs =>
        if String.eqb h "Negate" then
          match xs with
          | x :: _ => numericLeaves x
          | [] => false
          end
        else if String.eqb h "Add" && (nops expr =? 2) then
          match xs with
          | [a; b] => numericLeaves a && numericLeaves b
          | _ => false
          end
        else if String.eqb h "Multiply" && (nops expr =? 2) then
          match xs with
          | [a; b] =>
              if isNumberLiteral a then numericLeaves b
              else if isNumberLiteral b then numericLeaves a
              else bool_decide (is_Some (N expr))
          | _ => false
          end
        else if String.eqb h "Divide" then
          match xs with
          | a :: b :: _ =>
              if isNumberLiteral b then negb (isZeroValue (numericValue b)) && numericLeaves a
              else bool_decide (is_Some (N expr))
          | _ => bool_decide (is_Some (N expr))
          end
        else bool_decide (is_Some (N expr))
    | _ => bool_decide (is_Some (N expr))
    end.

End Functions.

(** A numeric evaluation that knows the number literals only; the examples
    do not divide by zero. *)
Definition literalNumerics : Numerics :=
  {| N := fun expr =>
       match expr with
       | BoxedNumber r i => Some (r, i)
       | _ => None
       end;
     divideByZero := fun x => x |}.

End Angles.

Definition symbol_Pi : BoxedExpression := BoxedSymbol "Pi".

(** A valuation of the symbols in the complex rationals. *)
Definition rho_C (s : string) : Utils.C :=
  if String.eqb s "Pi" then Utils.Cre (Q2Qc (22 # 7)) else Utils.Cre (Q2Qc (inject_Z 5)).

(** *** LaTeX strings (utils.ts) *)

Module Latex.

(** A JavaScript string, as the list of its UTF-16 code units. *)
Abbreviation JSString := (list Z).

(** The code unit of [$]. *)
Definition dollar : Z := 36.

(** The argument of [asLatexString], of type [unknown]: a number, with the
    string that [toString] gives for it; a string; an array, with the
    string that [joinLatex] makes of it; anything else. *)
Inductive Unknown : Type :=
| ANumber (text : JSString)
| AString (s : JSString)
| AnArray (joined : JSString)
| Another.

Section Functions.

(** The code units that [String.prototype.trim] removes: white space and
    line terminators. *)
Variable isWhiteSpace : Z -> bool.

Fixpoint trimStart (s : JSString) : JSString :=
  match s with
  | c :: s' => if isWhiteSpace c then trimStart s' else s
  | [] => []
  end.

Definition trim (s : JSString) : JSString := rev (trimStart (rev (trimStart s))).

Fixpoint startsWith (s prefix : JSString) : bool :=
  match prefix, s with
  | [], _ => true
  | p :: prefix', c :: s' => Z.eqb c p && startsWith s' prefix'
  | _ :: _, [] => false
  end.

Definition endsWith (s suffix : JSString) : bool := startsWith (rev s) (rev suffix).

(** [str.slice(n, -n)] for [n >= 0]. *)
Definition strip (n : nat) (s : JSString) : JSString := take (length s - n - n) (drop n s).

Definition isLatexString (s : Unknown) : bool :=
  match s with
  | AString s => startsWith s [dollar] && endsWith s [dollar]
  | _ => false
  end.

Definition asLatexStringOfString (s : JSString) : option JSString :=
  let str := trim s in
  if startsWith str [dollar; dollar] && endsWith str [dollar; dollar] then Some (strip 2 str)
  else if startsWith str [dollar] && endsWith str [dollar] then Some (strip 1 str)
  else None.

(** [asLatexString]: for a string that is not delimited the function goes
    on to the test [Array.isArray(s)], which fails, and returns [null]. *)
Definition asLatexString (s : Unknown) : option JSString :=
  match s with
  | ANumber text => Some text
  | AString s => asLatexStringOfString s
  | AnArray joined => asLatexStringOfString joined
  | Another => None
  end.

End Functions.

End Latex.

(** The space, for the examples. *)
Definition isSpace (c : Z) : bool := Z.eqb c 32.

(** The code units of [x^2]. *)
Definition x_squared : Latex.JSString := [120; 94; 50].

Definition unaryReal : Validate.Ty :=
  Validate.TSignature [Validate.realType] [] None Validate.realType.

(** * Part II: properties *)

(** ** Structural induction and equality of expressions *)

(** Structural induction that also reaches the operands of [Fn]. *)
Lemma Expression_ind' (P : Expression -> Prop) :
  (forall n, P (Num n)) ->
  (forall s, P (Sym s)) ->
  (forall h args, Forall P args -> P (Fn h args)) ->
  forall e, P e.
Proof.
  intros HN HS HF.
  fix IH 1. intros [n|s|h args].
  - apply HN.
  - apply HS.
  - apply HF. induction args as [|a args IHargs]; constructor.
    + apply IH.
    + exact IHargs.
Qed.

Lemma Expression_eqb_eq (x y : Expression) : Expression_eqb x y = true <-> x = y.
Proof.
  revert y. induction x as [n|s|h xs IH] using Expression_ind'; intros [m|t|k ys];
    simpl; try (split; intros; discriminate).
  - rewrite Z.eqb_eq. split; congruence.
  - rewrite String.eqb_eq. split; congruence.
  - rewrite andb_true_iff, String.eqb_eq.
    assert (Hl : forall ys,
      (fix all2 (xs ys : list Expression) {struct xs} : bool :=
         match xs, ys with
         | [], [] => true
         | x :: xs', y :: ys' => Expression_eqb x y && all2 xs' ys'
         | _, _ => false
         end) xs ys = true <-> xs = ys).
    { clear ys. induction IH as [|x xs Hx _ IHxs]; intros [|y ys];
        try (split; intros; (discriminate || reflexivity)).
      rewrite andb_true_iff, Hx, IHxs. split; [intros [-> ->]; reflexivity|].
      intros H; injection H; auto. }
    rewrite Hl. split; [intros [-> ->]; reflexivity|].
    intros H; injection H; auto.
Qed.

#[global] Instance Expression_eq_dec : EqDecision Expression.
Proof.
  intros x y. destruct (Expression_eqb x y) eqn:E.
  - left. apply Expression_eqb_eq, E.
  - right. intros H. apply Expression_eqb_eq in H. congruence.
Defined.

Lemma BoxedExpression_ind' (P : BoxedExpression -> Prop) :
  (forall re im, P (BoxedNumber re im)) ->
  (forall s, P (BoxedSymbol s)) ->
  (forall s, P (BoxedString s)) ->
  (forall h ops, Forall P ops -> P (BoxedFunction h ops)) ->
  forall e, P e.
Proof.
  intros HN HS HT HF.
  fix IH 1. intros [re im|s|s|h ops].
  - apply HN.
  - apply HS.
  - apply HT.
  - apply HF. induction ops as [|a ops IHops]; constructor.
    + apply IH.
    + exact IHops.
Qed.

(** ** [normalizeFlags] *)

(** C9: in the record that [normalizeFlags] returns, [even] and [odd] are
    never both true; when [odd] is set, [even] is cleared, and when [even]
    is set (and [odd] is not), [odd] is cleared; the other fields are
    copied. *)
Theorem normalizeFlags_parity_exclusive (flags : Flags.NumericFlags) :
  exists result,
    Flags.normalizeFlags (Some flags) = Some result /\
    ~ (Flags.even result = Some true /\ Flags.odd result = Some true) /\
    (Flags.odd flags = Some true ->
       Flags.even result = Some false /\ Flags.odd result = Some true) /\
    (Flags.even flags = Some true -> Flags.odd flags <> Some true ->
       Flags.odd result = Some false /\ Flags.even result = Some true) /\
    Flags.number result = Flags.number flags /\
    Flags.integer result = Flags.integer flags /\
    Flags.zero result = Flags.zero flags /\
    Flags.positive result = Flags.positive flags.
Proof.
  destruct flags as [n i z p e o]. eexists. split; [reflexivity|].
  destruct o as [[|]|], e as [[|]|]; simpl;
    repeat split; intros; try congruence; intuition congruence.
Qed.

(** Without parity information nothing changes, and an absent record stays
    absent. *)
Lemma normalizeFlags_no_parity (flags : Flags.NumericFlags) :
  Flags.truthy (Flags.odd flags) = false ->
  Flags.truthy (Flags.even flags) = false ->
  Flags.normalizeFlags (Some flags) = Some flags.
Proof.
  intros Ho He. unfold Flags.normalizeFlags. rewrite Ho, He. reflexivity.
Qed.

Lemma normalizeFlags_undefined : Flags.normalizeFlags None = None.
Proof. reflexivity. Qed.

(** ** The rewriting driver [replace] *)

Section ReplaceFacts.

Context {CE : Type} {patterns : Rules.Patterns}.

Implicit Types (ce : CE) (rules : Rules.RuleSet CE) (expr : Expression).

Lemma scan_app ce pre post done expr :
  Rules.scan ce (pre ++ post) done expr =
  Rules.scan ce post (Rules.scan ce pre done expr).1 (Rules.scan ce pre done expr).2.
Proof.
  revert done expr. induction pre as [|rule pre IH]; intros done expr; simpl.
  - reflexivity.
  - destruct (Rules.applyRule ce rule expr); apply IH.
Qed.

Lemma scan_irreducible ce rules done expr :
  Rules.irreducible ce rules expr -> Rules.scan ce rules done expr = (done, expr).
Proof.
  induction 1 as [|rule rules Hrule _ IH]; simpl.
  - reflexivity.
  - rewrite Hrule. exact IH.
Qed.

(** The flag [done] is never set back to [true] by the scan, and a scan that
    leaves it [true] has applied no rule. *)
Lemma scan_done ce rules done expr expr' :
  Rules.scan ce rules done expr = (true, expr') ->
  done = true /\ expr' = expr /\ Rules.irreducible ce rules expr.
Proof.
  revert done expr. induction rules as [|rule rules IH]; intros done expr; simpl.
  - intros [= -> ->]. repeat split. constructor.
  - destruct (Rules.applyRule ce rule expr) as [result|] eqn:E; intros H.
    + apply IH in H as [H _]. discriminate.
    + apply IH in H as (-> & -> & Hirr). repeat split. constructor; assumption.
Qed.

Lemma replace_returns_irreducible fuel ce rules expr out :
  Rules.replace fuel ce rules expr = Some out ->
  exists final, out = Rules.value final /\ Rules.irreducible ce rules final.
Proof.
  revert expr. induction fuel as [|fuel IH]; intros expr; simpl; [discriminate|].
  destruct (Rules.scan ce rules true expr) as [[|] expr'] eqn:E.
  - intros [= <-]. apply scan_done in E as (_ & -> & Hirr). eauto.
  - apply IH.
Qed.

(** C2 (as amended): when a rule matches during a pass, the root is replaced
    and the pass goes on with the later rules of the set against the new
    root; the rules before it are tried again only in the next pass.
    [replace] returns only an expression on which a full pass over the rule
    set changes nothing. *)
Theorem replace_pass_continues fuel ce pre rule post expr done current result out :
  Rules.scan ce pre true expr = (done, current) ->
  Rules.applyRule ce rule current = Some result ->
  Rules.replace (S fuel) ce (pre ++ rule :: post) expr = Some out ->
  Rules.scan ce (pre ++ rule :: post) true expr = Rules.scan ce post false result /\
  Rules.replace (S fuel) ce (pre ++ rule :: post) expr =
    (let '(_, expr') := Rules.scan ce post false result in
     Rules.replace fuel ce (pre ++ rule :: post) expr') /\
  exists final,
    out = Rules.value final /\ Rules.irreducible ce (pre ++ rule :: post) final.
Proof.
  intros Hpre Hrule Hout.
  assert (Hscan : Rules.scan ce (pre ++ rule :: post) true expr
                  = Rules.scan ce post false result).
  { rewrite scan_app, Hpre. simpl. rewrite Hrule. reflexivity. }
  split; [exact Hscan|]. split.
  - simpl. rewrite Hscan.
    destruct (Rules.scan ce post false result) as [[|] expr'] eqn:E; [|reflexivity].
    apply scan_done in E as [E _]. discriminate.
  - eapply replace_returns_irreducible, Hout.
Qed.

Lemma no_match_irreducible ce rules expr :
  Forall (fun rule => Rules.match_ (Rules.lhs rule) expr = None) rules ->
  Rules.irreducible ce rules expr.
Proof.
  induction 1 as [|rule rules Hrule _ IH]; constructor; [|exact IH].
  unfold Rules.applyRule. rewrite Hrule. reflexivity.
Qed.

(** C10 (as amended): whatever [replace] returns is an expression, never
    [null]; and when no rule applies at the root, in particular when no
    pattern matches it or the rule set is empty, the first pass already
    returns the input unchanged. *)
Theorem replace_not_null fuel ce rules expr :
  (forall out, Rules.replace fuel ce rules expr = Some out -> out <> Rules.null) /\
  (Rules.irreducible ce rules expr ->
   Rules.replace (S fuel) ce rules expr = Some (Rules.value expr)) /\
  (Forall (fun rule => Rules.match_ (Rules.lhs rule) expr = None) rules ->
   Rules.replace (S fuel) ce rules expr = Some (Rules.value expr)) /\
  Rules.replace (S fuel) ce [] expr = Some (Rules.value expr).
Proof.
  assert (Hirr : Rules.irreducible ce rules expr ->
                 Rules.replace (S fuel) ce rules expr = Some (Rules.value expr)).
  { intros Hirr. simpl. rewrite (scan_irreducible _ _ _ _ Hirr). reflexivity. }
  split; [|split; [exact Hirr|split; [|reflexivity]]].
  - intros out Hout. apply replace_returns_irreducible in Hout as (final & -> & _).
    discriminate.
  - intros Hmatch. apply Hirr, no_match_irreducible, Hmatch.
Qed.

Lemma replace_empty fuel ce expr :
  Rules.replace (S fuel) ce [] expr = Some (Rules.value expr).
Proof. reflexivity. Qed.

(** More fuel does not change a result. *)
Lemma replace_fuel_mono fuel fuel' ce rules expr out :
  (fuel <= fuel')%nat ->
  Rules.replace fuel ce rules expr = Some out ->
  Rules.replace fuel' ce rules expr = Some out.
Proof.
  revert fuel' expr. induction fuel as [|fuel IH]; intros fuel' expr Hle; simpl;
    [discriminate|].
  destruct fuel' as [|fuel']; [lia|]. simpl.
  destruct (Rules.scan ce rules true expr) as [[|] expr']; [auto|].
  apply IH. lia.
Qed.

(** A rule set containing a rule that rewrites the root to itself keeps
    [replace] in its loop whatever the budget. *)
Lemma replace_loops ce rules expr :
  (Rules.scan ce rules true expr = (false, expr)) ->
  forall fuel, Rules.replace fuel ce rules expr = None.
Proof.
  intros Hscan fuel. induction fuel as [|fuel IH]; simpl; [reflexivity|].
  rewrite Hscan. exact IH.
Qed.

End ReplaceFacts.

(** C2, counterexample: in the rule set [b -> c; a -> b; b -> d] applied to
    [a], the second rule matches and produces [b]; restarting would now try
    the first rule and end with [c], but the code tries the third rule next
    and returns [d]. *)
Lemma replace_does_not_restart :
  Rules.applyRule (patterns := Rules.specPatterns) tt
    (rule_of (Sym "a") (Sym "b")) (Sym "a") = Some (Sym "b") /\
  Rules.applyRule (patterns := Rules.specPatterns) tt
    (rule_of (Sym "b") (Sym "c")) (Sym "b") = Some (Sym "c") /\
  Rules.replace_restarting (patterns := Rules.specPatterns) 3 tt rules_bc_ab_bd (Sym "a")
    = Some (Rules.value (Sym "c")) /\
  Rules.replace (patterns := Rules.specPatterns) 2 tt rules_bc_ab_bd (Sym "a")
    = Some (Rules.value (Sym "d")).
Proof. repeat split; vm_compute; reflexivity. Qed.

Lemma replace_pass_continues_witness :
  Rules.scan (patterns := Rules.specPatterns) tt rules_bc_ab_bd true (Sym "a")
  = Rules.scan (patterns := Rules.specPatterns) tt
      [rule_of (Sym "b") (Sym "d")] false (Sym "b") /\
  Rules.replace (patterns := Rules.specPatterns) 2 tt rules_bc_ab_bd (Sym "a")
  = Rules.replace (patterns := Rules.specPatterns) 1 tt rules_bc_ab_bd (Sym "d") /\
  exists final,
    Rules.value (Sym "d") = Rules.value final /\
    Rules.irreducible (patterns := Rules.specPatterns) tt rules_bc_ab_bd final.
Proof.
  pose proof (replace_pass_continues (patterns := Rules.specPatterns) 1 tt
    [rule_of (Sym "b") (Sym "c")] (rule_of (Sym "a") (Sym "b"))
    [rule_of (Sym "b") (Sym "d")] (Sym "a") true (Sym "a") (Sym "b")
    (Rules.value (Sym "d")) eq_refl eq_refl eq_refl) as (H1 & H2 & H3).
  split; [|split].
  - exact H1.
  - exact H2.
  - exact H3.
Defined.

(** C10, counterexample: with the single rule [a -> a] the rule applies at
    the root [a] in every pass, so [replace] never returns. *)
Lemma replace_not_total :
  Rules.applyRule (patterns := Rules.specPatterns) tt
    (rule_of (Sym "a") (Sym "a")) (Sym "a") = Some (Sym "a") /\
  (forall fuel,
     Rules.replace (patterns := Rules.specPatterns) fuel tt rules_loop (Sym "a") = None).
Proof.
  split; [vm_compute; reflexivity|].
  apply replace_loops. vm_compute. reflexivity.
Qed.

Lemma replace_not_null_witness :
  Rules.replace (patterns := Rules.specPatterns) 1 tt rules_bc_ab_bd (Sym "z")
  = Some (Rules.value (Sym "z")).
Proof.
  destruct (replace_not_null (patterns := Rules.specPatterns) 0 tt rules_bc_ab_bd (Sym "z"))
    as (_ & _ & Hmatch & _).
  apply Hmatch. repeat constructor.
Defined.

(** ** The generator [powers] *)

Section PowersFacts.

Import Expand.

Lemma mapM_total {A B : Type} (f : A -> option B) (g : A -> B) (l : list A) :
  (forall x, In x l -> f x = Some (g x)) -> mapM f l = Some (map g l).
Proof.
  induction l as [|x l IH]; intros H; simpl.
  - reflexivity.
  - rewrite (H x) by (left; reflexivity). simpl.
    rewrite IH by (intros y Hy; apply H; right; exact Hy). reflexivity.
Qed.

(** With enough fuel [powers] returns, and it yields [compositions]. *)
Lemma powers_compositions (fuel n : nat) (exp : Z) :
  (1 <= n)%nat -> (n <= fuel)%nat ->
  powers fuel (Z.of_nat n) exp = Some (compositions n exp).
Proof.
  revert n exp. induction fuel as [|fuel IH]; intros n exp Hn Hfuel; [lia|].
  destruct n as [|[|m]]; [lia|reflexivity|].
  cbn [powers]. replace (Z.of_nat (S (S m)) =? 1) with false by (symmetry; apply Z.eqb_neq; lia).
  rewrite (mapM_total _ (fun i => map (cons i) (compositions (S m) (exp - i)))).
  - reflexivity.
  - intros i _. replace (Z.of_nat (S (S m)) - 1) with (Z.of_nat (S m)) by lia.
    rewrite IH by lia. reflexivity.
Qed.

(** Without a positive [n] the recursion never reaches [n === 1]. *)
Lemma powers_unbounded (fuel : nat) (n exp : Z) :
  n <= 0 -> 0 <= exp -> powers fuel n exp = None.
Proof.
  revert n exp. induction fuel as [|fuel IH]; intros n exp Hn Hexp; [reflexivity|].
  cbn [powers]. replace (n =? 1) with false by (symmetry; apply Z.eqb_neq; lia).
  unfold upto. rewrite seqZ_cons by lia. cbn [mapM].
  rewrite IH by lia. reflexivity.
Qed.

Lemma in_upto (exp i : Z) : In i (upto exp) <-> 0 <= i <= exp.
Proof. unfold upto. rewrite <- list_elem_of_In, elem_of_seqZ. lia. Qed.

Lemma in_compositions (n : nat) (exp : Z) (p : list Z) :
  (1 <= n)%nat -> 0 <= exp ->
  In p (compositions n exp) <->
  length p = n /\ Forall (fun k => 0 <= k) p /\ sumZ p = exp.
Proof.
  revert exp p. induction n as [|n IH]; intros exp p Hn Hexp; [lia|].
  destruct n as [|m].
  - simpl. split.
    + intros [<-|[]]. repeat split; [repeat constructor; lia|simpl; lia].
    + intros (Hlen & Hpos & Hsum). destruct p as [|k [|? ?]]; try discriminate.
      simpl in Hsum. left. f_equal. lia.
  - change (compositions (S (S m)) exp)
      with (List.concat (map (fun i => map (cons i) (compositions (S m) (exp - i))) (upto exp))).
    rewrite in_concat. split.
    + intros (block & Hblock & Hp). apply in_map_iff in Hblock as (i & <- & Hi).
      apply in_map_iff in Hp as (q & <- & Hq). apply in_upto in Hi.
      apply IH in Hq as (Hlen & Hpos & Hsum); [|lia|lia].
      repeat split; [simpl; lia|constructor; [lia|exact Hpos]|simpl; lia].
    + intros (Hlen & Hpos & Hsum). destruct p as [|i q]; [discriminate|].
      apply Forall_cons in Hpos as [Hi Hq]. simpl in Hsum.
      assert (Hqsum : 0 <= sumZ q).
      { clear -Hq. induction Hq; simpl; lia. }
      exists (map (cons i) (compositions (S m) (exp - i))). split.
      * apply in_map_iff. exists i. split; [reflexivity|]. apply in_upto. lia.
      * apply in_map. apply IH; [lia|lia|]. repeat split; [simpl in Hlen; lia|exact Hq|lia].
Qed.

Lemma lexlt_irrefl (p : list Z) : ~ lexlt p p.
Proof. induction p as [|x p IH]; simpl; [tauto|]. intros [H|[_ H]]; [lia|tauto]. Qed.

(** The yields of consecutive values of the loop counter, in order. *)
Lemma blocks_sorted (f : Z -> list (list Z)) (idxs : list Z) :
  StronglySorted Z.lt idxs ->
  (forall i, In i idxs -> StronglySorted lexlt (f i)) ->
  StronglySorted lexlt (List.concat (map (fun i => map (cons i) (f i)) idxs)).
Proof.
  induction 1 as [|i idxs Hsorted IH Hlt]; intros Hblocks; simpl; [constructor|].
  apply StronglySorted_app_2.
  - intros p q Hp Hq. apply list_elem_of_In, in_map_iff in Hp as (p' & <- & _).
    apply list_elem_of_In, in_concat in Hq as (block & Hblock & Hq).
    apply in_map_iff in Hblock as (j & <- & Hj).
    apply in_map_iff in Hq as (q' & <- & _).
    simpl. left. rewrite Forall_forall in Hlt. apply Hlt, list_elem_of_In, Hj.
  - assert (Hi : StronglySorted lexlt (f i)) by (apply Hblocks; left; reflexivity).
    clear -Hi. induction Hi as [|p l _ IHl Hp]; simpl; constructor; [exact IHl|].
    rewrite Forall_forall in *. intros q Hq.
    apply list_elem_of_In, in_map_iff in Hq as (q' & <- & Hq').
    simpl. right. split; [reflexivity|]. apply Hp, list_elem_of_In, Hq'.
  - apply IH. intros j Hj. apply Hblocks. right. exact Hj.
Qed.

Lemma upto_sorted (exp : Z) : StronglySorted Z.lt (upto exp).
Proof.
  unfold upto, seqZ. generalize (Z.to_nat (exp + 1)) as len. generalize 0%nat as start.
  intros start len. revert start. induction len as [|len IH]; intros start; simpl.
  - constructor.
  - constructor; [apply IH|]. rewrite Forall_forall. intros k Hk.
    apply list_elem_of_In, in_map_iff in Hk as (j & <- & Hj). apply in_seq in Hj. lia.
Qed.

Lemma compositions_sorted (n : nat) (exp : Z) : StronglySorted lexlt (compositions n exp).
Proof.
  revert exp. induction n as [|[|m] IH]; intros exp.
  - constructor.
  - repeat constructor.
  - apply (blocks_sorted (fun i => compositions (S m) (exp - i))); [apply upto_sorted|].
    intros i _. apply IH.
Qed.

Lemma sorted_NoDup (l : list (list Z)) : StronglySorted lexlt l -> List.NoDup l.
Proof.
  induction 1 as [|p l _ IH Hp]; constructor; [|exact IH].
  intros Hin. rewrite Forall_forall in Hp.
  apply (lexlt_irrefl p), Hp, list_elem_of_In, Hin.
Qed.

(** C5: for [n >= 1] and [exp >= 0] the generator [powers(n, exp)] returns
    (given fuel for its [n] nested calls) and yields exactly the tuples of
    [n] non-negative integers that sum to [exp], each once, in ascending
    lexicographic order: the first component ascends from [0] to [exp], and
    for each of its values the remaining components are enumerated in the
    same order. *)
Theorem powers_enumerates (fuel : nat) (n exp : Z) :
  1 <= n -> 0 <= exp -> (Z.to_nat n <= fuel)%nat ->
  exists yields,
    powers fuel n exp = Some yields /\
    (forall p, In p yields <->
       Z.of_nat (length p) = n /\ Forall (fun k => 0 <= k) p /\ sumZ p = exp) /\
    List.NoDup yields /\
    StronglySorted lexlt yields /\
    (n = 1 -> yields = [[exp]]) /\
    (1 < n ->
       exists rest,
         Forall2 (fun i r => powers (fuel - 1) (n - 1) (exp - i) = Some r) (upto exp) rest /\
         yields = List.concat (map (fun '(i, r) => map (cons i) r) (combine (upto exp) rest))).
Proof.
  intros Hn Hexp Hfuel. exists (compositions (Z.to_nat n) exp).
  pose proof (powers_compositions fuel (Z.to_nat n) exp ltac:(lia) Hfuel) as Hrun.
  rewrite Z2Nat.id in Hrun by lia.
  split; [exact Hrun|]. split; [|split; [|split; [|split]]].
  - intros p. rewrite in_compositions by lia. split; intros (H1 & H2 & H3); repeat split;
      try assumption; lia.
  - apply sorted_NoDup, compositions_sorted.
  - apply compositions_sorted.
  - intros ->. reflexivity.
  - intros Hn2. destruct fuel as [|fuel]; [lia|].
    exists (map (fun i => compositions (Z.to_nat (n - 1)) (exp - i)) (upto exp)). split.
    + apply Forall2_fmap_r, Forall_Forall2_diag, Forall_forall. intros i _.
      replace (S fuel - 1)%nat with fuel by lia.
      pose proof (powers_compositions fuel (Z.to_nat (n - 1)) (exp - i)
                    ltac:(lia) ltac:(lia)) as H.
      rewrite Z2Nat.id in H by lia. exact H.
    + destruct (Z.to_nat n) as [|[|m]] eqn:En; [lia|lia|].
      replace (Z.to_nat (n - 1)) with (S m) by lia.
      change (compositions (S (S m)) exp)
        with (List.concat (map (fun i => map (cons i) (compositions (S m) (exp - i))) (upto exp))).
      f_equal. generalize (upto exp) as idxs. intros idxs.
      induction idxs as [|i idxs IHis]; simpl; [reflexivity|]. f_equal. exact IHis.
Qed.

Lemma powers_enumerates_witness :
  exists yields,
    powers 3 3 2 = Some yields /\
    yields = [[0; 0; 2]; [0; 1; 1]; [0; 2; 0]; [1; 0; 1]; [1; 1; 0]; [2; 0; 0]].
Proof.
  destruct (powers_enumerates 3 3 2 ltac:(lia) ltac:(lia) ltac:(vm_compute; lia))
    as (yields & Hrun & _).
  exists yields. split; [exact Hrun|].
  vm_compute in Hrun. injection Hrun as <-. reflexivity.
Defined.

End PowersFacts.

(** ** Binomial and multinomial sums over [Z] *)

Section Sums.

Import Expand.

Lemma sumZ_app (xs ys : list Z) : sumZ (xs ++ ys) = sumZ xs + sumZ ys.
Proof. induction xs as [|x xs IH]; simpl; lia. Qed.

Lemma prodZ_app (xs ys : list Z) : prodZ (xs ++ ys) = prodZ xs * prodZ ys.
Proof. induction xs as [|x xs IH]; simpl; lia. Qed.

Lemma sumZ_concat (ls : list (list Z)) : sumZ (List.concat ls) = sumZ (map sumZ ls).
Proof. induction ls as [|l ls IH]; simpl; [reflexivity|]. rewrite sumZ_app, IH. reflexivity. Qed.

Lemma sumZ_map_ext {A : Type} (f g : A -> Z) (l : list A) :
  (forall x, In x l -> f x = g x) -> sumZ (map f l) = sumZ (map g l).
Proof.
  induction l as [|x l IH]; intros H; simpl; [reflexivity|].
  rewrite (H x) by (left; reflexivity).
  rewrite IH by (intros y Hy; apply H; right; exact Hy). reflexivity.
Qed.

Lemma sumZ_map_add {A : Type} (f g : A -> Z) (l : list A) :
  sumZ (map (fun x => f x + g x) l) = sumZ (map f l) + sumZ (map g l).
Proof. induction l as [|x l IH]; simpl; lia. Qed.

Lemma sumZ_map_scale {A : Type} (c : Z) (f : A -> Z) (l : list A) :
  sumZ (map (fun x => c * f x) l) = c * sumZ (map f l).
Proof. induction l as [|x l IH]; simpl; lia. Qed.

Lemma fold_left_sumZ (k : list Z) (acc : Z) :
  fold_left (fun acc v => acc + v) k acc = acc + sumZ k.
Proof. revert acc. induction k as [|x k IH]; intros acc; simpl; [lia|]. rewrite IH. lia. Qed.

Lemma bsum_S_r f n : bsum f (S n) = bsum f n + f n.
Proof. unfold bsum. rewrite seq_S, map_app, sumZ_app. simpl. lia. Qed.

Lemma bsum_S_l f n : bsum f (S n) = f 0%nat + bsum (fun i => f (S i)) n.
Proof. unfold bsum. simpl. rewrite <- seq_shift, map_map. reflexivity. Qed.

Lemma bsum_ext f g n : (forall i, (i < n)%nat -> f i = g i) -> bsum f n = bsum g n.
Proof. intros H. apply sumZ_map_ext. intros i Hi. apply in_seq in Hi. apply H. lia. Qed.

Lemma binom_0_r n : binom n 0 = 1.
Proof. destruct n; reflexivity. Qed.

Lemma binom_gt n k : (n < k)%nat -> binom n k = 0.
Proof.
  revert k. induction n as [|n IH]; intros [|k] H; try lia; simpl; [reflexivity|].
  rewrite !IH by lia. reflexivity.
Qed.

Lemma binom_diag n : binom n n = 1.
Proof. induction n as [|n IH]; simpl; [reflexivity|]. rewrite IH, binom_gt by lia. lia. Qed.

Lemma pow_succ_nat (x : Z) (i : nat) : x ^ Z.of_nat (S i) = x * x ^ Z.of_nat i.
Proof. rewrite Nat2Z.inj_succ, Z.pow_succ_r by lia. reflexivity. Qed.

(** The binomial theorem. *)
Lemma binomial_theorem (x y : Z) (e : nat) :
  bsum (fun i => binom e i * x ^ Z.of_nat i * y ^ Z.of_nat (e - i)) (S e)
  = (x + y) ^ Z.of_nat e.
Proof.
  induction e as [|e IH]; [reflexivity|].
  rewrite pow_succ_nat, <- IH, bsum_S_l.
  rewrite (bsum_ext _ (fun i => x * (binom e i * x ^ Z.of_nat i * y ^ Z.of_nat (e - i))
                               + binom e (S i) * x ^ Z.of_nat (S i) * y ^ Z.of_nat (e - i)))
    by (intros i Hi; cbn [binom]; rewrite pow_succ_nat;
        replace (S e - S i)%nat with (e - i)%nat by lia; ring).
  unfold bsum at 1. rewrite sumZ_map_add, sumZ_map_scale. fold (bsum (fun i => binom e i * x ^ Z.of_nat i * y ^ Z.of_nat (e - i)) (S e)).
  fold (bsum (fun i => binom e (S i) * x ^ Z.of_nat (S i) * y ^ Z.of_nat (e - i)) (S e)).
  rewrite (bsum_S_r (fun i => binom e (S i) * _ * _)), (binom_gt e (S e)) by lia.
  rewrite Z.mul_add_distr_r.
  assert (Hy : y * bsum (fun i => binom e i * x ^ Z.of_nat i * y ^ Z.of_nat (e - i)) (S e)
               = y ^ Z.of_nat (S e)
                 + bsum (fun i => binom e (S i) * x ^ Z.of_nat (S i) * y ^ Z.of_nat (e - i)) e).
  { unfold bsum at 1. rewrite <- sumZ_map_scale.
    fold (bsum (fun i => y * (binom e i * x ^ Z.of_nat i * y ^ Z.of_nat (e - i))) (S e)).
    rewrite (bsum_ext _ (fun i => binom e i * x ^ Z.of_nat i * y ^ Z.of_nat (S e - i))).
    - rewrite bsum_S_l, binom_0_r. simpl (Z.of_nat 0). rewrite Z.pow_0_r.
      replace (S e - 0)%nat with (S e) by lia.
      rewrite (bsum_ext (fun i => binom e (S i) * x ^ Z.of_nat (S i) * y ^ Z.of_nat (S e - S i))
                        (fun i => binom e (S i) * x ^ Z.of_nat (S i) * y ^ Z.of_nat (e - i)))
        by (intros i Hi; replace (S e - S i)%nat with (e - i)%nat by lia; reflexivity).
      ring.
    - intros i Hi. replace (S e - i)%nat with (S (e - i)) by lia.
      rewrite pow_succ_nat. ring. }
  rewrite Hy, binom_0_r. simpl (Z.of_nat 0). rewrite Z.pow_0_r.
  replace (S e - 0)%nat with (S e) by lia. ring.
Qed.

Lemma upto_of_nat (e : nat) : upto (Z.of_nat e) = map Z.of_nat (seq 0 (S e)).
Proof.
  unfold upto, seqZ. replace (Z.to_nat (Z.of_nat e + 1)) with (S e) by lia.
  apply map_ext. intros i. lia.
Qed.

Lemma binomial_theorem_upto (x y e : Z) :
  0 <= e ->
  sumZ (map (fun i => binom (Z.to_nat e) (Z.to_nat i) * x ^ i * y ^ (e - i)) (upto e))
  = (x + y) ^ e.
Proof.
  intros He. assert (Hn : e = Z.of_nat (Z.to_nat e)) by lia.
  revert Hn. generalize (Z.to_nat e) as n. intros n ->. clear He.
  rewrite upto_of_nat, map_map, <- binomial_theorem.
  apply sumZ_map_ext. intros i Hi. apply in_seq in Hi.
  rewrite !Nat2Z.id. replace (Z.of_nat n - Z.of_nat i) with (Z.of_nat (n - i)) by lia.
  reflexivity.
Qed.

(** The multinomial theorem over the compositions that [powers] yields. *)
Lemma multinomial_theorem (xs : list Z) (e : Z) :
  xs <> [] -> 0 <= e ->
  sumZ (map (fun p => multinomial p * monomial xs p) (compositions (length xs) e))
  = sumZ xs ^ e.
Proof.
  revert e. induction xs as [|x xs IH]; intros e Hne He; [congruence|].
  destruct xs as [|x' xs].
  - simpl. rewrite !Z.add_0_r, binom_diag. ring.
  - set (ys := x' :: xs) in *.
    change (length (x :: ys)) with (S (length ys)).
    assert (Hlen : length ys = S (length xs)) by reflexivity.
    rewrite Hlen. 
    change (compositions (S (S (length xs))) e)
      with (List.concat (map (fun i => map (cons i) (compositions (S (length xs)) (e - i))) (upto e))).
    rewrite <- Hlen.
    rewrite concat_map, sumZ_concat, !map_map.
    rewrite (sumZ_map_ext _ (fun i => binom (Z.to_nat e) (Z.to_nat i) * x ^ i * sumZ ys ^ (e - i))).
    + rewrite binomial_theorem_upto by exact He. reflexivity.
    + intros i Hi. apply in_upto in Hi. rewrite map_map.
      rewrite <- IH by (subst ys; first [discriminate | lia]).
      rewrite <- sumZ_map_scale. apply sumZ_map_ext. intros q Hq.
      apply in_compositions in Hq as (_ & _ & Hsum); [|subst ys; simpl; lia|lia].
      cbn [multinomial monomial]. rewrite Hsum.
      replace (i + (e - i)) with e by lia. ring.
Qed.

End Sums.

(** ** The table [binomials], [choose] and [multinomialCoefficient] *)

Section TableFacts.

Import Expand Counting.

(** *** Binomial coefficients and factorials *)

Lemma factorial_pos (n : nat) : 0 < factorial n.
Proof. induction n as [|n IH]; simpl factorial; lia. Qed.

(** [C(n, k) * k! * (n - k)! = n!] *)
Lemma binom_factorial (n k : nat) :
  (k <= n)%nat -> binom n k * factorial k * factorial (n - k) = factorial n.
Proof.
  revert k. induction n as [|n IH]; intros k Hk.
  - replace k with 0%nat by lia. reflexivity.
  - destruct k as [|k].
    + rewrite binom_0_r, Nat.sub_0_r. cbn [factorial]. lia.
    + cbn [binom]. replace (S n - S k)%nat with (n - k)%nat by lia.
      rewrite Z.mul_add_distr_r, Z.mul_add_distr_r.
      assert (H1 : binom n k * factorial (S k) * factorial (n - k)
                   = Z.of_nat (S k) * factorial n).
      { rewrite <- (IH k) by lia. cbn [factorial]. ring. }
      rewrite H1.
      destruct (Nat.eq_dec k n) as [->|Hne].
      * rewrite binom_gt by lia. change (factorial (S n)) with (Z.of_nat (S n) * factorial n).
        ring.
      * assert (H2 : binom n (S k) * factorial (S k) * factorial (n - k)
                     = Z.of_nat (n - k) * factorial n).
        { rewrite <- (IH (S k)) by lia.
          replace (n - k)%nat with (S (n - S k)) by lia.
          change (factorial (S (n - S k)))
            with (Z.of_nat (S (n - S k)) * factorial (n - S k)).
          ring. }
        rewrite H2. change (factorial (S n)) with (Z.of_nat (S n) * factorial n).
        replace (Z.of_nat (S n)) with (Z.of_nat (S k) + Z.of_nat (n - k)) by lia. ring.
Qed.

(** *** Doubles that hold an integer exactly *)

Lemma roundToDouble_exact (z : Z) : Z.abs z <= maxExact -> roundToDouble z = Finite z.
Proof.
  intros Hz. unfold roundToDouble. cbn zeta.
  replace (Z.abs z <=? maxExact) with true by (symmetry; apply Z.leb_le; exact Hz).
  reflexivity.
Qed.

Lemma addDouble_exact (a b : Z) :
  Z.abs (a + b) <= maxExact -> addDouble (Finite a) (Finite b) = Finite (a + b).
Proof. apply roundToDouble_exact. Qed.

Lemma mulDouble_exact (a b : Z) :
  Z.abs (a * b) <= maxExact -> mulDouble (Finite a) (Finite b) = Finite (a * b).
Proof. apply roundToDouble_exact. Qed.

(** *** Binomial coefficients grow along the rows *)

Lemma binom_nonneg (n k : nat) : 0 <= binom n k.
Proof.
  revert k. induction n as [|n IH]; intros [|k]; cbn [binom]; try lia.
  pose proof (IH k). pose proof (IH (S k)). lia.
Qed.

Lemma binom_pos (n k : nat) : (k <= n)%nat -> 1 <= binom n k.
Proof.
  revert k. induction n as [|n IH]; intros [|k] Hk; cbn [binom]; try lia.
  pose proof (IH k ltac:(lia)). pose proof (binom_nonneg n (S k)). lia.
Qed.

Lemma binom_step_l (n k : nat) : binom n k <= binom (S n) (S k).
Proof. cbn [binom]. pose proof (binom_nonneg n (S k)). lia. Qed.

Lemma binom_step_r (n k : nat) : binom n (S k) <= binom (S n) (S k).
Proof. cbn [binom]. pose proof (binom_nonneg n k). lia. Qed.

(** *** The computed rows *)

Lemma length_rowAfter (s : nat) (prev : list JSNumber) : length (rowAfter s prev) = S (S s).
Proof. unfold rowAfter. rewrite !length_app, length_map, length_seq. simpl. lia. Qed.

Lemma length_computedRow (n : nat) : length (computedRow n) = S n.
Proof. destruct n; [reflexivity|apply length_rowAfter]. Qed.

Lemma rowAfter_first (s : nat) (prev : list JSNumber) : rowAfter s prev !! 0%nat = Some (Finite 1).
Proof. reflexivity. Qed.

Lemma rowAfter_last (s : nat) (prev : list JSNumber) :
  rowAfter s prev !! S s = Some (Finite 1).
Proof.
  unfold rowAfter. change (([Finite 1] ++ ?l) !! S s) with (l !! s).
  rewrite lookup_app_r by (rewrite length_map, length_seq; lia).
  rewrite length_map, length_seq, Nat.sub_diag. reflexivity.
Qed.

Lemma rowAfter_inner (s : nat) (prev : list JSNumber) (k : nat) :
  (k < s)%nat ->
  rowAfter s prev !! S k = Some (addDouble (entry prev k) (entry prev (S k))).
Proof.
  intros Hk. unfold rowAfter. change (([Finite 1] ++ ?l) !! S k) with (l !! k).
  rewrite lookup_app_l by (rewrite length_map, length_seq; lia).
  change (map ?f ?l) with (f <$> l).
  rewrite list_lookup_fmap, lookup_seq_lt by lia. cbn [fmap option_fmap option_map].
  replace (1 + k - 1)%nat with k by lia. reflexivity.
Qed.

(** An entry of a computed row is the binomial coefficient as long as this
    coefficient is at most [2^53]: the entries it is the sum of are smaller,
    hence exact too. *)
Lemma computedRow_exact (n k : nat) :
  (k <= n)%nat -> binom n k <= maxExact ->
  computedRow n !! k = Some (Finite (binom n k)).
Proof.
  revert k. induction n as [|n IH]; intros k Hk Hbound.
  - replace k with 0%nat by lia. reflexivity.
  - cbn [computedRow]. destruct k as [|k]; [reflexivity|].
    destruct (Nat.eq_dec k n) as [->|Hne].
    + rewrite rowAfter_last, binom_diag. reflexivity.
    + rewrite rowAfter_inner by lia.
      pose proof (binom_step_l n k) as Hl. pose proof (binom_step_r n k) as Hr.
      unfold entry. rewrite (IH k), (IH (S k)) by lia.
      change (default NaN (Some ?x)) with x. rewrite addDouble_exact; [reflexivity|].
      pose proof (binom_nonneg n k). pose proof (binom_nonneg n (S k)).
      cbn [binom] in Hbound. lia.
Qed.

Lemma computedTable_binomials : computedTable binomials.
Proof. split; [discriminate|reflexivity]. Qed.

Lemma computedTable_lookup (t : Table) (r : nat) :
  computedTable t -> (r < length t)%nat -> t !! r = Some (computedRow r).
Proof.
  intros [_ Ht] Hr. transitivity ((computedRow <$> seq 0 (length t)) !! r).
  - f_equal. exact Ht.
  - rewrite list_lookup_fmap, lookup_seq_lt by exact Hr. reflexivity.
Qed.

Lemma nextRow_computed (t : Table) : computedTable t -> nextRow t = computedRow (length t).
Proof.
  intros Ht. pose proof Ht as [Hne _].
  destruct (length t) as [|s] eqn:Hlen; [destruct t; [congruence|discriminate]|].
  unfold nextRow. rewrite last_lookup, Hlen. cbn [pred].
  rewrite (computedTable_lookup t s Ht) by lia. reflexivity.
Qed.

Lemma computedTable_push (t : Table) : computedTable t -> computedTable (t ++ [nextRow t]).
Proof.
  intros Ht. split; [destruct t; discriminate|].
  rewrite length_app. cbn [length]. rewrite Nat.add_1_r, seq_S, map_app. cbn [map].
  rewrite nextRow_computed by exact Ht. destruct Ht as [_ Ht]. rewrite <- Ht. reflexivity.
Qed.

Lemma growTable_computed (iterations : nat) (n : Z) (t : Table) :
  computedTable t -> computedTable (growTable iterations n t).
Proof.
  revert t. induction iterations as [|k IH]; intros t Ht; simpl; [exact Ht|].
  destruct (n >=? Z.of_nat (length t)); [|exact Ht].
  apply IH, computedTable_push, Ht.
Qed.

Lemma growTable_length (iterations : nat) (n : Z) (t : Table) :
  (Z.to_nat (n + 1 - Z.of_nat (length t)) <= iterations)%nat ->
  n < Z.of_nat (length (growTable iterations n t)).
Proof.
  revert t. induction iterations as [|k IH]; intros t Hk; simpl; [lia|].
  destruct (n >=? Z.of_nat (length t)) eqn:E; [|lia].
  apply IH. rewrite length_app. simpl. lia.
Qed.

Lemma growTable_rows (iterations : nat) (n : Z) (t : Table) :
  0 <= n -> iterations = Z.to_nat (n + 1 - Z.of_nat (length t)) ->
  length (growTable iterations n t) = Nat.max (length t) (Z.to_nat n + 1).
Proof.
  intros Hn. revert t. induction iterations as [|k IH]; intros t Hk; simpl.
  - lia.
  - destruct (n >=? Z.of_nat (length t)) eqn:E; [|lia].
    rewrite IH by (rewrite length_app; simpl; lia).
    rewrite length_app. simpl. lia.
Qed.

(** *** [choose] *)

(** Whenever [choose(n, k)] returns, [n] is not negative, the table is a
    table of computed rows that reaches the row [n], and the result is the
    entry [k] of that row. *)
Lemma choose_returns (n k : Z) (t : Table) (c : JSNumber) (t' : Table) :
  computedTable t -> choose n k t = Some (c, t') ->
  0 <= n /\ computedTable t' /\
  length t' = Nat.max (length t) (Z.to_nat n + 1) /\
  c = default NaN (index (computedRow (Z.to_nat n)) k).
Proof.
  intros Ht. unfold choose. cbn zeta.
  set (t1 := growTable _ n t).
  assert (Ht1 : computedTable t1) by (apply growTable_computed, Ht).
  destruct (Z.ltb_spec n 0) as [Hneg|Hn].
  - unfold index at 1. replace (n <? 0) with true by (symmetry; apply Z.ltb_lt; lia).
    discriminate.
  - assert (Hlen : n < Z.of_nat (length t1)) by (apply growTable_length; lia).
    unfold index at 1. replace (n <? 0) with false by (symmetry; apply Z.ltb_ge; lia).
    rewrite (computedTable_lookup t1 (Z.to_nat n) Ht1) by lia.
    intros [= <- <-]. split; [exact Hn|]. split; [exact Ht1|]. split; [|reflexivity].
    apply growTable_rows; [exact Hn|reflexivity].
Qed.

(** [choose(n, k)] returns for every [n >= 0], whatever the table holds. *)
Lemma choose_total (n k : Z) (t : Table) :
  0 <= n -> exists c t', choose n k t = Some (c, t').
Proof.
  intros Hn. unfold choose. cbn zeta. set (t1 := growTable _ n t).
  assert (Hlen : n < Z.of_nat (length t1)) by (apply growTable_length; lia).
  unfold index at 1. replace (n <? 0) with false by (symmetry; apply Z.ltb_ge; lia).
  destruct (lookup_lt_is_Some_2 t1 (Z.to_nat n) ltac:(lia)) as [row ->]. eauto.
Qed.

(** [choose(n, k)] throws for a negative [n]. *)
Lemma choose_negative (n k : Z) (t : Table) : n < 0 -> choose n k t = None.
Proof.
  intros Hn. unfold choose. cbn zeta. unfold index at 1.
  replace (n <? 0) with true by (symmetry; apply Z.ltb_lt; lia). reflexivity.
Qed.

(** [choose(n, k)] returns the binomial coefficient as long as it is at most
    [2^53], and leaves a table of computed rows behind. *)
Lemma choose_binom (n k : Z) (t : Table) :
  computedTable t -> 0 <= k <= n -> binom (Z.to_nat n) (Z.to_nat k) <= maxExact ->
  exists t', choose n k t = Some (Finite (binom (Z.to_nat n) (Z.to_nat k)), t')
             /\ computedTable t'
             /\ length t' = Nat.max (length t) (Z.to_nat n + 1).
Proof.
  intros Ht Hk Hbound.
  destruct (choose_total n k t ltac:(lia)) as (c & t' & Hrun).
  destruct (choose_returns n k t c t' Ht Hrun) as (_ & Ht' & Hlen & Hc).
  exists t'. split; [|split; assumption]. rewrite Hrun. do 2 f_equal. rewrite Hc.
  unfold index. replace (k <? 0) with false by (symmetry; apply Z.ltb_ge; lia).
  rewrite computedRow_exact by (first [lia | exact Hbound]). reflexivity.
Qed.

Lemma sumZ_nonneg (k : list Z) : Forall (fun v => 0 <= v) k -> 0 <= sumZ k.
Proof. induction 1; simpl; lia. Qed.

Lemma multinomial_pos (k : list Z) : Forall (fun v => 0 <= v) k -> 1 <= multinomial k.
Proof.
  induction 1 as [|ki k Hki Hk IH]; cbn [multinomial]; [lia|].
  pose proof (sumZ_nonneg k Hk).
  pose proof (binom_pos (Z.to_nat (ki + sumZ k)) (Z.to_nat ki) ltac:(lia)). nia.
Qed.

(** *** [multinomialCoefficient] *)

(** Whenever the loop returns, it leaves a table of computed rows, which it
    has extended to the row [n] unless the tuple is empty. *)
Lemma multinomialLoop_frame (k : list Z) (n : Z) (prod : JSNumber) (t : Table)
    (c : JSNumber) (t' : Table) :
  computedTable t -> multinomialLoop k n prod t = Some (c, t') ->
  computedTable t' /\ (length t <= length t')%nat /\
  (k <> [] -> 0 <= n < Z.of_nat (length t')).
Proof.
  revert n prod t. induction k as [|ki k IH]; intros n prod t Ht Hrun.
  - injection Hrun as <- <-. split; [exact Ht|]. split; [lia|congruence].
  - cbn [multinomialLoop] in Hrun. unfold mbind, M_bind in Hrun.
    destruct (choose n ki t) as [[c1 t1]|] eqn:Hchoose; [|discriminate].
    destruct (choose_returns n ki t c1 t1 Ht Hchoose) as (Hn & Ht1 & Hlen1 & _).
    destruct (IH _ _ _ Ht1 Hrun) as (Ht' & Hlen & _).
    split; [exact Ht'|]. split; [lia|]. intros _. lia.
Qed.

Lemma multinomialLoop_spec (k : list Z) (c : Z) (t : Table) :
  computedTable t -> Forall (fun v => 0 <= v) k ->
  1 <= c -> c * multinomial k <= maxExact ->
  exists t', multinomialLoop k (sumZ k) (Finite c) t
             = Some (Finite (c * multinomial k), t').
Proof.
  revert c t. induction k as [|ki k IH]; intros c t Ht Hk Hc Hbound.
  - exists t. simpl. unfold mret, M_ret. repeat f_equal. lia.
  - apply Forall_cons in Hk as [Hki Hk]. pose proof (sumZ_nonneg k Hk) as Hsum.
    pose proof (multinomial_pos k Hk) as Hm.
    cbn [multinomialLoop sumZ fold_right]. fold (sumZ k).
    cbn [multinomial] in Hbound.
    set (b := binom (Z.to_nat (ki + sumZ k)) (Z.to_nat ki)) in *.
    assert (Hb : 1 <= b) by (apply binom_pos; lia).
    assert (H1 : b <= b * multinomial k) by nia.
    assert (H2 : b * multinomial k <= c * (b * multinomial k)) by nia.
    assert (H3 : c * b <= c * (b * multinomial k)) by nia.
    assert (H4 : 1 <= c * b) by nia.
    destruct (choose_binom (ki + sumZ k) ki t Ht ltac:(lia)) as (t1 & Hchoose & Ht1 & _).
    { fold b. lia. }
    unfold mbind, M_bind. rewrite Hchoose.
    replace (ki + sumZ k - ki) with (sumZ k) by lia.
    rewrite mulDouble_exact by (fold b; lia). fold b.
    destruct (IH (c * b) t1 Ht1 Hk H4 ltac:(rewrite <- Z.mul_assoc; exact Hbound))
      as (t2 & Hloop).
    exists t2. rewrite Hloop. cbn [multinomial]. fold b.
    rewrite Z.mul_assoc. reflexivity.
Qed.

(** [multinomialCoefficient] returns the multinomial coefficient as long as
    it is at most [2^53]. *)
Lemma multinomialCoefficient_spec (k : list Z) (t : Table) :
  computedTable t -> Forall (fun v => 0 <= v) k -> multinomial k <= maxExact ->
  exists t', multinomialCoefficient k t = Some (Finite (multinomial k), t')
             /\ computedTable t' /\ (length t <= length t')%nat.
Proof.
  intros Ht Hk Hbound. unfold multinomialCoefficient. rewrite fold_left_sumZ, Z.add_0_l.
  destruct (multinomialLoop_spec k 1 t Ht Hk ltac:(lia) ltac:(lia)) as (t' & H).
  destruct (multinomialLoop_frame _ _ _ _ _ _ Ht H) as (Ht' & Hlen & _).
  exists t'. split; [|split; assumption]. rewrite H. repeat f_equal. lia.
Qed.

End TableFacts.

(** ** [expandPower] *)

Section ExpandPowerFacts.

Import Accessors Expand.

Context {ce : IComputeEngine} {imports : Imports}.

(** A loop whose body keeps the table invariant keeps it as a whole. *)
Lemma mapM__invariant {A B : Type} (f : A -> M B) (Q : A -> B -> Prop) (xs : list A)
    (t : Table) :
  (forall x t, In x xs -> computedTable t ->
     exists y t', f x t = Some (y, t') /\ computedTable t' /\ Q x y) ->
  computedTable t ->
  exists ys t', mapM_ f xs t = Some (ys, t') /\ computedTable t' /\ Forall2 Q xs ys.
Proof.
  revert t. induction xs as [|x xs IH]; intros t Hf Ht.
  - exists [], t. split; [reflexivity|]. split; [exact Ht|constructor].
  - destruct (Hf x t ltac:(left; reflexivity) Ht) as (y & t1 & Hx & Ht1 & Hq).
    destruct (IH t1 ltac:(intros z s Hz; apply Hf; right; exact Hz) Ht1)
      as (ys & t2 & Hxs & Ht2 & Hqs).
    exists (y :: ys), t2. cbn [mapM_]. unfold mbind, M_bind. rewrite Hx, Hxs.
    split; [reflexivity|]. split; [exact Ht2|constructor; assumption].
Qed.

(** Whenever it returns, the computation of a term leaves a table of
    computed rows that reaches the row of the exponent. *)
Lemma term_frame (terms : list BoxedExpression) (val : list Z) (t : Table)
    (y : BoxedExpression) (t' : Table) :
  computedTable t -> term terms val t = Some (y, t') ->
  computedTable t' /\ (length t <= length t')%nat /\
  (val <> [] -> 0 <= sumZ val < Z.of_nat (length t')).
Proof.
  intros Ht. unfold term, mbind, M_bind, multinomialCoefficient.
  rewrite fold_left_sumZ, Z.add_0_l.
  destruct (multinomialLoop val (sumZ val) (Finite 1) t) as [[c t1]|] eqn:Hloop;
    [|discriminate].
  intros [= <- <-]. exact (multinomialLoop_frame _ _ _ _ _ _ Ht Hloop).
Qed.

(** The term has the multinomial coefficient as long as this coefficient is
    at most [2^53]. *)
Lemma term_spec (terms : list BoxedExpression) (val : list Z) (t : Table) :
  computedTable t -> Forall (fun v => 0 <= v) val -> multinomial val <= maxExact ->
  exists t', term terms val t = Some (termOf terms val, t') /\ computedTable t'.
Proof.
  intros Ht Hval Hbound. unfold term, mbind, M_bind.
  destruct (multinomialCoefficient_spec val t Ht Hval Hbound) as (t' & -> & Ht' & _).
  exists t'. split; [reflexivity|exact Ht'].
Qed.

Lemma isHead_eq (expr : BoxedExpression) (name : string) :
  isHead expr name = true <-> head expr = name.
Proof. apply String.eqb_eq. Qed.

(** On a sum, and for an exponent of at least 2 all of whose multinomial
    coefficients are at most [2^53], [expandPower] returns the sum of the
    multinomial terms in the order of [powers]. *)
Lemma expandPower_Add (fuel : nat) (base : BoxedExpression) (exp : Z) (t : Table) :
  2 <= exp -> isHead base "Add" = true -> ops_ base <> [] ->
  (length (ops_ base) <= fuel)%nat -> computedTable t ->
  (forall val, In val (compositions (length (ops_ base)) exp) ->
               multinomial val <= maxExact) ->
  exists t',
    expandPower (S fuel) base exp t
    = Some (Some (add (map (termOf (ops_ base))
                           (compositions (length (ops_ base)) exp))), t')
    /\ computedTable t'.
Proof.
  intros Hexp Hadd Hne Hfuel Ht Hbound. cbn [expandPower].
  replace (exp <? 0) with false by (symmetry; apply Z.ltb_ge; lia).
  replace (exp =? 0) with false by (symmetry; apply Z.eqb_neq; lia).
  replace (exp =? 1) with false by (symmetry; apply Z.eqb_neq; lia).
  rewrite Hadd. apply isHead_eq in Hadd.
  assert (Hneg : isHead base "Negate" = false) by (unfold isHead; rewrite Hadd; reflexivity).
  rewrite Hneg. cbn [negb].
  assert (Hlen : (1 <= length (ops_ base))%nat)
    by (destruct (ops_ base); [congruence|simpl; lia]).
  unfold mbind at 1, M_bind at 1, lift.
  rewrite powers_compositions by assumption.
  destruct (mapM__invariant (term (ops_ base)) (fun val y => y = termOf (ops_ base) val)
              (compositions (length (ops_ base)) exp) t) as (ys & t' & Hrun & Ht' & Hys).
  - intros val s Hval Hs. pose proof (Hbound val Hval) as Hb.
    apply in_compositions in Hval as (_ & Hpos & _); [|lia|lia].
    destruct (term_spec (ops_ base) val s Hs Hpos Hb) as (s' & Hterm & Hs').
    exists (termOf (ops_ base) val), s'. split; [exact Hterm|]. split; [exact Hs'|reflexivity].
  - exact Ht.
  - exists t'. split; [|exact Ht']. unfold mbind, M_bind. rewrite Hrun.
    unfold mret, M_ret. do 4 f_equal.
    clear -Hys. induction Hys as [|val y vals ys -> _ IH]; simpl; [reflexivity|].
    rewrite IH. reflexivity.
Qed.

(** *** The value of the expansion *)

Section Denotation.

(** A valuation of boxed expressions in [Z] under which the engine's
    constructors mean what their names say. *)
Variable denote : BoxedExpression -> Z.
Hypothesis denote_number : forall z, denote (number (Finite z)) = z.
Hypothesis denote_add : forall xs, denote (add xs) = sumZ (map denote xs).
Hypothesis denote_mul : forall xs, denote (mul xs) = prodZ (map denote xs).
Hypothesis denote_pow : forall x n, 0 <= n -> denote (pow x n) = denote x ^ n.

Lemma factors_denote (terms : list BoxedExpression) (val : list Z) (i : nat) :
  Forall (fun v => 0 <= v) val -> (i + length val <= length terms)%nat ->
  prodZ (map denote (factors terms val i)) = monomial (map denote (drop i terms)) val.
Proof using denote_pow.
  revert i. induction val as [|v val IH]; intros i Hval Hlen.
  - simpl. destruct (map denote (drop i terms)); reflexivity.
  - apply Forall_cons in Hval as [Hv Hval]. cbn [length] in Hlen.
    destruct (terms !! i) as [x|] eqn:Hx; [|apply lookup_ge_None in Hx; lia].
    rewrite (drop_S _ _ _ Hx). cbn [factors map monomial].
    rewrite map_app, prodZ_app, IH by (first [assumption | lia]).
    f_equal. rewrite Hx. change (default Nothing (Some x)) with x.
    destruct (v =? 0) eqn:E0; [apply Z.eqb_eq in E0; subst v; reflexivity|].
    destruct (v =? 1) eqn:E1.
    + apply Z.eqb_eq in E1. subst v. cbn [map prodZ fold_right]. rewrite Z.pow_1_r. lia.
    + cbn [map prodZ fold_right]. rewrite denote_pow by exact Hv. lia.
Qed.

Lemma termOf_denote (terms : list BoxedExpression) (val : list Z) :
  Forall (fun v => 0 <= v) val -> length val = length terms ->
  denote (termOf terms val) = multinomial val * monomial (map denote terms) val.
Proof using denote_number denote_mul denote_pow.
  intros Hval Hlen. unfold termOf. rewrite denote_mul. cbn [map prodZ fold_right].
  fold (prodZ (map denote (factors terms val 0))).
  rewrite denote_number, factors_denote by (first [assumption | lia]).
  rewrite drop_0. reflexivity.
Qed.

(** The multinomial theorem for [expandPower]: the expansion of a sum
    raised to [exp] has the value of the sum, raised to [exp]. *)
Lemma expandPower_Add_denote (fuel : nat) (base : BoxedExpression) (exp : Z) (t : Table) :
  2 <= exp -> isHead base "Add" = true -> ops_ base <> [] ->
  (length (ops_ base) <= fuel)%nat -> computedTable t ->
  (forall val, In val (compositions (length (ops_ base)) exp) ->
               multinomial val <= maxExact) ->
  exists result t',
    expandPower (S fuel) base exp t = Some (Some result, t')
    /\ computedTable t'
    /\ denote result = sumZ (map denote (ops_ base)) ^ exp.
Proof using denote_number denote_add denote_mul denote_pow.
  intros Hexp Hadd Hne Hfuel Ht Hbound.
  destruct (expandPower_Add fuel base exp t Hexp Hadd Hne Hfuel Ht Hbound)
    as (t' & Hrun & Ht').
  eexists _, t'. split; [exact Hrun|]. split; [exact Ht'|].
  rewrite denote_add, map_map.
  assert (Hlen : (1 <= length (ops_ base))%nat)
    by (destruct (ops_ base); [congruence|simpl; lia]).
  rewrite <- multinomial_theorem
    by (first [lia | destruct (ops_ base); [congruence|discriminate]]).
  rewrite length_map. apply sumZ_map_ext. intros val Hval.
  apply in_compositions in Hval as (Hl & Hpos & _); [|lia|lia].
  apply termOf_denote; assumption.
Qed.

End Denotation.

End ExpandPowerFacts.

(** *** The plain engine and the integer evaluator *)

Section PlainEngine.

Import Accessors Expand.

Lemma asInteger_integer (z : Z) : asInteger (Q2Qc (inject_Z z)) = Some z.
Proof.
  unfold asInteger, Q2Qc, inject_Z. cbn [this].
  rewrite Qred_identity by (cbn [Qnum Qden]; apply Z.gcd_1_r). reflexivity.
Qed.

Lemma evalZ_number rho z : evalZ rho (number (IComputeEngine := plainEngine) (Finite z)) = z.
Proof. cbn [number plainEngine integer evalZ]. rewrite asInteger_integer. reflexivity. Qed.

Lemma evalZ_add rho xs :
  evalZ rho (add (IComputeEngine := plainEngine) xs) = sumZ (map (evalZ rho) xs).
Proof. reflexivity. Qed.

Lemma evalZ_mul rho xs :
  evalZ rho (mul (IComputeEngine := plainEngine) xs) = prodZ (map (evalZ rho) xs).
Proof. reflexivity. Qed.

Lemma evalZ_pow rho x n :
  0 <= n -> evalZ rho (pow (IComputeEngine := plainEngine) x n) = evalZ rho x ^ n.
Proof.
  intros _. cbn [pow plainEngine]. cbn [evalZ String.eqb Ascii.eqb Bool.eqb map nth].
  cbn [lookup list_lookup]. unfold integer at 1. rewrite asInteger_integer. reflexivity.
Qed.

End PlainEngine.

Section ExpandPowerSpec.

Import Accessors Expand Counting.

(** Evaluate the integer literals of a concrete expression. *)
Ltac eval_literals :=
  repeat match goal with
         | |- context [default 0 (asInteger ?q)] =>
             let v := eval vm_compute in (default 0 (asInteger q)) in
             change (default 0 (asInteger q)) with v
         end.

Lemma sign_parity (exp : Z) (A : Type) (x y : A) :
  0 <= exp ->
  (if (if Z.rem exp 2 =? 0 then 1 else -1) >? 0 then x else y)
  = (if Z.odd exp then y else x).
Proof.
  intros Hexp. rewrite Z.rem_mod_nonneg, Zmod_odd by lia.
  destruct (Z.odd exp); reflexivity.
Qed.

(** The cases of [expandPower(base, exp)]:
    - for a negative exponent it returns the inverse of
      [expandPower(base, -exp)], and [null] when that is [null];
    - it returns [One] for the exponent 0 and [expand(base)] for the
      exponent 1;
    - for a [Negate] base (and an exponent of at least 2) it expands the
      operand and negates the result exactly when the exponent is odd;
    - it returns [null] when the base is neither a [Negate] nor an [Add]
      node;
    - for an [Add] base it returns the multinomial expansion as long as all
      the multinomial coefficients of the exponent are at most [2^53]: under
      every valuation that reads the engine's [number], [add], [mul] and
      [pow] as the numeric operations, the value of the result is the value
      of the sum raised to [exp];
    - and [expand((a+b)^2)], [expand((a+b)^3)] and [expand((a+b+c)^2)], run
      with constructors that do not simplify, have the values
      [a^2 + 2ab + b^2], [a^3 + 3a^2b + 3ab^2 + b^3] and
      [a^2 + b^2 + c^2 + 2ab + 2ac + 2bc]. *)
Lemma expandPower_cases {ce : IComputeEngine} {imports : Imports}
    (denote : BoxedExpression -> Z)
    (denote_number : forall z, denote (number (Finite z)) = z)
    (denote_add : forall xs, denote (add xs) = sumZ (map denote xs))
    (denote_mul : forall xs, denote (mul xs) = prodZ (map denote xs))
    (denote_pow : forall x n, 0 <= n -> denote (pow x n) = denote x ^ n)
    (fuel : nat) (base : BoxedExpression) (exp : Z) (t : Table) :
  computedTable t ->
  (exp < 0 ->
     expandPower (S fuel) base exp t
     = (expr ← expandPower fuel base (- exp); mret (inv <$> expr)) t) /\
  (exp = 0 -> expandPower (S fuel) base exp t = Some (Some One, t)) /\
  (exp = 1 -> expandPower (S fuel) base exp t = expand fuel (Some base) t) /\
  (2 <= exp -> isHead base "Negate" = true ->
     expandPower (S fuel) base exp t
     = (result ← expandPower fuel (op1 base) exp;
        mret ((fun r => if Z.odd exp then neg r else r) <$> result)) t) /\
  (2 <= exp -> isHead base "Negate" = false -> isHead base "Add" = false ->
     expandPower (S fuel) base exp t = Some (None, t)) /\
  (2 <= exp -> isHead base "Add" = true -> ops_ base <> [] ->
   (length (ops_ base) <= fuel)%nat ->
   (forall val, In val (compositions (length (ops_ base)) exp) ->
                multinomial val <= maxExact) ->
     exists result t',
       expandPower (S fuel) base exp t = Some (Some result, t')
       /\ computedTable t'
       /\ result = add (map (termOf (ops_ base)) (compositions (length (ops_ base)) exp))
       /\ denote result = sumZ (map denote (ops_ base)) ^ exp) /\
  (forall rho,
     exists result,
       expand (ce := plainEngine) (imports := plainImports) 6
         (Some (power (BoxedFunction "Add" [sym_a; sym_b]) 2)) binomials
       = Some (Some result, binomials)
       /\ result = BoxedFunction "Add"
                     [ times_ [integer 1; power sym_b 2];
                       times_ [integer 2; sym_a; sym_b];
                       times_ [integer 1; power sym_a 2] ]
       /\ evalZ rho result
          = rho "a" ^ 2 + 2 * rho "a" * rho "b" + rho "b" ^ 2) /\
  (forall rho,
     exists result,
       expand (ce := plainEngine) (imports := plainImports) 6
         (Some (power (BoxedFunction "Add" [sym_a; sym_b]) 3)) binomials
       = Some (Some result, binomials)
       /\ result = BoxedFunction "Add"
                     [ times_ [integer 1; power sym_b 3];
                       times_ [integer 3; sym_a; power sym_b 2];
                       times_ [integer 3; power sym_a 2; sym_b];
                       times_ [integer 1; power sym_a 3] ]
       /\ evalZ rho result
          = rho "a" ^ 3 + 3 * rho "a" ^ 2 * rho "b" + 3 * rho "a" * rho "b" ^ 2
            + rho "b" ^ 3) /\
  (forall rho,
     exists result,
       expand (ce := plainEngine) (imports := plainImports) 6
         (Some (power (BoxedFunction "Add" [sym_a; sym_b; sym_c]) 2)) binomials
       = Some (Some result, binomials)
       /\ result = BoxedFunction "Add"
                     [ times_ [integer 1; power sym_c 2];
                       times_ [integer 2; sym_b; sym_c];
                       times_ [integer 1; power sym_b 2];
                       times_ [integer 2; sym_a; sym_c];
                       times_ [integer 2; sym_a; sym_b];
                       times_ [integer 1; power sym_a 2] ]
       /\ evalZ rho result
          = rho "a" ^ 2 + rho "b" ^ 2 + rho "c" ^ 2 + 2 * rho "a" * rho "b"
            + 2 * rho "a" * rho "c" + 2 * rho "b" * rho "c").
Proof.
  intros Ht. repeat apply conj.
  - intros Hexp. cbn [expandPower].
    replace (exp <? 0) with true by (symmetry; apply Z.ltb_lt; lia). reflexivity.
  - intros ->. reflexivity.
  - intros ->. reflexivity.
  - intros Hexp Hneg. cbn [expandPower].
    replace (exp <? 0) with false by (symmetry; apply Z.ltb_ge; lia).
    replace (exp =? 0) with false by (symmetry; apply Z.eqb_neq; lia).
    replace (exp =? 1) with false by (symmetry; apply Z.eqb_neq; lia).
    rewrite Hneg. unfold mbind, M_bind.
    destruct (expandPower fuel (op1 base) exp t) as [[[result|] t']|]; try reflexivity.
    cbn [fmap option_fmap option_map]. rewrite sign_parity by lia. reflexivity.
  - intros Hexp Hneg Hadd. cbn [expandPower].
    replace (exp <? 0) with false by (symmetry; apply Z.ltb_ge; lia).
    replace (exp =? 0) with false by (symmetry; apply Z.eqb_neq; lia).
    replace (exp =? 1) with false by (symmetry; apply Z.eqb_neq; lia).
    rewrite Hneg, Hadd. reflexivity.
  - intros Hexp Hadd Hne Hfuel Hbound.
    destruct (expandPower_Add fuel base exp t Hexp Hadd Hne Hfuel Ht Hbound)
      as (t' & Hrun & Ht').
    destruct (expandPower_Add_denote denote denote_number denote_add denote_mul denote_pow
                fuel base exp t Hexp Hadd Hne Hfuel Ht Hbound) as (r & t2 & Hrun2 & _ & Hval).
    rewrite Hrun in Hrun2. injection Hrun2 as <- <-.
    eexists _, t'. split; [exact Hrun|]. split; [exact Ht'|]. split; [reflexivity|exact Hval].
  - intros rho. eexists. split; [vm_compute; reflexivity|]. split; [reflexivity|].
    cbn [evalZ times_ power String.eqb Ascii.eqb Bool.eqb map nth sumZ prodZ fold_right
         lookup list_lookup sym_a sym_b sym_c].
    eval_literals. ring.
  - intros rho. eexists. split; [vm_compute; reflexivity|]. split; [reflexivity|].
    cbn [evalZ times_ power String.eqb Ascii.eqb Bool.eqb map nth sumZ prodZ fold_right
         lookup list_lookup sym_a sym_b sym_c].
    eval_literals. ring.
  - intros rho. eexists. split; [vm_compute; reflexivity|]. split; [reflexivity|].
    cbn [evalZ times_ power String.eqb Ascii.eqb Bool.eqb map nth sumZ prodZ fold_right
         lookup list_lookup sym_a sym_b sym_c].
    eval_literals. ring.
Qed.

Lemma expandPower_cases_example :
  exists result t',
    expandPower (ce := plainEngine) (imports := plainImports) 3
      (BoxedFunction "Add" [sym_a; sym_b]) 2 binomials = Some (Some result, t')
    /\ computedTable t'
    /\ result = add (IComputeEngine := plainEngine)
                  (map (termOf (ce := plainEngine) [sym_a; sym_b]) (compositions 2 2))
    /\ evalZ rho_34 result = 49.
Proof.
  pose proof (expandPower_cases (ce := plainEngine) (imports := plainImports)
                (evalZ rho_34) (evalZ_number rho_34) (evalZ_add rho_34)
                (evalZ_mul rho_34) (evalZ_pow rho_34)
                2 (BoxedFunction "Add" [sym_a; sym_b]) 2 binomials
                computedTable_binomials) as (_ & _ & _ & _ & _ & H & _).
  apply H; [lia | reflexivity | discriminate | simpl; lia |].
  intros val Hval. vm_compute in Hval.
  repeat (destruct Hval as [<-|Hval]; [vm_compute; discriminate|]). destruct Hval.
Qed.

(** The coefficient of [a^25 b^32] in [(a + b)^57]. *)
Lemma multinomial_25_32 : multinomial [25; 32] = 9929472283517787.
Proof.
  change (multinomial [25; 32]) with (binom 57 25 * (binom 32 32 * 1)).
  rewrite binom_diag.
  pose proof (binom_factorial 57 25 ltac:(lia)) as H.
  set (b := binom 57 25) in *. clearbody b.
  assert (H25 : factorial 25 = 15511210043330985984000000) by (vm_compute; reflexivity).
  assert (H32 : factorial (57 - 25) = 263130836933693530167218012160000000)
    by (vm_compute; reflexivity).
  assert (H57 : factorial 57
                = 40526919504877216755680601905432322134980384796226602145184481280000000000000)
    by (vm_compute; reflexivity).
  rewrite H25, H32, H57 in H. lia.
Qed.

(** C4, at the failing input: in [expand((a + b)^57)] the coefficient of
    [a^25 b^32] is 9929472283517788, the double nearest to the sum of the
    entries 24 and 25 of the row 56 of the table, where the multinomial
    coefficient is 9929472283517787; the result has 58 terms, and at
    [a = b = 1] its value is [2^57 + 2], not [(a + b)^57 = 2^57]. *)
Theorem expand_rounds_coefficients :
  exists result t',
    expand (ce := plainEngine) (imports := plainImports) 6
      (Some (power (BoxedFunction "Add" [sym_a; sym_b]) 57)) binomials
    = Some (Some result, t')
    /\ length (ops_ result) = 58%nat
    /\ ops_ result !! 25%nat
       = Some (times_ [integer 9929472283517788; power sym_a 25; power sym_b 32])
    /\ multinomial [25; 32] = 9929472283517787
    /\ evalZ rho_11 result = 2 ^ 57 + 2
    /\ evalZ rho_11 (power (BoxedFunction "Add" [sym_a; sym_b]) 57) = 2 ^ 57.
Proof.
  eexists _, _. split; [vm_compute; reflexivity|].
  split; [reflexivity|]. split; [reflexivity|]. split; [exact multinomial_25_32|].
  split; vm_compute; reflexivity.
Qed.

End ExpandPowerSpec.

(** ** [getImaginaryFactor] *)

Section ImaginaryFactorFacts.

Import Accessors Utils.

Lemma Cmul_comm (x y : C) : Cmul x y = Cmul y x.
Proof. destruct x, y. unfold Cmul. cbn [fst snd]. f_equal; ring. Qed.

Lemma Cmul_assoc (x y z : C) : Cmul x (Cmul y z) = Cmul (Cmul x y) z.
Proof. destruct x, y, z. unfold Cmul. cbn [fst snd]. f_equal; ring. Qed.

Lemma Cmul_1_l (x : C) : Cmul (Cre (Q2Qc 1)) x = x.
Proof. destruct x. unfold Cmul, Cre. cbn [fst snd]. f_equal; ring. Qed.

Lemma Cmul_1_r (x : C) : Cmul x (Cre (Q2Qc 1)) = x.
Proof. rewrite Cmul_comm. apply Cmul_1_l. Qed.

Lemma Cneg_mul_l (x y : C) : Cneg (Cmul x y) = Cmul (Cneg x) y.
Proof. destruct x, y. unfold Cmul, Cneg. cbn [fst snd]. f_equal; ring. Qed.

Lemma Cre_mul_i (q : Qc) : Cmul (Cre q) Ci = (Q2Qc 0, q).
Proof. unfold Cmul, Cre, Ci. cbn [fst snd]. f_equal; ring. Qed.

Lemma isZero_Some (q : Qc) : isZero (Some q) = true -> q = Q2Qc 0.
Proof. unfold isZero. destruct (Qc_eq_dec q (Q2Qc 0)); [trivial|discriminate]. Qed.

Lemma isSymbol_eq (expr : BoxedExpression) (name : string) :
  isSymbol expr name = true -> expr = BoxedSymbol name.
Proof.
  destruct expr; unfold isSymbol; cbn [symbol]; try discriminate.
  intros H. apply String.eqb_eq in H. congruence.
Qed.

Context {arith : Arithmetic}.

(** The definition read with the accessors of the source: the recursive
    calls are on [expr.op1]. *)
Lemma getImaginaryFactorBoxed_unfold (expr : BoxedExpression) :
  getImaginaryFactorBoxed expr =
  if isSymbol expr "ImaginaryUnit" then Some One
  else if isZero (re expr) then Some (numberOf (im expr))
  else if isOperator expr "Negate" then neg <$> getImaginaryFactorBoxed (op1 expr)
  else if isOperator expr "Complex" then
    if is0 (op1 expr) && negb (match re (op2 expr) with None => true | Some _ => false end)
    then Some (numberOf (re (op2 expr)))
    else None
  else
    match multiplyCase expr with
    | Some factor => Some factor
    | None =>
        if isOperator expr "Divide" then
          if is0 (op2 expr) then None
          else (fun factor => div factor (op2 expr)) <$> getImaginaryFactorBoxed (op1 expr)
        else None
    end.
Proof.
  destruct expr as [r i|s|s|h xs].
  - cbn. destruct (isZero (Some r)); reflexivity.
  - cbn. destruct (isSymbol (BoxedSymbol s) "ImaginaryUnit"); reflexivity.
  - reflexivity.
  - cbn [getImaginaryFactorBoxed isSymbol symbol re isZero isOperator head].
    destruct xs as [|x xs]; reflexivity.
Qed.

Section Soundness.

Variable rho : string -> C.
Hypothesis eval_One : evalC rho One = Cre (Q2Qc 1).
Hypothesis eval_number : forall q, evalC rho (number q) = Cre q.
Hypothesis eval_neg : forall x, evalC rho (neg x) = Cneg (evalC rho x).
Hypothesis eval_mul : forall x q, evalC rho (mul x q) = Cmul (evalC rho x) (Cre q).
Hypothesis eval_div : forall x d, evalC rho (div x d) = Cdiv (evalC rho x) (evalC rho d).

Lemma multiplyCase_sound (expr factor : BoxedExpression) :
  multiplyCase expr = Some factor ->
  evalC rho expr = Cmul (evalC rho factor) Ci.
Proof using eval_mul.
  unfold multiplyCase.
  destruct (isOperator expr "Multiply") eqn:Hop; [|discriminate].
  destruct (nops expr =? 2) eqn:Hn; [|discriminate]. cbn [andb].
  destruct expr as [| | |h xs]; try discriminate.
  apply String.eqb_eq in Hop. cbn [head] in Hop. subst h.
  apply Z.eqb_eq in Hn. change (nops (BoxedFunction "Multiply" xs))
    with (Z.of_nat (length xs)) in Hn.
  destruct xs as [|x [|y [|z xs]]]; cbn [length] in Hn; try lia.
  change (op1 (BoxedFunction "Multiply" [x; y])) with x.
  change (op2 (BoxedFunction "Multiply" [x; y])) with y.
  assert (Heval : evalC rho (BoxedFunction "Multiply" [x; y])
                  = Cmul (evalC rho x) (evalC rho y)).
  { cbn. rewrite Cmul_1_r. reflexivity. }
  rewrite Heval.
  destruct (isSymbol x "ImaginaryUnit") eqn:Hx.
  { intros [= <-]. apply isSymbol_eq in Hx. subst x. cbn. apply Cmul_comm. }
  destruct (isSymbol y "ImaginaryUnit") eqn:Hy.
  { intros [= <-]. apply isSymbol_eq in Hy. subst y. reflexivity. }
  destruct (isNumberLiteral y && isZero (re y) && negb (isZero (im y))) eqn:Hly.
  { intros [= <-]. destruct y as [r i| | |]; try discriminate.
    cbn [isNumberLiteral re im andb] in Hly.
    destruct (isZero (Some r)) eqn:Hr; [|discriminate]. apply isZero_Some in Hr. subst r.
    rewrite eval_mul, <- Cmul_assoc, Cre_mul_i. reflexivity. }
  destruct (isNumberLiteral x && isZero (re x) && negb (isZero (im x))) eqn:Hlx.
  { intros [= <-]. destruct x as [r i| | |]; try discriminate.
    cbn [isNumberLiteral re im andb] in Hlx.
    destruct (isZero (Some r)) eqn:Hr; [|discriminate]. apply isZero_Some in Hr. subst r.
    rewrite eval_mul, <- Cmul_assoc, Cre_mul_i. apply Cmul_comm. }
  discriminate.
Qed.

(** What [getImaginaryFactor] returns is the factor [k] of [expr = k * i]. *)
Lemma getImaginaryFactorBoxed_sound (expr : BoxedExpression) :
  realParts expr = true ->
  forall k, getImaginaryFactorBoxed expr = Some k ->
  evalC rho expr = Cmul (evalC rho k) Ci.
Proof using eval_One eval_number eval_neg eval_mul eval_div.
  induction expr as [r i|s|s|h xs IH] using BoxedExpression_ind'; intros Hreal k.
  - cbn [getImaginaryFactorBoxed isSymbol symbol re im].
    destruct (isZero (Some r)) eqn:Hr; [|discriminate].
    apply isZero_Some in Hr. subst r. intros [= <-].
    cbn [numberOf]. rewrite eval_number, Cre_mul_i. reflexivity.
  - cbn [getImaginaryFactorBoxed isSymbol symbol re im isZero evalC].
    destruct (String.eqb s "ImaginaryUnit"); [|discriminate].
    intros [= <-]. rewrite eval_One, Cmul_1_l. reflexivity.
  - discriminate.
  - cbn [getImaginaryFactorBoxed isSymbol symbol re isZero].
    cbn [realParts] in Hreal.
    destruct (String.eqb h "Negate") eqn:Hneg.
    { apply String.eqb_eq in Hneg. subst h. cbn [String.eqb Ascii.eqb Bool.eqb] in Hreal.
      destruct xs as [|x xs]; [discriminate|].
      destruct (getImaginaryFactorBoxed x) as [kx|] eqn:Hx; [|discriminate].
      intros [= <-]. rewrite eval_neg.
      change (evalC rho (BoxedFunction "Negate" (x :: xs))) with (Cneg (evalC rho x)).
      rewrite (Forall_inv IH Hreal kx Hx). apply Cneg_mul_l. }
    destruct (String.eqb h "Complex") eqn:Hcomplex.
    { apply String.eqb_eq in Hcomplex. subst h.
      destruct (is0 (op1 (BoxedFunction "Complex" xs)) && _) eqn:Hc; [|discriminate].
      intros [= <-]. apply andb_true_iff in Hc as [Hz Hre].
      destruct xs as [|x [|y xs]]; try discriminate.
      change (op1 (BoxedFunction "Complex" (x :: y :: xs))) with x in *.
      change (op2 (BoxedFunction "Complex" (x :: y :: xs))) with y in *.
      destruct y as [r i| | |]; try discriminate.
      cbn [re im] in *. apply isZero_Some in Hreal. subst i.
      destruct x as [r0 i0| | |]; try discriminate.
      unfold is0 in Hz. cbn [isNumberLiteral re im andb] in Hz.
      apply andb_true_iff in Hz as [Hr0 Hi0].
      apply isZero_Some in Hr0, Hi0. subst r0 i0.
      cbn [numberOf]. rewrite eval_number, Cre_mul_i.
      cbn. unfold Cadd, Cmul, Ci. cbn [fst snd]. f_equal; ring. }
    destruct (multiplyCase (BoxedFunction h xs)) as [factor|] eqn:Hmul.
    { intros [= <-]. apply multiplyCase_sound, Hmul. }
    destruct (String.eqb h "Divide") eqn:Hdiv; [|discriminate].
    apply String.eqb_eq in Hdiv. subst h. cbn [String.eqb Ascii.eqb Bool.eqb] in Hreal.
    destruct (is0 (op2 (BoxedFunction "Divide" xs))); [discriminate|].
    destruct xs as [|x xs]; [discriminate|].
    destruct (getImaginaryFactorBoxed x) as [kx|] eqn:Hx; [|discriminate].
    intros [= <-]. rewrite eval_div.
    assert (Heval : evalC rho (BoxedFunction "Divide" (x :: xs))
                    = Cdiv (evalC rho x) (evalC rho (op2 (BoxedFunction "Divide" (x :: xs))))).
    { destruct xs as [|y xs]; reflexivity. }
    rewrite Heval, (Forall_inv IH Hreal kx Hx). unfold Cdiv.
    rewrite <- !Cmul_assoc. f_equal. apply Cmul_comm.
Qed.

End Soundness.

End ImaginaryFactorFacts.

Section ImaginaryFactorSpec.

Import Accessors Utils.

(** An expression is the application of the operator [name]. *)
Ltac function_node expr H :=
  destruct expr as [? ?|?|?|? ?]; try discriminate H;
  apply String.eqb_eq in H; cbn [head] in H; subst.

(** C8: [getImaginaryFactor] returns [undefined] for a JavaScript number;
    returns one for the imaginary unit, the imaginary part for a literal
    whose real part is zero, and the real part of the second operand for a
    [Complex] node whose first operand is zero; recurses through [Negate],
    negating the factor; for a [Multiply] with two operands returns the other operand
    when one is the imaginary unit, and the other operand scaled by the
    imaginary part when one is a pure-imaginary literal; for a [Divide]
    returns [undefined] when the denominator is zero and otherwise the
    factor of the numerator divided by the denominator; returns [undefined]
    for every other shape; and whatever it returns is the factor [k] with
    [expr = k * i], under every valuation that reads the constructors
    [One], [number], [neg], [mul] and [div] as the numeric operations. *)
Theorem getImaginaryFactor_spec {arith : Arithmetic} (rho : string -> C)
    (eval_One : evalC rho One = Cre (Q2Qc 1))
    (eval_number : forall q, evalC rho (number q) = Cre q)
    (eval_neg : forall x, evalC rho (neg x) = Cneg (evalC rho x))
    (eval_mul : forall x q, evalC rho (mul x q) = Cmul (evalC rho x) (Cre q))
    (eval_div : forall x d, evalC rho (div x d) = Cdiv (evalC rho x) (evalC rho d))
    (expr : BoxedExpression) :
  (forall x : Qc, getImaginaryFactor (inl x) = None) /\
  (isSymbol expr "ImaginaryUnit" = true ->
     getImaginaryFactor (inr expr) = Some One) /\
  (isSymbol expr "ImaginaryUnit" = false -> isZero (re expr) = true ->
     getImaginaryFactor (inr expr) = Some (numberOf (im expr))) /\
  (isOperator expr "Complex" = true ->
     getImaginaryFactor (inr expr) =
     if is0 (op1 expr) && negb (match re (op2 expr) with None => true | Some _ => false end)
     then Some (numberOf (re (op2 expr)))
     else None) /\
  (isOperator expr "Negate" = true ->
     getImaginaryFactor (inr expr) = neg <$> getImaginaryFactor (inr (op1 expr))) /\
  (isOperator expr "Multiply" = true -> nops expr = 2 ->
     getImaginaryFactor (inr expr) =
     if isSymbol (op1 expr) "ImaginaryUnit" then Some (op2 expr)
     else if isSymbol (op2 expr) "ImaginaryUnit" then Some (op1 expr)
     else if isNumberLiteral (op2 expr) && isZero (re (op2 expr))
             && negb (isZero (im (op2 expr)))
       then Some (mul (op1 expr) (default (Q2Qc 0) (im (op2 expr))))
     else if isNumberLiteral (op1 expr) && isZero (re (op1 expr))
             && negb (isZero (im (op1 expr)))
       then Some (mul (op2 expr) (default (Q2Qc 0) (im (op1 expr))))
     else None) /\
  (isOperator expr "Divide" = true ->
     getImaginaryFactor (inr expr) =
     if is0 (op2 expr) then None
     else (fun factor => div factor (op2 expr)) <$> getImaginaryFactor (inr (op1 expr))) /\
  (isSymbol expr "ImaginaryUnit" = false -> isZero (re expr) = false ->
   isOperator expr "Negate" = false -> isOperator expr "Complex" = false ->
   isOperator expr "Divide" = false ->
   (isOperator expr "Multiply" = false \/ nops expr <> 2) ->
     getImaginaryFactor (inr expr) = None) /\
  (realParts expr = true ->
   forall k, getImaginaryFactor (inr expr) = Some k ->
     evalC rho expr = Cmul (evalC rho k) Ci).
Proof.
  cbn [getImaginaryFactor]. repeat apply conj.
  - reflexivity.
  - intros H. rewrite getImaginaryFactorBoxed_unfold, H. reflexivity.
  - intros Hsym Hre. rewrite getImaginaryFactorBoxed_unfold, Hsym, Hre. reflexivity.
  - intros H. rewrite getImaginaryFactorBoxed_unfold. function_node expr H. reflexivity.
  - intros H. rewrite getImaginaryFactorBoxed_unfold. function_node expr H. reflexivity.
  - intros H Hn. rewrite getImaginaryFactorBoxed_unfold. function_node expr H.
    cbn [isSymbol symbol re isZero isOperator head String.eqb Ascii.eqb Bool.eqb].
    unfold multiplyCase. cbn [isOperator head String.eqb Ascii.eqb Bool.eqb andb].
    rewrite Hn. cbn [Z.eqb Pos.eqb].
    repeat match goal with |- context [if ?b then _ else _] => destruct b end; reflexivity.
  - intros H. rewrite getImaginaryFactorBoxed_unfold. function_node expr H. reflexivity.
  - intros Hsym Hre Hneg Hcomplex Hdiv Hmul.
    rewrite getImaginaryFactorBoxed_unfold, Hsym, Hre, Hneg, Hcomplex, Hdiv.
    unfold multiplyCase. destruct Hmul as [-> | Hn]; [reflexivity|].
    apply Z.eqb_neq in Hn. rewrite Hn, andb_false_r. reflexivity.
  - apply getImaginaryFactorBoxed_sound; assumption.
Qed.

Lemma plain_eval_mul (rho : string -> C) (x : BoxedExpression) (q : Qc) :
  evalC rho (mul (Arithmetic := plainArithmetic) x q) = Cmul (evalC rho x) (Cre q).
Proof. cbn. rewrite Cmul_1_r. reflexivity. Qed.

(** [['Negate', ['Multiply', 3, 'ImaginaryUnit']]] has the factor [-3]. *)
Lemma getImaginaryFactor_spec_witness :
  getImaginaryFactor (arith := plainArithmetic)
    (inr (BoxedFunction "Negate" [BoxedFunction "Multiply" [real 3; imaginaryUnit]]))
  = Some (BoxedFunction "Negate" [real 3])
  /\ evalC (fun _ => Cre (Q2Qc 0))
       (BoxedFunction "Negate" [BoxedFunction "Multiply" [real 3; imaginaryUnit]])
     = Cmul (evalC (fun _ => Cre (Q2Qc 0)) (BoxedFunction "Negate" [real 3])) Ci.
Proof.
  split; [reflexivity|].
  apply (getImaginaryFactor_spec (arith := plainArithmetic) (fun _ => Cre (Q2Qc 0))
           eq_refl (fun q => eq_refl) (fun x => eq_refl)
           (plain_eval_mul _) (fun x d => eq_refl)
           (BoxedFunction "Negate" [BoxedFunction "Multiply" [real 3; imaginaryUnit]]));
    reflexivity.
Defined.

End ImaginaryFactorSpec.

(** ** [checkArity] *)

Section CheckArityFacts.

Import Accessors Validate.

Context {CE : Type} {engine : Engine CE}.

Lemma whileMissing_spec (steps i count : nat) (xs : list BoxedExpression) :
  (count - i <= steps)%nat ->
  whileMissing steps i count xs = (Nat.max i count, xs ++ replicate (count - i) missing).
Proof.
  revert i xs. induction steps as [|steps IH]; intros i xs Hsteps; cbn [whileMissing].
  - replace (count - i)%nat with 0%nat by lia. rewrite app_nil_r. f_equal. lia.
  - destruct (i <? count)%nat eqn:E.
    + apply Nat.ltb_lt in E. rewrite IH by lia.
      replace (count - i)%nat with (S (count - S i)) by lia.
      cbn [replicate]. rewrite <- app_assoc. f_equal. lia.
    + apply Nat.ltb_ge in E. replace (count - i)%nat with 0%nat by lia.
      rewrite app_nil_r. f_equal. lia.
Qed.

Lemma whileUnexpected_spec (steps i : nat) (ops xs : list BoxedExpression) :
  (length ops - i <= steps)%nat ->
  whileUnexpected steps i ops xs
  = (Nat.max i (length ops), xs ++ map unexpected (drop i ops)).
Proof.
  revert i xs. induction steps as [|steps IH]; intros i xs Hsteps; cbn [whileUnexpected].
  - rewrite drop_ge by lia. rewrite app_nil_r. f_equal. lia.
  - destruct (ops !! i) as [op|] eqn:E.
    + pose proof (lookup_lt_Some _ _ _ E) as Hi. rewrite IH by lia.
      rewrite (drop_S _ _ _ E). cbn [map]. rewrite <- app_assoc. f_equal. lia.
    + apply lookup_ge_None in E. rewrite drop_ge by lia. rewrite app_nil_r. f_equal. lia.
Qed.

(** C6: in strict mode [checkArity] keeps an operand list of the expected
    length, pads a shorter list at its tail with [count - L] "missing"
    errors, and keeps the first [count] operands of a longer list, each of
    the [L - count] excess operands being replaced, at its position, by an
    "unexpected-argument" error; in non-strict mode the flattened operands
    pass through. [L] is the length of the operand list once flattened. *)
Theorem checkArity_spec (ce : CE) (ops : list BoxedExpression) (count : nat) :
  let flat := flatten ops None in
  (strict ce = false -> checkArity ce ops count = flat) /\
  (strict ce = true -> length flat = count -> checkArity ce ops count = flat) /\
  (strict ce = true -> (length flat < count)%nat ->
     checkArity ce ops count = flat ++ replicate (count - length flat) missing) /\
  (strict ce = true -> (count < length flat)%nat ->
     checkArity ce ops count = take count flat ++ map unexpected (drop count flat)
     /\ length (checkArity ce ops count) = length flat
     /\ (forall i op, (i < count)%nat -> flat !! i = Some op ->
           checkArity ce ops count !! i = Some op)
     /\ (forall i op, (count <= i)%nat -> flat !! i = Some op ->
           checkArity ce ops count !! i = Some (unexpected op))).
Proof.
  intros flat. unfold checkArity. fold flat. repeat apply conj.
  - intros ->. reflexivity.
  - intros -> Hlen. cbn [negb]. apply Nat.eqb_eq in Hlen. rewrite Hlen. reflexivity.
  - intros -> Hlen. cbn [negb].
    replace (length flat =? count)%nat with false by (symmetry; apply Nat.eqb_neq; lia).
    rewrite Nat.min_r by lia. rewrite whileMissing_spec by lia.
    rewrite whileUnexpected_spec by lia.
    rewrite take_ge by lia. rewrite drop_ge by lia. cbn [map]. rewrite app_nil_r. reflexivity.
  - intros -> Hlen. cbn [negb].
    replace (length flat =? count)%nat with false by (symmetry; apply Nat.eqb_neq; lia).
    rewrite Nat.min_l by lia. rewrite whileMissing_spec by lia.
    rewrite whileUnexpected_spec by lia.
    replace (count - count)%nat with 0%nat by lia. cbn [replicate].
    rewrite app_nil_r, Nat.max_id.
    split; [reflexivity|]. split; [|split].
    + rewrite length_app, length_map, length_take, length_drop. lia.
    + intros i op Hi Hop. rewrite lookup_app_l by (rewrite length_take; lia).
      rewrite lookup_take_lt by exact Hi. exact Hop.
    + intros i op Hi Hop. rewrite lookup_app_r by (rewrite length_take; lia).
      rewrite length_take, Nat.min_l by lia.
      change (map unexpected ?l) with (unexpected <$> l).
      rewrite list_lookup_fmap, lookup_drop.
      replace (count + (i - count))%nat with i by lia. rewrite Hop. reflexivity.
Qed.

End CheckArityFacts.

Lemma checkArity_spec_witness :
  Validate.checkArity (engine := Validate.smallEngine) strictEngine
    [symbol_x; number_7; symbol_y] 1
  = [symbol_x;
     Validate.error "unexpected-argument" (Some "number");
     Validate.error "unexpected-argument" (Some "y")]
  /\ Validate.checkArity (engine := Validate.smallEngine) strictEngine [symbol_x] 3
     = [symbol_x; Validate.error "missing" None; Validate.error "missing" None].
Proof.
  destruct (checkArity_spec (engine := Validate.smallEngine) strictEngine
              [symbol_x; number_7; symbol_y] 1) as (_ & _ & _ & Hlong).
  destruct (checkArity_spec (engine := Validate.smallEngine) strictEngine [symbol_x] 3)
    as (_ & _ & Hshort & _).
  split.
  - apply Hlong; [reflexivity|simpl; lia].
  - apply Hshort; [reflexivity|simpl; lia].
Defined.

(** ** Inference in [checkNumericArgs] and [validateArguments] *)

Section InferenceFacts.

Import Accessors Validate.

Context {CE : Type} {engine : Engine CE}.

Lemma allValid_app (xs ys : list BoxedExpression) :
  allValid (xs ++ ys) = allValid xs && allValid ys.
Proof. apply forallb_app. Qed.

Lemma allValid_snoc (xs : list BoxedExpression) (x : BoxedExpression) :
  allValid (xs ++ [x]) = allValid xs && isValid x.
Proof. rewrite allValid_app. cbn. rewrite andb_true_r. reflexivity. Qed.

Lemma isValid_error code detail : isValid (error code detail) = false.
Proof. reflexivity. Qed.

Lemma isValid_typeError expected actual op : isValid (typeError expected actual op) = false.
Proof. reflexivity. Qed.

(** The flag of [checkNumericArgs] records whether every value pushed so far
    is valid. *)
Lemma classify_valid (ce : CE) (count i : nat) (op : option BoxedExpression)
    (valid valid' : bool) (x : BoxedExpression) :
  classify ce count i op valid = (valid', x) -> valid' = valid && isValid x.
Proof.
  intros H. unfold classify in H.
  destruct op as [op|]; [|injection H as <- <-; rewrite andb_false_r; reflexivity].
  destruct (count <=? i)%nat;
    [injection H as <- <-; rewrite isValid_error, andb_false_r; reflexivity|].
  destruct (isValid op) eqn:Hv; cbn [negb] in H;
    [|injection H as <- <-; rewrite Hv, andb_false_r; reflexivity].
  destruct (isNumber ce op);
    [injection H as <- <-; rewrite Hv, andb_true_r; reflexivity|].
  destruct (match symbol op with
            | Some s => negb (lookupSymbol ce s) && negb (lookupFunction ce s)
            | None => false
            end);
    [injection H as <- <-; rewrite Hv, andb_true_r; reflexivity|].
  destruct (isUnknown (typeOf ce op));
    [injection H as <- <-; rewrite Hv, andb_true_r; reflexivity|].
  destruct (isFiniteIndexableCollection ce op).
  { cbv zeta in H.
    destruct (valid && forallb (isNumber ce) (each ce op)) eqn:Hc; cbn [negb] in H;
      injection H as <- <-.
    - rewrite Hv, andb_true_r. apply andb_true_iff in Hc as [-> _]. reflexivity.
    - rewrite isValid_typeError, andb_false_r. reflexivity. }
  destruct (inferredType ce op && isSubtype numberType (typeOf ce op));
    [injection H as <- <-; rewrite Hv, andb_true_r; reflexivity|].
  destruct (inferredSignature ce op && isSubtype numberType (typeOf ce op));
    [injection H as <- <-; rewrite Hv, andb_true_r; reflexivity|].
  destruct (String.eqb (head op) "Hold" || valueIsHold ce op);
    [injection H as <- <-; rewrite Hv, andb_true_r; reflexivity|].
  injection H as <- <-. rewrite isValid_typeError, andb_false_r. reflexivity.
Qed.

Lemma classify_fold_valid (ce : CE) (count : nat) (ops : list BoxedExpression)
    (indices : list nat) (valid : bool) (xs : list BoxedExpression) :
  valid = allValid xs ->
  let '(valid', xs') :=
    fold_left (fun '(valid, xs) i =>
                 let '(valid, x) := classify ce count i (ops !! i) valid in
                 (valid, xs ++ [x])) indices (valid, xs) in
  valid' = allValid xs'.
Proof.
  revert valid xs. induction indices as [|i indices IH]; intros valid xs Hinv; cbn [fold_left].
  - exact Hinv.
  - destruct (classify ce count i (ops !! i) valid) as [valid1 x] eqn:E.
    apply IH. rewrite allValid_snoc, <- Hinv. apply (classify_valid _ _ _ _ _ _ _ E).
Qed.

(** In strict mode [checkNumericArgs] infers exactly when every value it
    returns is valid. *)
Lemma checkNumericArgs_strict (ce : CE) (ops : list BoxedExpression) (options : Options) :
  strict ce = true ->
  (allValid (checkNumericArgs ce ops options).1 = false ->
     (checkNumericArgs ce ops options).2 = ce) /\
  (allValid (checkNumericArgs ce ops options).1 = true ->
     let xs := (checkNumericArgs ce ops options).1 in
     let inferredType := inferredTypeFor ce xs in
     (checkNumericArgs ce ops options).2
     = fold_left (fun ce x =>
                    if isFiniteIndexableCollection ce x
                    then inferAll inferredType (each ce x) ce
                    else infer x inferredType ce) xs ce).
Proof.
  intros Hstrict. unfold checkNumericArgs. rewrite Hstrict. cbn [negb].
  set (flat := flatten ops (flattenHead options)).
  set (n := default (length flat) (count options)).
  pose proof (classify_fold_valid ce n flat (seq 0 (Nat.max n (length flat))) true []
                eq_refl) as Hfold.
  destruct (fold_left _ (seq 0 (Nat.max n (length flat))) (true, [])) as [valid xs].
  destruct valid; cbn [fst snd]; split; intros H.
  - rewrite <- Hfold in H. discriminate.
  - reflexivity.
  - reflexivity.
  - rewrite <- Hfold in H. discriminate.
Qed.

(** The checks of [validateArguments] on one operand. *)
Lemma checkOperand_spec (ce : CE) (lazy threadable withSignature : bool)
    (op : BoxedExpression) (param : Ty) (x : BoxedExpression) (ok : bool) :
  checkOperand ce lazy threadable withSignature op param = (x, ok) ->
  (ok = false -> isValid x = false) /\
  (lazy = false -> ok = true -> isValid op = true) /\
  (lazy = true -> x = op /\ ok = true).
Proof.
  unfold checkOperand. destruct lazy.
  - intros [= <- <-]. repeat split; congruence.
  - destruct (isValid op) eqn:Hop; cbn [negb].
    + repeat match goal with
             | |- (if ?b then _ else _) = _ -> _ => destruct b
             end; intros [= <- <-]; repeat split; try congruence;
        intros; apply isValid_typeError.
    + intros [= <- <-]. repeat split; congruence.
Qed.

Lemma checked_step (lazy : bool) (ops : list BoxedExpression) (i : nat) (valid : bool)
    (result : list BoxedExpression) (ce : CE) (threadable withSignature : bool)
    (op : BoxedExpression) (param : Ty) (x : BoxedExpression) (ok : bool) :
  checked lazy ops (i, valid, result) ->
  ops !! i = Some op ->
  checkOperand ce lazy threadable withSignature op param = (x, ok) ->
  checked lazy ops (S i, valid && ok, result ++ [x]).
Proof.
  intros [Hdown Hup] Hop Hcheck.
  apply checkOperand_spec in Hcheck as (Hbad & Hgood & _).
  split.
  - intros H. rewrite allValid_snoc. apply andb_false_iff in H as [H|H].
    + rewrite (Hdown H). reflexivity.
    + rewrite (Hbad H). apply andb_false_r.
  - intros Hlazy H. apply andb_true_iff in H as [Hv Hok].
    rewrite (take_S_r _ _ _ Hop), allValid_snoc, (Hup Hlazy Hv), (Hgood Hlazy Hok).
    reflexivity.
Qed.

Lemma validateRequired_checked ce lazy threadable ops params i valid result :
  checked lazy ops (i, valid, result) ->
  checked lazy ops (validateRequired ce lazy threadable ops params i valid result).
Proof.
  revert i valid result. induction params as [|param params IH]; intros i valid result Hinv;
    cbn [validateRequired]; [exact Hinv|].
  destruct (ops !! i) as [op|] eqn:Hop.
  - destruct (checkOperand ce lazy threadable true op param) as [x ok] eqn:Hcheck.
    apply IH. eapply checked_step; eassumption.
  - apply IH. split; [|discriminate].
    intros _. rewrite allValid_snoc. apply andb_false_r.
Qed.

Lemma validateOptional_checked ce lazy threadable ops optParams i valid result :
  checked lazy ops (i, valid, result) ->
  checked lazy ops (validateOptional ce lazy threadable ops optParams i valid result).
Proof.
  revert i valid result. induction optParams as [|param optParams IH];
    intros i valid result Hinv; cbn [validateOptional]; [exact Hinv|].
  destruct (ops !! i) as [op|] eqn:Hop; [|exact Hinv].
  destruct (checkOperand ce lazy threadable false op param) as [x ok] eqn:Hcheck.
  apply IH. eapply checked_step; eassumption.
Qed.

Lemma validateRest_checked ce lazy threadable ops rest restParam i valid result :
  rest = drop i ops ->
  checked lazy ops (i, valid, result) ->
  checked lazy ops (validateRest ce lazy threadable rest restParam i valid result) /\
  (validateRest ce lazy threadable rest restParam i valid result).1.1 = (i + length rest)%nat.
Proof.
  revert i valid result. induction rest as [|op rest IH]; intros i valid result Hrest Hinv;
    cbn [validateRest].
  - split; [exact Hinv|]. cbn. lia.
  - assert (Hop : ops !! i = Some op).
    { rewrite <- (Nat.add_0_r i), <- lookup_drop, <- Hrest. reflexivity. }
    assert (Hrest' : rest = drop (S i) ops).
    { rewrite (drop_S _ _ _ Hop) in Hrest. congruence. }
    destruct (checkOperand ce lazy threadable false op restParam) as [x ok] eqn:Hcheck.
    destruct (IH (S i) (valid && ok) (result ++ [x]) Hrest'
                (checked_step _ _ _ _ _ _ _ _ _ _ _ _ Hinv Hop Hcheck)) as [H1 H2].
    split; [exact H1|]. rewrite H2. cbn [length]. lia.
Qed.

(** [validateArguments] leaves the engine as it is whenever it returns the
    list of mismatches, that list holds an invalid value, and outside the
    lazy mode an invalid operand is enough for that. *)
Lemma validateArguments_errors (ce : CE) (ops : list BoxedExpression) (signature : Ty)
    (lazy threadable : bool) :
  (forall result, (validateArguments ce ops signature lazy threadable).1 = Some result ->
     (validateArguments ce ops signature lazy threadable).2 = ce
     /\ allValid result = false) /\
  (strict ce = true -> is_Some (signatureOf signature) -> lazy = false ->
   allValid ops = false ->
     is_Some (validateArguments ce ops signature lazy threadable).1).
Proof.
  unfold validateArguments. destruct (strict ce); cbn [negb].
  2: { split; [intros result; discriminate|discriminate]. }
  destruct (signatureOf signature) as [sig|].
  2: { split; [intros result; discriminate|]. intros _ [? ?]. discriminate. }
  pose proof (validateRequired_checked ce lazy threadable ops (args sig) 0 true []) as H1.
  destruct (validateRequired ce lazy threadable ops (args sig) 0 true [])
    as [[i1 valid1] result1].
  specialize (H1 ltac:(split; [discriminate|reflexivity])).
  pose proof (validateOptional_checked ce lazy threadable ops (optArgs sig)
                i1 valid1 result1 H1) as H2.
  destruct (validateOptional ce lazy threadable ops (optArgs sig) i1 valid1 result1)
    as [[i2 valid2] result2].
  assert (H3 : exists i3 valid3 result3,
    match restArg sig with
    | Some restParam =>
        validateRest ce lazy threadable (drop i2 ops) restParam i2 valid2 result2
    | None => (i2, valid2, result2)
    end = (i3, valid3, result3) /\ checked lazy ops (i3, valid3, result3)).
  { destruct (restArg sig) as [restParam|].
    - destruct (validateRest_checked ce lazy threadable ops (drop i2 ops) restParam
                  i2 valid2 result2 eq_refl H2) as [H _].
      destruct (validateRest ce lazy threadable (drop i2 ops) restParam i2 valid2 result2)
        as [[i3 valid3] result3]. eauto.
    - eauto. }
  destruct H3 as (i3 & valid3 & result3 & -> & [Hdown Hup]).
  destruct (i3 <? length ops)%nat eqn:Hi3.
  - cbn [negb fst snd]. split; [|intros; eexists; reflexivity].
    intros result [= <-]. split; [reflexivity|].
    apply Nat.ltb_lt in Hi3. rewrite allValid_app.
    destruct (drop i3 ops) as [|op rest] eqn:Hdrop.
    + apply (f_equal length) in Hdrop. rewrite length_drop in Hdrop. cbn in Hdrop. lia.
    + cbn. apply andb_false_r.
  - apply Nat.ltb_ge in Hi3. destruct valid3; cbn [negb].
    + destruct (inferRequired lazy threadable ops (args sig) 0 ce) as [j1 ce1].
      destruct (inferOptional threadable ops (optArgs sig) j1 ce1) as [j2 ce2].
      cbn [fst snd]. split; [intros result; discriminate|].
      intros _ _ -> Hops. specialize (Hup eq_refl eq_refl).
      rewrite take_ge in Hup by exact Hi3. congruence.
    + cbn [fst snd]. split; [|intros; eexists; reflexivity].
      intros result [= <-]. split; [reflexivity|]. apply Hdown. reflexivity.
Qed.

Lemma inferRequired_lazy (threadable : bool) (ops : list BoxedExpression)
    (params : list Ty) (i : nat) (ce : CE) :
  inferRequired true threadable ops params i ce = ((i + length params)%nat, ce).
Proof.
  revert i. induction params as [|param params IH]; intros i; cbn [inferRequired negb length].
  - f_equal. lia.
  - rewrite IH. f_equal. lia.
Qed.

Lemma inferRest_lazy (threadable : bool) (rest : list BoxedExpression) (param : Ty) (ce : CE) :
  inferRest true threadable rest param ce = ce.
Proof. unfold inferRest. induction rest as [|op rest IH]; cbn; [reflexivity|exact IH]. Qed.

(** In lazy mode the only inferences are those of the loop over the optional
    parameters. *)
Lemma validateArguments_lazy_engine (ce : CE) (ops : list BoxedExpression)
    (args optArgs : list Ty) (restArg : option Ty) (result : Ty) (threadable : bool) :
  (validateArguments ce ops (TSignature args optArgs restArg result) true threadable).1 = None ->
  strict ce = true ->
  (validateArguments ce ops (TSignature args optArgs restArg result) true threadable).2
  = (inferOptional threadable ops optArgs (length args) ce).2.
Proof.
  unfold validateArguments. intros Hnull Hstrict. rewrite Hstrict in Hnull |- *.
  revert Hnull. cbn [negb signatureOf].
  cbn [Validate.args Validate.optArgs Validate.restArg].
  destruct (validateRequired ce true threadable ops args 0 true []) as [[i1 valid1] result1].
  destruct (validateOptional ce true threadable ops optArgs i1 valid1 result1)
    as [[i2 valid2] result2].
  destruct (match restArg with
            | Some restParam =>
                validateRest ce true threadable (drop i2 ops) restParam i2 valid2 result2
            | None => (i2, valid2, result2)
            end) as [[i3 valid3] result3].
  destruct (if (i3 <? length ops)%nat then _ else _) as [valid4 result4].
  destruct valid4; cbn [negb]; [|discriminate]. intros _.
  rewrite inferRequired_lazy. cbn [Nat.add].
  destruct (inferOptional threadable ops optArgs (length args) ce) as [j ce'].
  cbn [snd]. destruct restArg; [apply inferRest_lazy|reflexivity].
Qed.

(** In lazy mode the optional operands are inferred all the same. *)
Lemma validateArguments_lazy_optional (ce : CE) (op : BoxedExpression) (param result : Ty) :
  strict ce = true ->
  validateArguments ce [op] (TSignature [] [param] None result) true false
  = (None, infer op param ce).
Proof. intros Hstrict. unfold validateArguments. rewrite Hstrict. reflexivity. Qed.

Lemma validateArguments_lazy_required (ce : CE) (op : BoxedExpression) (param result : Ty) :
  strict ce = true ->
  validateArguments ce [op] (TSignature [param] [] None result) true false = (None, ce).
Proof. intros Hstrict. unfold validateArguments. rewrite Hstrict. reflexivity. Qed.

Lemma validateArguments_lazy_rest (ce : CE) (op : BoxedExpression) (param result : Ty) :
  strict ce = true ->
  validateArguments ce [op] (TSignature [] [] (Some param) result) true false = (None, ce).
Proof. intros Hstrict. unfold validateArguments. rewrite Hstrict. reflexivity. Qed.

End InferenceFacts.

Section InferenceSpec.

Import Accessors Validate.

Context {CE : Type} {engine : Engine CE}.

Lemma classify_operand_valid (ce : CE) (count i : nat) (op : BoxedExpression)
    (valid valid' : bool) (x : BoxedExpression) :
  classify ce count i (Some op) valid = (valid', x) -> valid' = true -> isValid op = true.
Proof.
  intros H Hvalid. pose proof (classify_valid _ _ _ _ _ _ _ H) as Hflag.
  unfold classify in H.
  destruct (count <=? i)%nat; [injection H as <- <-; discriminate|].
  destruct (isValid op) eqn:Hv; [reflexivity|].
  cbn [negb] in H. injection H as <- <-. discriminate.
Qed.

Lemma classify_fold_operands (ce : CE) (count : nat) (ops : list BoxedExpression)
    (start len : nat) (valid : bool) (xs : list BoxedExpression) :
  (valid = true -> allValid (take start ops) = true) ->
  (fold_left (fun '(valid, xs) i =>
                let '(valid, x) := classify ce count i (ops !! i) valid in
                (valid, xs ++ [x])) (seq start len) (valid, xs)).1 = true ->
  allValid (take (start + len) ops) = true.
Proof.
  revert start valid xs. induction len as [|len IH]; intros start valid xs Hinv;
    cbn [seq fold_left].
  - cbn [fst]. rewrite Nat.add_0_r. exact Hinv.
  - destruct (classify ce count start (ops !! start) valid) as [valid1 x] eqn:E.
    replace (start + S len)%nat with (S start + len)%nat by lia.
    apply IH. intros Hvalid1.
    pose proof (classify_valid _ _ _ _ _ _ _ E) as Hflag.
    pose proof Hvalid1 as Hboth. rewrite Hflag in Hboth.
    apply andb_true_iff in Hboth as [Hvalid Hx].
    destruct (ops !! start) as [op|] eqn:Hop.
    + rewrite (take_S_r _ _ _ Hop), allValid_snoc, (Hinv Hvalid).
      rewrite (classify_operand_valid _ _ _ _ _ _ _ E Hvalid1). reflexivity.
    + apply lookup_ge_None in Hop. rewrite take_ge by lia.
      rewrite <- (take_ge ops start) by lia. exact (Hinv Hvalid).
Qed.

Lemma checkNumericArgs_invalid_operand (ce : CE) (ops : list BoxedExpression)
    (options : Options) :
  strict ce = true ->
  allValid (flatten ops (flattenHead options)) = false ->
  allValid (checkNumericArgs ce ops options).1 = false.
Proof.
  intros Hstrict Hops. unfold checkNumericArgs. rewrite Hstrict. cbn [negb].
  set (flat := flatten ops (flattenHead options)) in *.
  set (n := default (length flat) (count options)).
  pose proof (classify_fold_valid ce n flat (seq 0 (Nat.max n (length flat))) true []
                eq_refl) as Hfold.
  pose proof (classify_fold_operands ce n flat 0 (Nat.max n (length flat)) true []
                ltac:(reflexivity)) as Hoperands.
  destruct (fold_left _ (seq 0 (Nat.max n (length flat))) (true, [])) as [valid xs].
  cbn [fst] in Hoperands. destruct valid; cbn [fst].
  - specialize (Hoperands eq_refl). rewrite take_ge in Hoperands by lia. congruence.
  - symmetry. exact Hfold.
Qed.

(** The inference is gated by the validation.
    - [checkNumericArgs] in strict mode leaves the engine, and with it every
      definition, as it was when a value it returns is invalid (an error
      node, or an operand that is invalid); this is the case as soon as one
      operand is invalid; it infers, one operand after the other, only when
      every value is valid.
    - [validateArguments] leaves the engine as it was whenever it returns
      the list with the mismatches, which outside the lazy mode is the case
      as soon as one operand is invalid. *)
Lemma inference_gated (ce : CE) (ops : list BoxedExpression)
    (options : Options) (signature : Ty) (lazy threadable : bool) :
  (strict ce = true ->
     (allValid (checkNumericArgs ce ops options).1 = false ->
        (checkNumericArgs ce ops options).2 = ce) /\
     (allValid (flatten ops (flattenHead options)) = false ->
        allValid (checkNumericArgs ce ops options).1 = false
        /\ (checkNumericArgs ce ops options).2 = ce) /\
     (allValid (checkNumericArgs ce ops options).1 = true ->
        let xs := (checkNumericArgs ce ops options).1 in
        let inferredType := inferredTypeFor ce xs in
        (checkNumericArgs ce ops options).2
        = fold_left (fun ce x =>
                       if isFiniteIndexableCollection ce x
                       then inferAll inferredType (each ce x) ce
                       else infer x inferredType ce) xs ce)) /\
  (forall result, (validateArguments ce ops signature lazy threadable).1 = Some result ->
     (validateArguments ce ops signature lazy threadable).2 = ce
     /\ allValid result = false) /\
  (strict ce = true -> is_Some (signatureOf signature) -> lazy = false ->
   allValid ops = false ->
     exists result,
       (validateArguments ce ops signature lazy threadable).1 = Some result
       /\ (validateArguments ce ops signature lazy threadable).2 = ce).
Proof.
  split; [|split].
  - intros Hstrict. destruct (checkNumericArgs_strict ce ops options Hstrict) as [Hno Hyes].
    split; [exact Hno|]. split; [|exact Hyes].
    intros Hops. pose proof (checkNumericArgs_invalid_operand ce ops options Hstrict Hops).
    split; [assumption|]. apply Hno. assumption.
  - apply validateArguments_errors.
  - intros Hstrict Hsig Hlazy Hops.
    destruct (validateArguments_errors ce ops signature lazy threadable) as [Herr Hsome].
    destruct (Hsome Hstrict Hsig Hlazy Hops) as [result Hresult].
    exists result. split; [exact Hresult|]. apply (Herr result Hresult).
Qed.

End InferenceSpec.

Lemma inference_gated_example :
  (Validate.checkNumericArgs (engine := Validate.smallEngine) strictEngine
     [symbol_x; badOperand] noOptions).2 = strictEngine
  /\ (exists result,
        (Validate.validateArguments (engine := Validate.smallEngine) strictEngine
           [symbol_x; badOperand] binaryReal false false).1 = Some result
        /\ (Validate.validateArguments (engine := Validate.smallEngine) strictEngine
              [symbol_x; badOperand] binaryReal false false).2 = strictEngine).
Proof.
  destruct (inference_gated (engine := Validate.smallEngine) strictEngine
              [symbol_x; badOperand] noOptions binaryReal false false)
    as (Hnumeric & _ & Hsignature).
  split.
  - apply Hnumeric; reflexivity.
  - apply Hsignature; [reflexivity|eexists; reflexivity|reflexivity|reflexivity].
Qed.

(** C3, at the failing input: in lazy mode, with two optional parameters of
    type real, an operand that is an error sentinel and the operand [x],
    [validateArguments] returns [null] and has inferred the type of [x],
    although an operand of the group is invalid: the definitions now give
    [x] the type real. Outside the lazy mode the same operands leave the
    engine as it was. *)
Theorem validateArguments_infers_despite_invalid :
  Validate.isValid badOperand = false
  /\ Validate.validateArguments (engine := Validate.smallEngine) strictEngine
       [badOperand; symbol_x] twoOptionalReal true false
     = (None, Validate.mkSmallEngine true (<["x" := Validate.realType]> ∅))
  /\ Validate.definitions strictEngine !! "x" = None
  /\ Validate.definitions
       (Validate.validateArguments (engine := Validate.smallEngine) strictEngine
          [badOperand; symbol_x] twoOptionalReal true false).2
     !! "x" = Some Validate.realType
  /\ (Validate.validateArguments (engine := Validate.smallEngine) strictEngine
        [badOperand; symbol_x] twoOptionalReal false false).2 = strictEngine.
Proof.
  assert (Hrun : Validate.validateArguments (engine := Validate.smallEngine) strictEngine
                   [badOperand; symbol_x] twoOptionalReal true false
                 = (None, Validate.mkSmallEngine true (<["x" := Validate.realType]> ∅))).
  { reflexivity. }
  split; [reflexivity|]. split; [exact Hrun|]. split; [apply lookup_empty|]. split.
  - rewrite Hrun. cbn [snd Validate.definitions]. apply lookup_insert_eq.
  - reflexivity.
Qed.

(** C7, at the failing input: in lazy mode, with one optional parameter of
    type real and the operand [x], [validateArguments] returns [null] and
    has inferred the type of [x]: the definitions now give [x] the type
    real. With the same parameter declared as required or as the rest
    parameter, the engine is left as it was. *)
Theorem validateArguments_lazy_infers_optional :
  Validate.validateArguments (engine := Validate.smallEngine) strictEngine [symbol_x]
    (Validate.TSignature [] [Validate.realType] None Validate.realType) true false
  = (None, Validate.mkSmallEngine true (<["x" := Validate.realType]> ∅))
  /\ Validate.definitions strictEngine !! "x" = None
  /\ Validate.definitions
       (Validate.validateArguments (engine := Validate.smallEngine) strictEngine [symbol_x]
          (Validate.TSignature [] [Validate.realType] None Validate.realType) true false).2
     !! "x" = Some Validate.realType
  /\ Validate.validateArguments (engine := Validate.smallEngine) strictEngine [symbol_x]
       (Validate.TSignature [Validate.realType] [] None Validate.realType) true false
     = (None, strictEngine)
  /\ Validate.validateArguments (engine := Validate.smallEngine) strictEngine [symbol_x]
       (Validate.TSignature [] [] (Some Validate.realType) Validate.realType) true false
     = (None, strictEngine).
Proof.
  assert (Hrun : Validate.validateArguments (engine := Validate.smallEngine) strictEngine
                   [symbol_x]
                   (Validate.TSignature [] [Validate.realType] None Validate.realType)
                   true false
                 = (None, Validate.mkSmallEngine true (<["x" := Validate.realType]> ∅))).
  { rewrite validateArguments_lazy_optional by reflexivity. reflexivity. }
  split; [exact Hrun|]. split; [apply lookup_empty|]. split.
  - rewrite Hrun. cbn [snd Validate.definitions]. apply lookup_insert_eq.
  - split.
    + apply validateArguments_lazy_required. reflexivity.
    + apply validateArguments_lazy_rest. reflexivity.
Qed.

(** ** [compare] and [equal] *)

Section CompareFacts.

Variable constantValue : string -> option Q.
Variable operandOrder : Expression -> Expression -> Z.



End CompareFacts.


(** * Part III: further properties of the sources *)

(** ** [replace] and the rewrite relation *)

Section RewritingFacts.

Context {CE : Type} {patterns : Rules.Patterns}.

Implicit Types (ce : CE) (rules : Rules.RuleSet CE) (expr : Expression).

Lemma reaches_mono ce rules rules' a b :
  (forall rule, In rule rules -> In rule rules') ->
  Rewriting.reaches ce rules a b -> Rewriting.reaches ce rules' a b.
Proof.
  intros Hsub. apply rtc_subrel. intros x y (rule & Hin & Happ).
  exists rule. split; [apply Hsub, Hin|exact Happ].
Qed.

(** A pass of the [for] loop moves along the rewrite relation. *)
Lemma scan_reaches ce rules done expr :
  Rewriting.reaches ce rules expr (Rules.scan ce rules done expr).2.
Proof.
  revert done expr. induction rules as [|rule rules IH]; intros done expr; simpl.
  - apply rtc_refl.
  - destruct (Rules.applyRule ce rule expr) as [result|] eqn:E.
    + eapply rtc_l.
      * exists rule. split; [left; reflexivity|exact E].
      * eapply reaches_mono; [|apply IH]. intros r Hr. right. exact Hr.
    + eapply reaches_mono; [|apply IH]. intros r Hr. right. exact Hr.
Qed.

Lemma irreducible_no_step ce rules expr :
  Rules.irreducible ce rules expr <-> (forall b, ~ Rewriting.step ce rules expr b).
Proof.
  unfold Rules.irreducible. rewrite Forall_forall. split.
  - intros H b (rule & Hin & Happ). apply list_elem_of_In in Hin.
    rewrite (H rule Hin) in Happ. discriminate.
  - intros H rule Hin. apply list_elem_of_In in Hin.
    destruct (Rules.applyRule ce rule expr) as [b|] eqn:E; [|reflexivity].
    exfalso. apply (H b). exists rule. split; assumption.
Qed.

Lemma replace_reaches fuel ce rules expr final :
  Rules.replace fuel ce rules expr = Some (Rules.value final) ->
  Rewriting.reaches ce rules expr final.
Proof.
  revert expr. induction fuel as [|fuel IH]; intros expr; simpl; [discriminate|].
  pose proof (scan_reaches ce rules true expr) as Hscan.
  destruct (Rules.scan ce rules true expr) as [[|] expr']; simpl in Hscan.
  - intros [= <-]. exact Hscan.
  - intros H. eapply rtc_trans; [exact Hscan|]. apply IH, H.
Qed.

(** X1. Whatever [replace] returns is a normal form of its input: it is
    reached from the input by finitely many applications of rules of the
    set, each at the root, and no rule of the set applies to it. *)
Theorem replace_normal_form fuel ce rules expr out :
  Rules.replace fuel ce rules expr = Some out ->
  exists final,
    out = Rules.value final /\
    Rewriting.reaches ce rules expr final /\
    (forall b, ~ Rewriting.step ce rules final b).
Proof.
  intros H. destruct (replace_returns_irreducible fuel ce rules expr out H)
    as (final & -> & Hirr).
  exists final. split; [reflexivity|]. split.
  - apply (replace_reaches fuel), H.
  - apply irreducible_no_step, Hirr.
Qed.

(** X2. [replace] is idempotent: applied to its own result it returns that
    result, in the first iteration of its loop. *)
Theorem replace_idempotent fuel fuel' ce rules expr final :
  Rules.replace fuel ce rules expr = Some (Rules.value final) ->
  Rules.replace (S fuel') ce rules final = Some (Rules.value final).
Proof.
  intros H. destruct (replace_returns_irreducible fuel ce rules expr _ H)
    as (final' & [= <-] & Hirr).
  simpl. rewrite (scan_irreducible ce rules true final Hirr). reflexivity.
Qed.

(** X3. [replace] does not return when no expression that the rules reach
    from the input is free of applicable rules: every iteration of the
    [while] loop applies a rule again. *)
Theorem replace_diverges ce rules expr :
  (forall e, Rewriting.reaches ce rules expr e -> exists b, Rewriting.step ce rules e b) ->
  forall fuel, Rules.replace fuel ce rules expr = None.
Proof.
  intros Hlive fuel.
  destruct (Rules.replace fuel ce rules expr) as [out|] eqn:E; [exfalso|reflexivity].
  destruct (replace_returns_irreducible fuel ce rules expr out E) as (final & -> & Hirr).
  destruct (Hlive final (replace_reaches fuel ce rules expr final E)) as (b & Hb).
  exact (proj1 (irreducible_no_step ce rules final) Hirr b Hb).
Qed.

(** X4. With a single rule the order of the scan plays no part: [replace]
    applies the rule until it no longer applies, as the restarting driver
    does. *)
Theorem replace_single_rule fuel ce (rule : Rules.Rule CE) expr :
  Rules.replace fuel ce [rule] expr = Rules.replace_restarting fuel ce [rule] expr.
Proof.
  revert expr. induction fuel as [|fuel IH]; intros expr; simpl; [reflexivity|].
  destruct (Rules.applyRule ce rule expr) as [result|]; [apply IH|reflexivity].
Qed.

End RewritingFacts.

Lemma replace_normal_form_witness :
  exists final,
    Rules.value (Sym "d") = Rules.value final /\
    Rewriting.reaches (patterns := Rules.specPatterns) tt rules_bc_ab_bd (Sym "a") final /\
    (forall b, ~ Rewriting.step (patterns := Rules.specPatterns) tt rules_bc_ab_bd final b).
Proof.
  apply (replace_normal_form (patterns := Rules.specPatterns) 2 tt rules_bc_ab_bd (Sym "a")).
  vm_compute. reflexivity.
Defined.

Lemma replace_idempotent_witness :
  Rules.replace (patterns := Rules.specPatterns) 1 tt rules_bc_ab_bd (Sym "d")
  = Some (Rules.value (Sym "d")).
Proof.
  apply (replace_idempotent (patterns := Rules.specPatterns) 2 0 tt rules_bc_ab_bd (Sym "a")).
  vm_compute. reflexivity.
Defined.

Lemma replace_diverges_witness :
  Rules.applyRule (patterns := Rules.specPatterns) tt
    (rule_of (Sym "_x") (Fn "f" [Sym "_x"])) (Sym "a") = Some (Fn "f" [Sym "a"]) /\
  (forall fuel,
     Rules.replace (patterns := Rules.specPatterns) fuel tt rules_wrap (Sym "a") = None).
Proof.
  split; [vm_compute; reflexivity|].
  apply (replace_diverges (patterns := Rules.specPatterns) tt rules_wrap (Sym "a")).
  intros e _. exists (Fn "f" [e]). exists (rule_of (Sym "_x") (Fn "f" [Sym "_x"])).
  split; [left; reflexivity|].
  unfold Rules.applyRule. cbn. rewrite lookup_empty. cbn. rewrite lookup_insert_eq. reflexivity.
Defined.

(** ** [choose], [multinomialCoefficient] and the count of [powers] *)

Section CountingFacts.

Import Expand Counting.

Lemma growTable_prefix (iterations : nat) (n : Z) (t : Table) :
  t `prefix_of` growTable iterations n t.
Proof.
  revert t. induction iterations as [|k IH]; intros t; simpl; [reflexivity|].
  destruct (n >=? Z.of_nat (length t)); [|reflexivity].
  etransitivity; [|apply IH]. apply prefix_app_r. reflexivity.
Qed.

(** X5. [choose(n, k)] for [0 <= k <= n] returns the binomial coefficient
    [n! / (k! (n - k)!)] as long as this coefficient is at most [2^53], the
    bound up to which the sums of doubles that fill the table are exact. It
    extends the table [binomials] to [n + 1] rows when it is shorter, keeps
    the rows it found, leaves a table of computed rows, and a second call
    with the same arguments reads the table without changing it. *)
Theorem choose_factorials (n k : Z) (t : Table) :
  computedTable t -> 0 <= k <= n ->
  factorial (Z.to_nat n)
  <= maxExact * (factorial (Z.to_nat k) * factorial (Z.to_nat (n - k))) ->
  exists c t',
    choose n k t = Some (Finite c, t') /\
    c * factorial (Z.to_nat k) * factorial (Z.to_nat (n - k)) = factorial (Z.to_nat n) /\
    computedTable t' /\
    t `prefix_of` t' /\
    length t' = Nat.max (length t) (Z.to_nat n + 1) /\
    choose n k t' = Some (Finite c, t').
Proof.
  intros Ht Hk Hbound.
  assert (Hfact : binom (Z.to_nat n) (Z.to_nat k) * factorial (Z.to_nat k)
                  * factorial (Z.to_nat (n - k)) = factorial (Z.to_nat n)).
  { replace (Z.to_nat (n - k)) with (Z.to_nat n - Z.to_nat k)%nat by lia.
    apply binom_factorial. lia. }
  assert (Hexact : binom (Z.to_nat n) (Z.to_nat k) <= maxExact).
  { pose proof (factorial_pos (Z.to_nat k)). pose proof (factorial_pos (Z.to_nat (n - k))).
    apply Z.mul_le_mono_pos_r
      with (p := factorial (Z.to_nat k) * factorial (Z.to_nat (n - k))); [nia|].
    rewrite Z.mul_assoc, Hfact. exact Hbound. }
  destruct (choose_binom n k t Ht Hk Hexact) as (t' & Hrun & Ht' & Hlen).
  exists (binom (Z.to_nat n) (Z.to_nat k)), t'.
  assert (Hgrow : t' = growTable (Z.to_nat (n + 1 - Z.of_nat (length t))) n t).
  { unfold choose in Hrun. cbn zeta in Hrun.
    destruct (index _ n) in Hrun; [|discriminate]. injection Hrun as _ <-. reflexivity. }
  split; [exact Hrun|]. split; [exact Hfact|].
  split; [exact Ht'|]. split; [rewrite Hgrow; apply growTable_prefix|].
  split; [exact Hlen|].
  destruct (choose_binom n k t' Ht' Hk Hexact) as (t'' & Hrun' & _ & Hlen').
  rewrite Hrun'. do 2 f_equal.
  unfold choose in Hrun'. cbn zeta in Hrun'.
  destruct (index _ n) in Hrun'; [|discriminate]. injection Hrun' as _ <-.
  replace (Z.to_nat (n + 1 - Z.of_nat (length t'))) with 0%nat by lia. reflexivity.
Qed.

Lemma multinomial_factorials (k : list Z) :
  Forall (fun v => 0 <= v) k ->
  multinomial k * factorials k = factorial (Z.to_nat (sumZ k)).
Proof.
  induction 1 as [|ki k Hki Hk IH].
  - reflexivity.
  - cbn [multinomial]. unfold factorials in *. cbn [map prodZ fold_right sumZ].
    fold (prodZ (map (fun ki => factorial (Z.to_nat ki)) k)). fold (sumZ k).
    pose proof (sumZ_nonneg k Hk) as Hsum.
    rewrite <- (binom_factorial (Z.to_nat (ki + sumZ k)) (Z.to_nat ki)) by lia.
    replace (Z.to_nat (ki + sumZ k) - Z.to_nat ki)%nat with (Z.to_nat (sumZ k)) by lia.
    rewrite <- IH. ring.
Qed.

(** X6. For a tuple [k] of non-negative integers [multinomialCoefficient]
    returns the multinomial coefficient [(k1 + ... + km)! / (k1! ... km!)]
    as long as this coefficient is at most [2^53], the bound up to which
    the sums and products of doubles that form it are exact; it leaves a
    table of computed rows, which it only extends. *)
Theorem multinomialCoefficient_factorials (k : list Z) (t : Table) :
  computedTable t -> Forall (fun v => 0 <= v) k ->
  factorial (Z.to_nat (sumZ k)) <= maxExact * factorials k ->
  exists c t',
    multinomialCoefficient k t = Some (Finite c, t') /\
    c * factorials k = factorial (Z.to_nat (sumZ k)) /\
    0 < c /\
    computedTable t' /\
    (length t <= length t')%nat.
Proof.
  intros Ht Hk Hbound.
  pose proof (multinomial_factorials k Hk) as Hfact.
  pose proof (factorial_pos (Z.to_nat (sumZ k))) as Hpos.
  assert (Hden : 0 < factorials k).
  { clear. unfold factorials. induction k as [|ki k IH]; cbn [map prodZ fold_right]; [lia|].
    pose proof (factorial_pos (Z.to_nat ki)).
    fold (prodZ (map (fun ki => factorial (Z.to_nat ki)) k)). nia. }
  assert (Hexact : multinomial k <= maxExact).
  { apply Z.mul_le_mono_pos_r with (p := factorials k); [exact Hden|].
    rewrite Hfact. exact Hbound. }
  destruct (multinomialCoefficient_spec k t Ht Hk Hexact) as (t' & Hrun & Ht' & Hlen).
  exists (multinomial k), t'. split; [exact Hrun|].
  split; [exact Hfact|]. split; [nia|]. split; assumption.
Qed.

Lemma length_concat_sum {A : Type} (ls : list (list A)) :
  Z.of_nat (length (List.concat ls)) = sumZ (map (fun l => Z.of_nat (length l)) ls).
Proof.
  induction ls as [|l ls IH]; simpl; [reflexivity|].
  rewrite length_app, Nat2Z.inj_add, IH. reflexivity.
Qed.

(** The hockey-stick identity, in the order in which the loop of [powers]
    meets its terms. *)
Lemma hockey_stick (m e : nat) :
  bsum (fun i => binom (e - i + m) m) (S e) = binom (e + m + 1) (S m).
Proof.
  induction e as [|e IH].
  - unfold bsum. simpl. rewrite binom_diag. replace (m + 1)%nat with (S m) by lia.
    rewrite binom_diag. lia.
  - rewrite bsum_S_l.
    rewrite (bsum_ext _ (fun i => binom (e - i + m) m))
      by (intros i Hi; replace (S e - S i)%nat with (e - i)%nat by lia; reflexivity).
    rewrite IH. replace (S e - 0 + m)%nat with (S (e + m)) by lia.
    replace (S e + m + 1)%nat with (S (S (e + m))) by lia.
    replace (e + m + 1)%nat with (S (e + m)) by lia.
    cbn [binom]. destruct m; lia.
Qed.

Lemma compositions_count (n e : nat) :
  Z.of_nat (length (compositions (S n) (Z.of_nat e))) = binom (e + n) n.
Proof.
  revert e. induction n as [|n IH]; intros e.
  - simpl. rewrite binom_0_r. reflexivity.
  - change (compositions (S (S n)) (Z.of_nat e))
      with (List.concat (map (fun i => map (cons i) (compositions (S n) (Z.of_nat e - i)))
                             (upto (Z.of_nat e)))).
    rewrite length_concat_sum, map_map, upto_of_nat, map_map.
    rewrite (sumZ_map_ext _ (fun i => binom (e - i + n) n)).
    + fold (bsum (fun i => binom (e - i + n) n) (S e)). rewrite hockey_stick.
      f_equal. lia.
    + intros i Hi. apply in_seq in Hi. rewrite length_map.
      replace (Z.of_nat e - Z.of_nat i) with (Z.of_nat (e - i)) by lia. apply IH.
Qed.

(** X7. For [n >= 1] parts and an exponent [exp >= 0], [powers(n, exp)]
    yields exactly [C(exp + n - 1, n - 1)] tuples: the number of terms of
    the expansion of a sum of [n] terms raised to [exp]. *)
Theorem powers_count (fuel : nat) (n exp : Z) :
  1 <= n -> 0 <= exp -> (Z.to_nat n <= fuel)%nat ->
  exists yields,
    powers fuel n exp = Some yields /\
    Z.of_nat (length yields) = binom (Z.to_nat (exp + n - 1)) (Z.to_nat (n - 1)).
Proof.
  intros Hn Hexp Hfuel. exists (compositions (Z.to_nat n) exp). split.
  - rewrite <- (powers_compositions fuel (Z.to_nat n) exp) by lia.
    rewrite Z2Nat.id by lia. reflexivity.
  - replace (Z.to_nat n) with (S (Z.to_nat (n - 1))) by lia.
    replace exp with (Z.of_nat (Z.to_nat exp)) at 1 by lia.
    rewrite compositions_count. f_equal. lia.
Qed.

End CountingFacts.

Lemma choose_factorials_witness :
  exists c t',
    Expand.choose 10 3 Expand.binomials = Some (Expand.Finite c, t') /\
    c * Counting.factorial 3 * Counting.factorial 7 = Counting.factorial 10 /\
    Expand.computedTable t' /\
    Expand.binomials `prefix_of` t' /\
    length t' = 11%nat /\
    Expand.choose 10 3 t' = Some (Expand.Finite c, t').
Proof.
  apply (choose_factorials 10 3 Expand.binomials computedTable_binomials); [lia|].
  vm_compute. discriminate.
Defined.

Lemma multinomialCoefficient_factorials_witness :
  exists c t',
    Expand.multinomialCoefficient [2; 1; 3] Expand.binomials = Some (Expand.Finite c, t') /\
    c * Counting.factorials [2; 1; 3] = Counting.factorial 6 /\
    0 < c /\
    Expand.computedTable t' /\
    (length Expand.binomials <= length t')%nat.
Proof.
  apply (multinomialCoefficient_factorials [2; 1; 3] Expand.binomials computedTable_binomials).
  - repeat constructor; lia.
  - vm_compute. discriminate.
Defined.

Lemma powers_count_witness :
  exists yields,
    Expand.powers 3 3 4 = Some yields /\ Z.of_nat (length yields) = 15.
Proof.
  apply (powers_count 3 3 4); [lia|lia|vm_compute; lia].
Defined.

(** ** The equations of the mutually recursive functions of expand.ts *)

Section ExpandEquations.

Import Accessors Expand.

Context {ce : IComputeEngine} {imports : Imports}.

Lemma distribute_S (fuel : nat) (head : string) (ops : list BoxedExpression) :
  distribute (S fuel) head ops =
    if String.eqb head "Power" then
      match ops !! 1%nat ≫= asMachineInteger with
      | None => mret None
      | Some exp => expandPower fuel (default Nothing (ops !! 0%nat)) exp
      end
    else if String.eqb head "Negate" then
      distribute fuel "Multiply" [NegativeOne; default Nothing (ops !! 0%nat)]
    else if String.eqb head "Divide" then
      match ops !! 0%nat ≫= Accessors.ops with
      | None => mret None
      | Some ops0 =>
          num ← distribute fuel (Accessors.head (default Nothing (ops !! 0%nat))) ops0;
          match num with
          | None => mret None
          | Some num => mret (Some (div num (default Nothing (ops !! 1%nat))))
          end
      end
    else if String.eqb head "Multiply" then
      match ops with
      | [x] => mret (Some x)
      | [x; y] => r ← distribute2 fuel x y; mret (Some r)
      | _ =>
          rhs ← distribute fuel head (tail ops);
          match rhs with
          | None => mret None
          | Some rhs => r ← distribute2 fuel (default Nothing (ops !! 0%nat)) rhs; mret (Some r)
          end
      end
    else mret None.
Proof. reflexivity. Qed.

Lemma expandPower_S (fuel : nat) (base : BoxedExpression) (exp : Z) :
  expandPower (S fuel) base exp =
    if exp <? 0 then
      expr ← expandPower fuel base (- exp);
      mret (inv <$> expr)
    else if exp =? 0 then mret (Some One)
    else if exp =? 1 then expand fuel (Some base)
    else if isHead base "Negate" then
      let sign := if Z.rem exp 2 =? 0 then 1 else -1 in
      result ← expandPower fuel (op1 base) exp;
      match result with
      | None => mret None
      | Some result => mret (Some (if sign >? 0 then result else neg result))
      end
    else if negb (isHead base "Add") then mret None
    else
      let terms := ops_ base in
      it ← lift (powers fuel (Z.of_nat (length terms)) exp);
      result ← mapM_ (term terms) it;
      mret (Some (add result)).
Proof. reflexivity. Qed.

Lemma expandMultinomial_S (fuel : nat) (expr : BoxedExpression) :
  expandMultinomial (S fuel) expr =
    if negb (isHead expr "Power") then mret None
    else
      match asMachineInteger (op2 expr) with
      | None => mret None
      | Some exp => expandPower fuel (op1 expr) exp
      end.
Proof. reflexivity. Qed.

Lemma expandNumerator_S (fuel : nat) (expr : BoxedExpression) :
  expandNumerator (S fuel) expr =
    if negb (isHead expr "Divide") then mret None
    else
      expandedNumerator ← expand fuel (Some (op1 expr));
      match expandedNumerator with
      | None => mret None
      | Some expandedNumerator =>
          if isHead expandedNumerator "Add" then
            mret (Some (add (map (fun x => div x (op2 expr)) (ops_ expandedNumerator))))
          else mret (Some (div expandedNumerator (op2 expr)))
      end.
Proof. reflexivity. Qed.

Lemma expand_S (fuel : nat) (expr : BoxedExpression) :
  expand (S fuel) (Some expr) =
    let h := head expr in
    if isRelationalOperator h then
      xs ← mapM_ (fun x => r ← expand fuel (Some x); mret (default x r)) (ops_ expr);
      mret (Some (_fn h xs))
    else
      result ← expandNumerator fuel expr;
      match result with
      | Some result => mret (Some result)
      | None =>
          if String.eqb h "Multiply" then distribute fuel "Multiply" (ops_ expr)
          else if String.eqb h "Add" then mret (Some (simplifyAdd (ops_ expr)))
          else if String.eqb h "Negate" then
            op ← expand fuel (Some (op1 expr));
            match op with
            | None => mret None
            | Some op => mret (Some (neg op))
            end
          else if String.eqb h "Power" then expandMultinomial fuel expr
          else mret None
      end.
Proof. reflexivity. Qed.

End ExpandEquations.

(** ** Inputs on which the expansion does not return *)

Section ExpandDivergence.

Import Accessors Expand.

Context {ce : IComputeEngine} {imports : Imports}.

Lemma distribute_no_operands (fuel : nat) (t : Table) :
  distribute fuel "Multiply" [] t = None.
Proof.
  induction fuel as [|fuel IH]; [reflexivity|].
  rewrite distribute_S. cbn [String.eqb Ascii.eqb Bool.eqb tail]. unfold mbind, M_bind.
  rewrite IH. reflexivity.
Qed.

(** X8. A product without operands is not a base case of [distribute]: the
    call recurses on [ops.slice(1)], the empty list again, and never
    returns. [expand] hands such a product to [distribute], and does not
    return either. *)
Theorem expand_empty_product_diverges :
  isRelationalOperator "Multiply" = false ->
  (forall fuel t, distribute fuel "Multiply" [] t = None) /\
  (forall fuel t, expand fuel (Some (BoxedFunction "Multiply" [])) t = None).
Proof.
  intros Hrel. split; [apply distribute_no_operands|].
  intros [|fuel] t; [reflexivity|].
  rewrite expand_S. cbn [head]. rewrite Hrel. destruct fuel as [|fuel]; [reflexivity|].
  rewrite expandNumerator_S. unfold isHead. cbn [head String.eqb Ascii.eqb Bool.eqb negb].
  unfold mbind, M_bind, mret, M_ret. apply distribute_no_operands.
Qed.

(** X9. A sum without operands raised to an exponent [exp] with
    [|exp| >= 2] makes [expandPower] ask [powers] for the compositions into
    0 parts; [powers] only stops at [n === 1], so the call never returns. *)
Theorem expandPower_empty_sum_diverges (base : BoxedExpression) (exp : Z) :
  head base = "Add" -> ops_ base = [] -> 2 <= Z.abs exp ->
  forall fuel t, expandPower fuel base exp t = None.
Proof.
  intros Hadd Hops Hexp.
  assert (Hpos : forall e, 2 <= e -> forall fuel t, expandPower fuel base e t = None).
  { intros e He [|fuel] t; [reflexivity|]. rewrite expandPower_S.
    replace (e <? 0) with false by (symmetry; apply Z.ltb_ge; lia).
    replace (e =? 0) with false by (symmetry; apply Z.eqb_neq; lia).
    replace (e =? 1) with false by (symmetry; apply Z.eqb_neq; lia).
    unfold isHead. rewrite Hadd. cbn [String.eqb Ascii.eqb Bool.eqb negb].
    rewrite Hops. cbn [length Z.of_nat]. unfold mbind, M_bind, lift.
    rewrite powers_unbounded by lia. reflexivity. }
  intros [|fuel] t; [reflexivity|].
  destruct (Z.ltb_spec exp 0) as [Hneg|Hnonneg].
  - rewrite expandPower_S. replace (exp <? 0) with true by (symmetry; apply Z.ltb_lt; lia).
    unfold mbind, M_bind. rewrite Hpos by lia. reflexivity.
  - apply Hpos. lia.
Qed.

End ExpandDivergence.

Lemma expand_empty_product_diverges_witness :
  (forall fuel t,
     Expand.distribute (ce := Expand.plainEngine) (imports := Expand.plainImports)
       fuel "Multiply" [] t = None) /\
  (forall fuel t,
     Expand.expand (ce := Expand.plainEngine) (imports := Expand.plainImports)
       fuel (Some (BoxedFunction "Multiply" [])) t = None).
Proof.
  apply (expand_empty_product_diverges (ce := Expand.plainEngine)
           (imports := Expand.plainImports)).
  reflexivity.
Defined.

Lemma expandPower_empty_sum_diverges_witness :
  Accessors.ops_ (BoxedFunction "Add" []) = [] /\
  (forall fuel t,
     Expand.expandPower (ce := Expand.plainEngine) (imports := Expand.plainImports)
       fuel (BoxedFunction "Add" []) 2 t = None).
Proof.
  split; [reflexivity|].
  apply (expandPower_empty_sum_diverges (ce := Expand.plainEngine)
           (imports := Expand.plainImports) (BoxedFunction "Add" []) 2);
    [reflexivity|reflexivity|vm_compute; discriminate].
Defined.

(** ** Sums and products of rationals; the multinomial theorem *)

Section ValueSums.

Import Expand Value.

Local Open Scope Qc_scope.

Lemma ofZ_add (a b : Z) : ofZ (a + b) = ofZ a + ofZ b.
Proof.
  unfold ofZ, Qcplus. apply Q2Qc_eq_iff. cbn [this Q2Qc].
  rewrite !Qred_correct, inject_Z_plus. reflexivity.
Qed.

Lemma ofZ_mul (a b : Z) : ofZ (a * b) = ofZ a * ofZ b.
Proof.
  unfold ofZ, Qcmult. apply Q2Qc_eq_iff. cbn [this Q2Qc].
  rewrite !Qred_correct, inject_Z_mult. reflexivity.
Qed.

Lemma sumQ_app (xs ys : list Qc) : sumQ (xs ++ ys) = sumQ xs + sumQ ys.
Proof.
  induction xs as [|x xs IH]; cbn [app sumQ fold_right].
  - fold (sumQ ys). ring.
  - fold (sumQ (xs ++ ys)). fold (sumQ xs). rewrite IH. ring.
Qed.

Lemma prodQ_app (xs ys : list Qc) : prodQ (xs ++ ys) = prodQ xs * prodQ ys.
Proof.
  induction xs as [|x xs IH]; cbn [app prodQ fold_right].
  - fold (prodQ ys). ring.
  - fold (prodQ (xs ++ ys)). fold (prodQ xs). rewrite IH. ring.
Qed.

Lemma sumQ_cons (x : Qc) (xs : list Qc) : sumQ (x :: xs) = x + sumQ xs.
Proof. reflexivity. Qed.

Lemma prodQ_cons (x : Qc) (xs : list Qc) : prodQ (x :: xs) = x * prodQ xs.
Proof. reflexivity. Qed.

Lemma sumQ_concat (ls : list (list Qc)) : sumQ (List.concat ls) = sumQ (map sumQ ls).
Proof.
  induction ls as [|l ls IH]; [reflexivity|].
  cbn [List.concat map]. rewrite sumQ_app, sumQ_cons, IH. reflexivity.
Qed.

Lemma sumQ_map_ext {A : Type} (f g : A -> Qc) (l : list A) :
  (forall x, In x l -> f x = g x) -> sumQ (map f l) = sumQ (map g l).
Proof.
  induction l as [|x l IH]; intros H; [reflexivity|].
  cbn [map]. rewrite !sumQ_cons, (H x) by (left; reflexivity).
  rewrite IH by (intros y Hy; apply H; right; exact Hy). reflexivity.
Qed.

Lemma sumQ_map_add {A : Type} (f g : A -> Qc) (l : list A) :
  sumQ (map (fun x => f x + g x) l) = sumQ (map f l) + sumQ (map g l).
Proof.
  induction l as [|x l IH]; cbn [map]; [cbn; ring|]. rewrite !sumQ_cons, IH. ring.
Qed.

Lemma sumQ_map_scale {A : Type} (c : Qc) (f : A -> Qc) (l : list A) :
  sumQ (map (fun x => c * f x) l) = c * sumQ (map f l).
Proof.
  induction l as [|x l IH]; cbn [map]; [cbn; ring|]. rewrite !sumQ_cons, IH. ring.
Qed.

Lemma sumQ_map_scale_r {A : Type} (c : Qc) (f : A -> Qc) (l : list A) :
  sumQ (map (fun x => f x * c) l) = sumQ (map f l) * c.
Proof.
  induction l as [|x l IH]; cbn [map]; [cbn; ring|]. rewrite !sumQ_cons, IH. ring.
Qed.

Lemma sumQ_map_div {A : Type} (c : Qc) (f : A -> Qc) (l : list A) :
  sumQ (map (fun x => f x / c) l) = sumQ (map f l) / c.
Proof. unfold Qcdiv. apply sumQ_map_scale_r. Qed.

Lemma bsumQ_S_r f n : bsumQ f (S n) = bsumQ f n + f n.
Proof. unfold bsumQ. rewrite seq_S, map_app, sumQ_app. cbn. ring. Qed.

Lemma bsumQ_S_l f n : bsumQ f (S n) = f 0%nat + bsumQ (fun i => f (S i)) n.
Proof. unfold bsumQ. cbn [seq map]. rewrite sumQ_cons, <- seq_shift, map_map. reflexivity. Qed.

Lemma bsumQ_ext f g n : (forall i, (i < n)%nat -> f i = g i) -> bsumQ f n = bsumQ g n.
Proof. intros H. apply sumQ_map_ext. intros i Hi. apply in_seq in Hi. apply H. lia. Qed.

Lemma bsumQ_add f g n : bsumQ (fun i => f i + g i) n = bsumQ f n + bsumQ g n.
Proof. apply sumQ_map_add. Qed.

Lemma bsumQ_scale c f n : bsumQ (fun i => c * f i) n = c * bsumQ f n.
Proof. apply sumQ_map_scale. Qed.

(** The binomial theorem. *)
Lemma binomial_theoremQ (x y : Qc) (e : nat) :
  bsumQ (fun i => ofZ (binom e i) * x ^ i * y ^ (e - i)) (S e) = (x + y) ^ e.
Proof.
  induction e as [|e IH].
  - unfold bsumQ. cbn [seq map sumQ fold_right binom Nat.sub Qcpower]. 
    change (ofZ 1) with 1. ring.
  - change ((x + y) ^ S e) with ((x + y) * (x + y) ^ e). rewrite <- IH. clear IH.
    set (T := fun i => ofZ (binom e i) * x ^ i * y ^ (e - i)).
    set (U := fun i => ofZ (binom e (S i)) * x ^ S i * y ^ (e - i)).
    rewrite bsumQ_S_l.
    rewrite (bsumQ_ext _ (fun i => x * T i + U i)).
    2:{ intros i Hi. unfold T, U. cbn [binom]. rewrite ofZ_add.
        replace (S e - S i)%nat with (e - i)%nat by lia. cbn [Qcpower]. ring. }
    rewrite bsumQ_add, bsumQ_scale.
    rewrite (bsumQ_S_r U). unfold U at 2. rewrite (binom_gt e (S e)) by lia.
    assert (Hy : y * bsumQ T (S e) = y ^ S e + bsumQ U e).
    { rewrite <- bsumQ_scale.
      rewrite (bsumQ_ext _ (fun i => ofZ (binom e i) * x ^ i * y ^ (S e - i))).
      - rewrite bsumQ_S_l, binom_0_r. rewrite Nat.sub_0_r.
        rewrite (bsumQ_ext (fun i => ofZ (binom e (S i)) * x ^ S i * y ^ (S e - S i)) U)
          by (intros i Hi; unfold U; replace (S e - S i)%nat with (e - i)%nat by lia;
              reflexivity).
        change (ofZ 1) with 1. cbn [Qcpower]. ring.
      - intros i Hi. unfold T. replace (S e - i)%nat with (S (e - i)) by lia.
        cbn [Qcpower]. ring. }
    rewrite Qcmult_plus_distr_l, Hy, binom_0_r, Nat.sub_0_r.
    change (ofZ 1) with 1. change (ofZ 0) with 0. cbn [Qcpower]. ring.
Qed.

Lemma binomial_theorem_uptoQ (x y : Qc) (e : Z) :
  (0 <= e)%Z ->
  sumQ (map (fun i => ofZ (binom (Z.to_nat e) (Z.to_nat i))
                      * x ^ Z.to_nat i * y ^ Z.to_nat (e - i)) (upto e))
  = (x + y) ^ Z.to_nat e.
Proof.
  intros He. assert (Hn : e = Z.of_nat (Z.to_nat e)) by lia.
  revert Hn. generalize (Z.to_nat e) as n. intros n ->. clear He.
  rewrite upto_of_nat, map_map, <- binomial_theoremQ.
  apply sumQ_map_ext. intros i Hi. apply in_seq in Hi.
  rewrite !Nat2Z.id. replace (Z.to_nat (Z.of_nat n - Z.of_nat i)) with (n - i)%nat by lia.
  reflexivity.
Qed.

(** The multinomial theorem over the compositions that [powers] yields. *)
Lemma multinomial_theoremQ (xs : list Qc) (e : Z) :
  xs <> [] -> (0 <= e)%Z ->
  sumQ (map (fun p => ofZ (multinomial p) * monomialQ xs p) (compositions (length xs) e))
  = sumQ xs ^ Z.to_nat e.
Proof.
  revert e. induction xs as [|x xs IH]; intros e Hne He; [congruence|].
  destruct xs as [|x' xs].
  - cbn [length compositions map sumQ fold_right multinomial monomialQ sumZ].
    rewrite !Z.add_0_r, binom_diag, !Qcplus_0_r. change (ofZ (1 * 1)) with 1. ring.
  - set (ys := x' :: xs) in *.
    change (length (x :: ys)) with (S (length ys)).
    assert (Hlen : length ys = S (length xs)) by reflexivity.
    rewrite Hlen.
    change (compositions (S (S (length xs))) e)
      with (List.concat (map (fun i => map (cons i) (compositions (S (length xs)) (e - i)))
                             (upto e))).
    rewrite <- Hlen.
    rewrite concat_map, sumQ_concat, !map_map.
    rewrite (sumQ_map_ext _ (fun i => ofZ (binom (Z.to_nat e) (Z.to_nat i))
                                      * x ^ Z.to_nat i * sumQ ys ^ Z.to_nat (e - i))).
    + rewrite binomial_theorem_uptoQ by exact He. reflexivity.
    + intros i Hi. apply in_upto in Hi. rewrite map_map.
      rewrite <- IH by (subst ys; first [discriminate | lia]).
      rewrite <- sumQ_map_scale. apply sumQ_map_ext. intros q Hq.
      apply in_compositions in Hq as (_ & _ & Hsum); [|subst ys; simpl; lia|lia].
      cbn [multinomial monomialQ]. rewrite Hsum.
      replace (i + (e - i))%Z with e by lia. rewrite ofZ_mul. ring.
Qed.

End ValueSums.

(** ** The expansion preserves the value of an expression *)

Section ExpandSoundness.

Import Accessors Expand Value Counting.

Local Open Scope Qc_scope.

Context {ce : IComputeEngine} {imports : Imports}.

Lemma op1_application (h : string) (xs : list BoxedExpression) :
  op1 (BoxedFunction h xs) = default Nothing (xs !! 0%nat).
Proof. reflexivity. Qed.

Lemma op2_application (h : string) (xs : list BoxedExpression) :
  op2 (BoxedFunction h xs) = default Nothing (xs !! 1%nat).
Proof. reflexivity. Qed.

Lemma ops_application (h : string) (xs : list BoxedExpression) :
  ops_ (BoxedFunction h xs) = xs.
Proof. reflexivity. Qed.

Lemma distribute2_S (fuel : nat) (lhs rhs : BoxedExpression) :
  distribute2 (S fuel) lhs rhs =
    if isHead lhs "Negate" && isHead rhs "Negate" then
      distribute2 fuel (op1 lhs) (op1 rhs)
    else if isHead lhs "Negate" then
      r ← distribute2 fuel (op1 lhs) rhs; mret (canonicalNegate r)
    else if isHead rhs "Negate" then
      r ← distribute2 fuel lhs (op1 rhs); mret (canonicalNegate r)
    else if isHead lhs "Divide" && isHead rhs "Divide" then
      let denom := mul [op2 lhs; op2 rhs] in
      r ← distribute2 fuel (op1 lhs) (op1 rhs); mret (div r denom)
    else if isHead lhs "Divide" then
      r ← distribute2 fuel (op1 lhs) rhs; mret (div r (op2 lhs))
    else if isHead rhs "Divide" then
      r ← distribute2 fuel lhs (op1 rhs); mret (div r (op2 rhs))
    else if isHead lhs "Add" then
      xs ← mapM_ (fun x => distribute2 fuel x rhs) (ops_ lhs); mret (add xs)
    else if isHead rhs "Add" then
      xs ← mapM_ (fun x => distribute2 fuel lhs x) (ops_ rhs); mret (add xs)
    else mret (mul [lhs; rhs]).
Proof. reflexivity. Qed.

(** What a loop over a list returns, from what its body returns. *)
Lemma mapM__inv {A B : Type} (f : A -> M B) (P : Table -> Prop) (Q : A -> B -> Prop)
    (xs : list A) (t : Table) (ys : list B) (t' : Table) :
  (forall x s y s', In x xs -> P s -> f x s = Some (y, s') -> P s' /\ Q x y) ->
  P t -> mapM_ f xs t = Some (ys, t') -> P t' /\ Forall2 Q xs ys.
Proof.
  revert t ys. induction xs as [|x xs IH]; intros t ys Hf Ht Hrun.
  - injection Hrun as <- <-. split; [exact Ht|constructor].
  - cbn [mapM_] in Hrun. unfold mbind, M_bind in Hrun.
    destruct (f x t) as [[y t1]|] eqn:Hx; [|discriminate].
    destruct (mapM_ f xs t1) as [[ys' t2]|] eqn:Hxs; [|discriminate].
    injection Hrun as <- <-.
    destruct (Hf x t y t1 ltac:(left; reflexivity) Ht Hx) as [Ht1 Hq].
    destruct (IH t1 ys' ltac:(intros z s w s' Hz; apply Hf; right; exact Hz) Ht1 Hxs)
      as [Ht2 Hqs].
    split; [exact Ht2|constructor; assumption].
Qed.

Lemma Forall2_map_eq {A B C : Type} (f : B -> C) (g : A -> C) (xs : list A) (ys : list B) :
  Forall2 (fun x y => f y = g x) xs ys -> map f ys = map g xs.
Proof. induction 1 as [|x y xs ys H _ IH]; cbn [map]; [reflexivity|]. rewrite H, IH. reflexivity. Qed.

Lemma Qcpower_opp (a : Qc) (n : nat) :
  (- a) ^ n = if Z.odd (Z.of_nat n) then - a ^ n else a ^ n.
Proof.
  induction n as [|n IH]; [reflexivity|].
  change ((- a) ^ S n) with (- a * (- a) ^ n). rewrite IH.
  rewrite Nat2Z.inj_succ, Z.odd_succ, <- Z.negb_odd.
  destruct (Z.odd (Z.of_nat n)); cbn [negb Qcpower]; ring.
Qed.

Lemma powers_some (fuel : nat) (n exp : Z) (yields : list (list Z)) :
  (0 <= exp)%Z -> powers fuel n exp = Some yields ->
  (1 <= n)%Z /\ yields = compositions (Z.to_nat n) exp.
Proof.
  revert n exp yields. induction fuel as [|fuel IH]; intros n exp yields Hexp Hrun;
    [discriminate|].
  destruct (Z_le_gt_dec n 0) as [Hn|Hn].
  { rewrite powers_unbounded in Hrun by lia. discriminate. }
  split; [lia|]. cbn [powers] in Hrun.
  destruct (n =? 1)%Z eqn:E.
  - apply Z.eqb_eq in E. subst n. injection Hrun as <-. reflexivity.
  - apply Z.eqb_neq in E.
    destruct (mapM (fun i => map (cons i) <$> powers fuel (n - 1) (exp - i)) (upto exp))
      as [blocks|] eqn:Hblocks; [|discriminate].
    injection Hrun as <-.
    replace (Z.to_nat n) with (S (S (Z.to_nat (n - 2)))) by lia.
    change (compositions (S (S (Z.to_nat (n - 2)))) exp)
      with (List.concat (map (fun i => map (cons i)
                                         (compositions (S (Z.to_nat (n - 2))) (exp - i)))
                             (upto exp))).
    f_equal. apply mapM_Some in Hblocks.
    assert (Hin : forall i, In i (upto exp) -> (0 <= i <= exp)%Z) by (intros i; apply in_upto).
    revert Hin. clear -IH Hblocks E Hn.
    induction Hblocks as [|i block idxs blocks Hi _ IHb]; intros Hin; [reflexivity|].
    cbn [map]. rewrite <- IHb by (intros j Hj; apply Hin; right; exact Hj). f_equal.
    destruct (powers fuel (n - 1) (exp - i)) as [ys|] eqn:Hys; [|discriminate].
    injection Hi as <-.
    pose proof (Hin i ltac:(left; reflexivity)) as Hi.
    destruct (IH (n - 1)%Z (exp - i)%Z ys ltac:(lia) Hys) as [_ ->].
    replace (Z.to_nat (n - 1)) with (S (Z.to_nat (n - 2))) by lia. reflexivity.
Qed.

Section Valuation.

Variable denote : BoxedExpression -> Qc.
Hypothesis sound : Sound denote.

Lemma factors_denoteQ (terms : list BoxedExpression) (val : list Z) (i : nat) :
  Forall (fun v => (0 <= v)%Z) val -> (i + length val <= length terms)%nat ->
  prodQ (map denote (factors terms val i)) = monomialQ (map denote (drop i terms)) val.
Proof using sound.
  revert i. induction val as [|v val IH]; intros i Hval Hlen.
  - cbn. destruct (map denote (drop i terms)); reflexivity.
  - apply Forall_cons in Hval as [Hv Hval]. cbn [length] in Hlen.
    destruct (terms !! i) as [x|] eqn:Hx; [|apply lookup_ge_None in Hx; lia].
    rewrite (drop_S _ _ _ Hx). cbn [factors map monomialQ].
    rewrite map_app, prodQ_app, IH by (first [assumption | lia]).
    f_equal. rewrite Hx. change (default Nothing (Some x)) with x.
    destruct (v =? 0)%Z eqn:E0; [apply Z.eqb_eq in E0; subst v; reflexivity|].
    destruct (v =? 1)%Z eqn:E1.
    + apply Z.eqb_eq in E1. subst v. change (Z.to_nat 1) with 1%nat.
      cbn [map prodQ fold_right Qcpower]. ring.
    + cbn [map]. rewrite prodQ_cons, (build_pow denote sound) by exact Hv.
      unfold powQ. replace (v <? 0)%Z with false by (symmetry; apply Z.ltb_ge; lia).
      change (prodQ []) with 1. ring.
Qed.

Lemma termOf_denoteQ (terms : list BoxedExpression) (val : list Z) :
  Forall (fun v => (0 <= v)%Z) val -> length val = length terms ->
  denote (termOf terms val) = ofZ (multinomial val) * monomialQ (map denote terms) val.
Proof using sound.
  intros Hval Hlen. unfold termOf. rewrite (build_mul denote sound). cbn [map].
  rewrite prodQ_cons, (build_number denote sound), factors_denoteQ
    by (first [assumption | lia]).
  rewrite drop_0. reflexivity.
Qed.

(** *** [distribute2] *)

Lemma distribute2_sound (fuel : nat) (lhs rhs : BoxedExpression) (t : Table)
    (r : BoxedExpression) (t' : Table) :
  distribute2 fuel lhs rhs t = Some (r, t') ->
  t' = t /\ denote r = denote lhs * denote rhs.
Proof using sound.
  revert lhs rhs t r t'. induction fuel as [|fuel IH]; intros lhs rhs t r t' Hrun;
    [discriminate|].
  rewrite distribute2_S in Hrun. unfold mbind, M_bind, mret, M_ret in Hrun.
  destruct (isHead lhs "Negate") eqn:HlN; [apply isHead_eq in HlN|];
    (destruct (isHead rhs "Negate") eqn:HrN; [apply isHead_eq in HrN|]); cbn [andb] in Hrun.
  - apply IH in Hrun as [-> ->]. split; [reflexivity|].
    rewrite (node_Negate denote sound lhs HlN), (node_Negate denote sound rhs HrN). ring.
  - destruct (distribute2 fuel (op1 lhs) rhs t) as [[r0 t0]|] eqn:E; [|discriminate].
    injection Hrun as <- <-. apply IH in E as [-> E]. split; [reflexivity|].
    rewrite (build_canonicalNegate denote sound), E, (node_Negate denote sound lhs HlN). ring.
  - destruct (distribute2 fuel lhs (op1 rhs) t) as [[r0 t0]|] eqn:E; [|discriminate].
    injection Hrun as <- <-. apply IH in E as [-> E]. split; [reflexivity|].
    rewrite (build_canonicalNegate denote sound), E, (node_Negate denote sound rhs HrN). ring.
  - destruct (isHead lhs "Divide") eqn:HlD; [apply isHead_eq in HlD|];
      (destruct (isHead rhs "Divide") eqn:HrD; [apply isHead_eq in HrD|]); cbn [andb] in Hrun.
    + destruct (distribute2 fuel (op1 lhs) (op1 rhs) t) as [[r0 t0]|] eqn:E; [|discriminate].
      injection Hrun as <- <-. apply IH in E as [-> E]. split; [reflexivity|].
      rewrite (build_div denote sound), (build_mul denote sound), E,
        (node_Divide denote sound lhs HlD), (node_Divide denote sound rhs HrD).
      cbn [map]. rewrite !prodQ_cons. unfold Qcdiv. rewrite !Qcinv_mult_distr.
      change (prodQ []) with 1. change (/ 1) with 1. ring.
    + destruct (distribute2 fuel (op1 lhs) rhs t) as [[r0 t0]|] eqn:E; [|discriminate].
      injection Hrun as <- <-. apply IH in E as [-> E]. split; [reflexivity|].
      rewrite (build_div denote sound), E, (node_Divide denote sound lhs HlD).
      unfold Qcdiv. ring.
    + destruct (distribute2 fuel lhs (op1 rhs) t) as [[r0 t0]|] eqn:E; [|discriminate].
      injection Hrun as <- <-. apply IH in E as [-> E]. split; [reflexivity|].
      rewrite (build_div denote sound), E, (node_Divide denote sound rhs HrD).
      unfold Qcdiv. ring.
    + destruct (isHead lhs "Add") eqn:HlA; [apply isHead_eq in HlA|].
      * destruct (mapM_ (fun x => distribute2 fuel x rhs) (ops_ lhs) t) as [[xs t0]|] eqn:E;
          [|discriminate].
        injection Hrun as <- <-.
        apply (mapM__inv _ (fun s => s = t) (fun x y => denote y = denote x * denote rhs))
          in E as [-> Hxs]; [| |reflexivity].
        2:{ intros x s y s' _ -> Hx. apply IH in Hx as [-> Hx]. split; [reflexivity|exact Hx]. }
        split; [reflexivity|].
        rewrite (build_add denote sound), (node_Add denote sound lhs HlA).
        rewrite (Forall2_map_eq denote (fun x => denote x * denote rhs) _ _ Hxs).
        apply sumQ_map_scale_r.
      * destruct (isHead rhs "Add") eqn:HrA; [apply isHead_eq in HrA|].
        -- destruct (mapM_ (fun x => distribute2 fuel lhs x) (ops_ rhs) t) as [[xs t0]|] eqn:E;
             [|discriminate].
           injection Hrun as <- <-.
           apply (mapM__inv _ (fun s => s = t) (fun x y => denote y = denote lhs * denote x))
             in E as [-> Hxs]; [| |reflexivity].
           2:{ intros x s y s' _ -> Hx. apply IH in Hx as [-> Hx].
               split; [reflexivity|exact Hx]. }
           split; [reflexivity|].
           rewrite (build_add denote sound), (node_Add denote sound rhs HrA).
           rewrite (Forall2_map_eq denote (fun x => denote lhs * denote x) _ _ Hxs).
           apply sumQ_map_scale.
        -- injection Hrun as <- <-. split; [reflexivity|].
           rewrite (build_mul denote sound). cbn [map prodQ fold_right]. ring.
Qed.

(** *** Termination of [distribute2] *)

Lemma head_application (e : BoxedExpression) (name : string) :
  head e = name -> name <> "Number" -> name <> "Symbol" -> name <> "String" ->
  exists xs, e = BoxedFunction name xs.
Proof. destruct e; cbn [head]; intros <- H1 H2 H3; try congruence. eauto. Qed.

Lemma size_operand (h : string) (xs : list BoxedExpression) (x : BoxedExpression) :
  In x xs -> (size x < size (BoxedFunction h xs))%nat.
Proof.
  intros Hin. assert (H : (size x <= list_sum (map size xs))%nat).
  { induction xs as [|y xs IH]; [destruct Hin|]. simpl map. simpl list_sum.
    destruct Hin as [->|Hin]; [lia|]. specialize (IH Hin). lia. }
  cbn [size]. lia.
Qed.

Lemma size_op1 (h : string) (xs : list BoxedExpression) :
  (size (op1 (BoxedFunction h xs)) < size (BoxedFunction h xs))%nat.
Proof.
  unfold op1, ops_. cbn [ops default]. destruct xs as [|x xs]; cbn [lookup list_lookup default].
  - cbn. lia.
  - apply size_operand. left. reflexivity.
Qed.

Lemma mapM__stable {A B : Type} (F : nat -> A -> M B) (xs : list A) (fuel : nat) :
  (forall x, In x xs ->
     exists y, forall fuel', (fuel <= fuel')%nat -> forall t, F fuel' x t = Some (y, t)) ->
  exists ys, forall fuel', (fuel <= fuel')%nat -> forall t,
    mapM_ (F fuel') xs t = Some (ys, t).
Proof.
  induction xs as [|x xs IH]; intros Hf.
  - exists []. reflexivity.
  - destruct (Hf x ltac:(left; reflexivity)) as (y & Hy).
    destruct (IH ltac:(intros z Hz; apply Hf; right; exact Hz)) as (ys & Hys).
    exists (y :: ys). intros fuel' Hle t. cbn [mapM_]. unfold mbind, M_bind.
    rewrite (Hy fuel' Hle), (Hys fuel' Hle). reflexivity.
Qed.

(** [distribute2] returns once the budget exceeds the number of
    applications in its operands, and a larger budget or another table
    does not change what it returns. *)
Lemma distribute2_stable (fuel : nat) (lhs rhs : BoxedExpression) :
  (size lhs + size rhs < fuel)%nat ->
  exists r, forall fuel', (fuel <= fuel')%nat -> forall t,
    distribute2 fuel' lhs rhs t = Some (r, t).
Proof.
  revert lhs rhs. induction fuel as [|fuel IH]; intros lhs rhs Hfuel; [lia|].
  assert (Hl : forall name, isHead lhs name = true ->
             name <> "Number" -> name <> "Symbol" -> name <> "String" ->
             (size (op1 lhs) < size lhs)%nat /\
             (forall x, In x (ops_ lhs) -> (size x < size lhs)%nat)).
  { intros name H H1 H2 H3. apply isHead_eq in H.
    destruct (head_application lhs name H H1 H2 H3) as (xs & ->).
    split; [apply size_op1|]. intros x Hx. apply (size_operand name xs x Hx). }
  assert (Hr : forall name, isHead rhs name = true ->
             name <> "Number" -> name <> "Symbol" -> name <> "String" ->
             (size (op1 rhs) < size rhs)%nat /\
             (forall x, In x (ops_ rhs) -> (size x < size rhs)%nat)).
  { intros name H H1 H2 H3. apply isHead_eq in H.
    destruct (head_application rhs name H H1 H2 H3) as (xs & ->).
    split; [apply size_op1|]. intros x Hx. apply (size_operand name xs x Hx). }
  assert (Hrun : forall (body : nat -> M BoxedExpression) r,
             (forall fuel', distribute2 (S fuel') lhs rhs = body fuel') ->
             (forall fuel', (fuel <= fuel')%nat -> forall t, body fuel' t = Some (r, t)) ->
             exists r, forall fuel', (S fuel <= fuel')%nat -> forall t,
               distribute2 fuel' lhs rhs t = Some (r, t)).
  { intros body r Hbody Hr'. exists r. intros [|fuel'] Hle t; [lia|].
    rewrite Hbody. apply Hr'. lia. }
  destruct (isHead lhs "Negate") eqn:HlN;
    [destruct (Hl _ HlN ltac:(discriminate) ltac:(discriminate) ltac:(discriminate))
       as [HlN1 _]|];
    (destruct (isHead rhs "Negate") eqn:HrN;
     [destruct (Hr _ HrN ltac:(discriminate) ltac:(discriminate) ltac:(discriminate))
        as [HrN1 _]|]).
  - destruct (IH (op1 lhs) (op1 rhs) ltac:(lia)) as (r & Hr0).
    apply (Hrun (fun fuel' => distribute2 fuel' (op1 lhs) (op1 rhs)) r); [|exact Hr0].
    intros fuel'. rewrite distribute2_S, HlN, HrN. reflexivity.
  - destruct (IH (op1 lhs) rhs ltac:(lia)) as (r & Hr0).
    apply (Hrun (fun fuel' => r ← distribute2 fuel' (op1 lhs) rhs; mret (canonicalNegate r))
                (canonicalNegate r)).
    + intros fuel'. rewrite distribute2_S, HlN, HrN. reflexivity.
    + intros fuel' Hle t. unfold mbind, M_bind. rewrite (Hr0 fuel' Hle). reflexivity.
  - destruct (IH lhs (op1 rhs) ltac:(lia)) as (r & Hr0).
    apply (Hrun (fun fuel' => r ← distribute2 fuel' lhs (op1 rhs); mret (canonicalNegate r))
                (canonicalNegate r)).
    + intros fuel'. rewrite distribute2_S, HlN, HrN. reflexivity.
    + intros fuel' Hle t. unfold mbind, M_bind. rewrite (Hr0 fuel' Hle). reflexivity.
  - destruct (isHead lhs "Divide") eqn:HlD;
      [destruct (Hl _ HlD ltac:(discriminate) ltac:(discriminate) ltac:(discriminate))
         as [HlD1 _]|];
      (destruct (isHead rhs "Divide") eqn:HrD;
       [destruct (Hr _ HrD ltac:(discriminate) ltac:(discriminate) ltac:(discriminate))
          as [HrD1 _]|]).
    + destruct (IH (op1 lhs) (op1 rhs) ltac:(lia)) as (r & Hr0).
      apply (Hrun (fun fuel' => r ← distribute2 fuel' (op1 lhs) (op1 rhs);
                                mret (div r (mul [op2 lhs; op2 rhs])))
                  (div r (mul [op2 lhs; op2 rhs]))).
      * intros fuel'. rewrite distribute2_S, HlN, HrN, HlD, HrD. reflexivity.
      * intros fuel' Hle t. unfold mbind, M_bind. rewrite (Hr0 fuel' Hle). reflexivity.
    + destruct (IH (op1 lhs) rhs ltac:(lia)) as (r & Hr0).
      apply (Hrun (fun fuel' => r ← distribute2 fuel' (op1 lhs) rhs; mret (div r (op2 lhs)))
                  (div r (op2 lhs))).
      * intros fuel'. rewrite distribute2_S, HlN, HrN, HlD, HrD. reflexivity.
      * intros fuel' Hle t. unfold mbind, M_bind. rewrite (Hr0 fuel' Hle). reflexivity.
    + destruct (IH lhs (op1 rhs) ltac:(lia)) as (r & Hr0).
      apply (Hrun (fun fuel' => r ← distribute2 fuel' lhs (op1 rhs); mret (div r (op2 rhs)))
                  (div r (op2 rhs))).
      * intros fuel'. rewrite distribute2_S, HlN, HrN, HlD, HrD. reflexivity.
      * intros fuel' Hle t. unfold mbind, M_bind. rewrite (Hr0 fuel' Hle). reflexivity.
    + destruct (isHead lhs "Add") eqn:HlA.
      * destruct (Hl _ HlA ltac:(discriminate) ltac:(discriminate) ltac:(discriminate))
          as [_ HlA1].
        destruct (mapM__stable (fun fuel' x => distribute2 fuel' x rhs) (ops_ lhs) fuel)
          as (xs & Hxs).
        { intros x Hx. apply IH. specialize (HlA1 x Hx). lia. }
        apply (Hrun (fun fuel' => xs ← mapM_ (fun x => distribute2 fuel' x rhs) (ops_ lhs);
                                  mret (add xs)) (add xs)).
        -- intros fuel'. rewrite distribute2_S, HlN, HrN, HlD, HrD, HlA. reflexivity.
        -- intros fuel' Hle t. unfold mbind, M_bind. rewrite (Hxs fuel' Hle). reflexivity.
      * destruct (isHead rhs "Add") eqn:HrA.
        -- destruct (Hr _ HrA ltac:(discriminate) ltac:(discriminate) ltac:(discriminate))
             as [_ HrA1].
           destruct (mapM__stable (fun fuel' x => distribute2 fuel' lhs x) (ops_ rhs) fuel)
             as (xs & Hxs).
           { intros x Hx. apply IH. specialize (HrA1 x Hx). lia. }
           apply (Hrun (fun fuel' => xs ← mapM_ (fun x => distribute2 fuel' lhs x) (ops_ rhs);
                                     mret (add xs)) (add xs)).
           ++ intros fuel'. rewrite distribute2_S, HlN, HrN, HlD, HrD, HlA, HrA. reflexivity.
           ++ intros fuel' Hle t. unfold mbind, M_bind. rewrite (Hxs fuel' Hle). reflexivity.
        -- apply (Hrun (fun _ => mret (mul [lhs; rhs])) (mul [lhs; rhs])).
           ++ intros fuel'. rewrite distribute2_S, HlN, HrN, HlD, HrD, HlA, HrA. reflexivity.
           ++ reflexivity.
Qed.

(** [distribute] on a product with at least one operand returns, and a
    larger budget or another table does not change what it returns. *)
Lemma distribute_Multiply_stable (ops : list BoxedExpression) :
  ops <> [] ->
  exists fuel r, forall fuel', (fuel <= fuel')%nat -> forall t,
    distribute fuel' "Multiply" ops t = Some (Some r, t).
Proof.
  induction ops as [|x ops IH]; intros Hne; [congruence|]. clear Hne.
  destruct ops as [|y ops].
  { exists 1%nat, x. intros [|fuel'] Hle t; [lia|]. rewrite distribute_S. reflexivity. }
  destruct ops as [|z ops].
  { destruct (distribute2_stable (S (size x + size y)) x y ltac:(lia)) as (r & Hr).
    exists (S (S (size x + size y))), r.
    intros [|fuel'] Hle t; [lia|]. rewrite distribute_S.
    cbn [String.eqb Ascii.eqb Bool.eqb]. unfold mbind, M_bind.
    rewrite (Hr fuel') by lia. reflexivity. }
  destruct (IH ltac:(discriminate)) as (fuel1 & rhs & Hrhs).
  destruct (distribute2_stable (S (size x + size rhs)) x rhs ltac:(lia)) as (r & Hr).
  exists (S (Nat.max fuel1 (S (size x + size rhs)))), r.
  intros [|fuel'] Hle t; [lia|]. rewrite distribute_S.
  cbn [String.eqb Ascii.eqb Bool.eqb tail lookup list_lookup default].
  unfold mbind, M_bind. rewrite (Hrhs fuel') by lia. rewrite (Hr fuel') by lia.
  reflexivity.
Qed.

(** *** Termination of [expand] *)

Lemma multinomialLoop_returns (k : list Z) (n : Z) (prod : JSNumber) (t : Table) :
  Forall (fun v => 0 <= v)%Z k -> (sumZ k <= n)%Z ->
  exists res, multinomialLoop k n prod t = Some res.
Proof.
  intros Hk. revert n prod t.
  induction Hk as [|ki k Hki Hk IH]; intros n prod t Hn; cbn [multinomialLoop].
  - eexists. reflexivity.
  - cbn [sumZ fold_right] in Hn. fold (sumZ k) in Hn.
    pose proof (sumZ_nonneg k Hk) as Hsum.
    destruct (choose_total n ki t ltac:(lia)) as (c & t1 & Hchoose).
    unfold mbind, M_bind. rewrite Hchoose. apply IH. lia.
Qed.

Lemma term_returns (terms : list BoxedExpression) (val : list Z) (t : Table) :
  Forall (fun v => 0 <= v)%Z val -> exists res, term terms val t = Some res.
Proof.
  intros Hval. unfold term, mbind, M_bind, multinomialCoefficient.
  rewrite fold_left_sumZ, Z.add_0_l.
  destruct (multinomialLoop_returns val (sumZ val) (Finite 1) t Hval ltac:(lia))
    as ([c t'] & ->).
  eexists. reflexivity.
Qed.

Lemma mapM__returns {A B : Type} (f : A -> M B) (xs : list A) :
  (forall x, In x xs -> forall t, exists res, f x t = Some res) ->
  forall t, exists res, mapM_ f xs t = Some res.
Proof.
  induction xs as [|x xs IH]; intros Hf t.
  - eexists. reflexivity.
  - destruct (Hf x ltac:(left; reflexivity) t) as ([y t1] & Hy).
    destruct (IH ltac:(intros z Hz; apply Hf; right; exact Hz) t1) as ([ys t2] & Hys).
    eexists. cbn [mapM_]. unfold mbind, M_bind. rewrite Hy, Hys. reflexivity.
Qed.

(** Finitely many budgets have a common bound. *)
Lemma eventually_all {A : Type} (P : A -> nat -> Prop) (xs : list A) :
  (forall x, In x xs -> exists fuel, forall fuel', (fuel <= fuel')%nat -> P x fuel') ->
  exists fuel, forall fuel', (fuel <= fuel')%nat -> forall x, In x xs -> P x fuel'.
Proof.
  induction xs as [|x xs IH]; intros H.
  - exists 0%nat. intros _ _ x [].
  - destruct (H x ltac:(left; reflexivity)) as (f1 & H1).
    destruct (IH ltac:(intros z Hz; apply H; right; exact Hz)) as (f2 & H2).
    exists (Nat.max f1 f2). intros fuel' Hle z [<-|Hz].
    + apply H1. lia.
    + apply H2; [lia|exact Hz].
Qed.

Lemma wellFormed_operands (h : string) (xs : list BoxedExpression) (x : BoxedExpression) :
  wellFormed (BoxedFunction h xs) = true -> In x xs -> wellFormed x = true.
Proof.
  cbn [wellFormed]. intros H%andb_true_iff Hx. destruct H as [_ H].
  rewrite forallb_forall in H. exact (H x Hx).
Qed.

(** An atom is not expanded: [expand] returns [null] (or the relation
    rebuilt). *)
Lemma atom_halts (expr : BoxedExpression) :
  ops expr = None ->
  (forall fuel', (2 <= fuel')%nat -> forall t,
     exists res, expand fuel' (Some expr) t = Some res) /\
  (forall fuel', (4 <= fuel')%nat -> forall exp t,
     exists res, expandPower fuel' expr exp t = Some res).
Proof.
  intros Hatom.
  assert (Hheads : isHead expr "Divide" = false /\ isHead expr "Negate" = false /\
                   isHead expr "Add" = false /\
                   String.eqb (head expr) "Multiply" = false /\
                   String.eqb (head expr) "Add" = false /\
                   String.eqb (head expr) "Negate" = false /\
                   String.eqb (head expr) "Power" = false /\ ops_ expr = []).
  { destruct expr; try discriminate; repeat split; reflexivity. }
  destruct Hheads as (HD & HN & HA & HM' & HA' & HN' & HP' & Hops).
  assert (He : forall fuel', (2 <= fuel')%nat -> forall t,
            exists res, expand fuel' (Some expr) t = Some res).
  { intros [|[|fuel']] Hle t; [lia|lia|]. rewrite expand_S. cbn zeta.
    destruct (isRelationalOperator (head expr)).
    - rewrite Hops. eexists. reflexivity.
    - rewrite expandNumerator_S, HD, HM', HA', HN', HP'. eexists. reflexivity. }
  split; [exact He|].
  assert (Hpos : forall fuel', (3 <= fuel')%nat -> forall exp t, (0 <= exp)%Z ->
            exists res, expandPower fuel' expr exp t = Some res).
  { intros [|fuel'] Hle exp t Hexp; [lia|]. rewrite expandPower_S.
    replace (exp <? 0)%Z with false by (symmetry; apply Z.ltb_ge; lia).
    destruct (exp =? 0)%Z; [eexists; reflexivity|].
    destruct (exp =? 1)%Z; [apply He; lia|].
    rewrite HN, HA. eexists. reflexivity. }
  intros [|fuel'] Hle exp t; [lia|].
  destruct (Z.ltb_spec exp 0) as [Hneg|Hnonneg]; [|apply Hpos; lia].
  rewrite expandPower_S.
  replace (exp <? 0)%Z with true by (symmetry; apply Z.ltb_lt; lia).
  unfold mbind, M_bind.
  destruct (Hpos fuel' ltac:(lia) (- exp)%Z t ltac:(lia)) as ([o t1] & ->).
  eexists. reflexivity.
Qed.

Lemma expand_halts_below (n : nat) :
  forall expr, (size expr < n)%nat -> wellFormed expr = true ->
    (exists fuel, forall fuel', (fuel <= fuel')%nat -> forall t,
       exists res, expand fuel' (Some expr) t = Some res) /\
    (exists fuel, forall fuel', (fuel <= fuel')%nat -> forall exp t,
       exists res, expandPower fuel' expr exp t = Some res).
Proof.
  induction n as [|n IH]; intros expr Hsize Hwf; [lia|].
  destruct expr as [re im|s|s|h xs];
    try (match goal with
         | |- context [expand _ (Some ?a)] =>
             destruct (atom_halts a eq_refl) as [He Hp]
         end; split; [exists 2%nat; exact He|exists 4%nat; exact Hp]).
  set (expr := BoxedFunction h xs) in *.
  (* the first operand, and every operand, is smaller and well formed *)
  assert (Hop1 : exists fuel, forall fuel', (fuel <= fuel')%nat ->
            (forall t, exists res, expand fuel' (Some (op1 expr)) t = Some res) /\
            (forall exp t, exists res, expandPower fuel' (op1 expr) exp t = Some res)).
  { subst expr. rewrite op1_application. destruct xs as [|x xs'].
    - destruct (atom_halts Nothing eq_refl) as [He Hp].
      exists 4%nat. intros fuel' Hle. split; intros; [apply He|apply Hp]; lia.
    - cbn [lookup list_lookup default].
      destruct (IH x) as [(f1 & He) (f2 & Hp)].
      + pose proof (size_operand h (x :: xs') x ltac:(left; reflexivity)). lia.
      + apply (wellFormed_operands h (x :: xs') x Hwf). left. reflexivity.
      + exists (Nat.max f1 f2). intros fuel' Hle.
        split; intros; [apply He|apply Hp]; lia. }
  destruct Hop1 as (f1 & Hop1).
  assert (Hops : exists fuel, forall fuel', (fuel <= fuel')%nat ->
            forall x, In x xs -> forall t, exists res, expand fuel' (Some x) t = Some res).
  { apply (eventually_all
             (fun x fuel' => forall t, exists res, expand fuel' (Some x) t = Some res)).
    intros x Hx.
    apply (IH x); [pose proof (size_operand h xs x Hx); subst expr; lia|].
    exact (wellFormed_operands h xs x Hwf Hx). }
  destruct Hops as (f2 & Hops).
  assert (Hnum : forall fuel', (S f1 <= fuel')%nat -> forall t,
            exists res, expandNumerator fuel' expr t = Some res).
  { intros [|fuel'] Hle t; [lia|]. rewrite expandNumerator_S.
    destruct (isHead expr "Divide"); cbn [negb]; [|eexists; reflexivity].
    unfold mbind, M_bind.
    destruct (proj1 (Hop1 fuel' ltac:(lia)) t) as ([[en|] t1] & ->); [|eexists; reflexivity].
    destruct (isHead en "Add"); eexists; reflexivity. }
  assert (Hne : (String.eqb h "Multiply" || String.eqb h "Add") = true -> xs <> []).
  { intros Hh ->. subst expr. cbn [wellFormed] in Hwf. rewrite Hh in Hwf. discriminate. }
  assert (Hmul : exists fuel, h = "Multiply" ->
            forall fuel', (fuel <= fuel')%nat -> forall t,
              exists res, distribute fuel' "Multiply" xs t = Some res).
  { destruct (String.eqb_spec h "Multiply") as [->|Hh].
    - destruct (distribute_Multiply_stable xs (Hne eq_refl)) as (f & r & Hr).
      exists f. intros _ fuel' Hle t. rewrite (Hr fuel' Hle). eexists. reflexivity.
    - exists 0%nat. intros ->. congruence. }
  destruct Hmul as (f3 & Hmul).
  assert (He : forall fuel', (S (S (Nat.max f1 (Nat.max f2 f3))) <= fuel')%nat -> forall t,
            exists res, expand fuel' (Some expr) t = Some res).
  { intros [|fuel'] Hle t; [lia|]. rewrite expand_S. cbn zeta.
    change (head expr) with h. change (ops_ expr) with xs.
    destruct (isRelationalOperator h).
    { unfold mbind at 1, M_bind at 1.
      match goal with
      | |- context [mapM_ ?f xs t] =>
          destruct (mapM__returns f xs) with (t := t) as ([ys t1] & ->)
      end; [|eexists; reflexivity].
      intros x Hx s. unfold mbind, M_bind.
      destruct (Hops fuel' ltac:(lia) x Hx s) as ([o1 s1] & ->). eexists. reflexivity. }
    unfold mbind at 1, M_bind at 1.
    destruct (Hnum fuel' ltac:(lia) t) as ([[result|] t1] & ->); [eexists; reflexivity|].
    destruct (String.eqb_spec h "Multiply") as [HM|_]; [apply Hmul; [exact HM|lia]|].
    destruct (String.eqb_spec h "Add") as [_|_]; [eexists; reflexivity|].
    destruct (String.eqb_spec h "Negate") as [_|_].
    { unfold mbind, M_bind.
      destruct (proj1 (Hop1 fuel' ltac:(lia)) t1) as ([[op|] t2] & ->); eexists; reflexivity. }
    destruct (String.eqb_spec h "Power") as [_|_]; [|eexists; reflexivity].
    destruct fuel' as [|fuel']; [lia|]. rewrite expandMultinomial_S.
    destruct (isHead expr "Power"); cbn [negb]; [|eexists; reflexivity].
    destruct (asMachineInteger (op2 expr)) as [exp|]; [|eexists; reflexivity].
    apply (Hop1 fuel'). lia. }
  split; [eexists; exact He|].
  set (bound := S (S (S (Nat.max f1 (Nat.max f2 (Nat.max f3 (length xs))))))).
  assert (Hpos : forall fuel', (bound <= fuel')%nat -> forall exp t, (0 <= exp)%Z ->
            exists res, expandPower fuel' expr exp t = Some res).
  { subst bound. intros [|fuel'] Hle exp t Hexp; [lia|]. rewrite expandPower_S.
    replace (exp <? 0)%Z with false by (symmetry; apply Z.ltb_ge; lia).
    destruct (exp =? 0)%Z; [eexists; reflexivity|].
    destruct (exp =? 1)%Z; [apply He; lia|].
    destruct (isHead expr "Negate").
    { cbn zeta. unfold mbind, M_bind.
      destruct (proj2 (Hop1 fuel' ltac:(lia)) exp t) as ([[result|] t1] & ->);
        eexists; reflexivity. }
    destruct (isHead expr "Add") eqn:HA; cbn [negb]; [|eexists; reflexivity].
    cbn zeta. change (ops_ expr) with xs.
    apply isHead_eq in HA. change (head expr) with h in HA.
    assert (Hxs : xs <> []) by (apply Hne; rewrite HA; reflexivity).
    unfold mbind at 1, M_bind at 1, lift.
    rewrite powers_compositions
      by (first [lia | destruct xs; [congruence|cbn [length]; lia]]).
    unfold mbind, M_bind.
    destruct (mapM__returns (term xs) (compositions (length xs) exp)) with (t := t)
      as ([result t1] & ->); [|eexists; reflexivity].
    intros val Hval s. apply term_returns.
    apply in_compositions in Hval as (_ & Hpos & _);
      [exact Hpos | destruct xs; [congruence|cbn [length]; lia] | lia]. }
  exists (S bound). intros [|fuel'] Hle exp t; [lia|].
  destruct (Z.ltb_spec exp 0) as [Hneg|Hnonneg]; [|apply Hpos; lia].
  rewrite expandPower_S.
  replace (exp <? 0)%Z with true by (symmetry; apply Z.ltb_lt; lia).
  unfold mbind, M_bind.
  destruct (Hpos fuel' ltac:(lia) (- exp)%Z t ltac:(lia)) as ([o t1] & ->).
  eexists. reflexivity.
Qed.

(** X10. [distribute2(lhs, rhs)] returns for every pair of expressions,
    within a number of nested calls bounded by the number of applications
    in the two operands, and without touching the table [binomials]; a
    larger budget does not change the result. Under a sound valuation the
    value of the result is the product of the values of [lhs] and [rhs]:
    signs, denominators and sums are distributed without changing the
    value. *)
Theorem distribute2_spec (fuel : nat) (lhs rhs : BoxedExpression) :
  (size lhs + size rhs < fuel)%nat ->
  exists r,
    (forall fuel', (fuel <= fuel')%nat -> forall t,
       distribute2 fuel' lhs rhs t = Some (r, t)) /\
    denote r = denote lhs * denote rhs.
Proof using sound.
  intros Hfuel. destruct (distribute2_stable fuel lhs rhs Hfuel) as (r & Hrun).
  exists r. split; [exact Hrun|].
  exact (proj2 (distribute2_sound fuel lhs rhs [] r [] (Hrun fuel ltac:(lia) []))).
Qed.

Lemma keeps_ret {A : Type} (guard : Prop) (a : A) (R : A -> Prop) :
  R a -> keeps guard (mret a) R.
Proof. intros Ha t a' t' Ht [= <- <-]. split; [exact Ht|]. split; [lia|]. intros _. exact Ha. Qed.

Lemma keeps_impl {A : Type} (guard : Prop) (m : M A) (R R' : A -> Prop) :
  (forall a, R a -> R' a) -> keeps guard m R -> keeps guard m R'.
Proof.
  intros Himpl Hm t a t' Ht Hrun. destruct (Hm t a t' Ht Hrun) as (Ht' & Hlen & Ha).
  split; [exact Ht'|]. split; [exact Hlen|]. intros Hsmall. apply Himpl, Ha, Hsmall.
Qed.

Lemma keeps_guard {A : Type} (guard guard' : Prop) (m : M A) (R : A -> Prop) :
  (guard' -> guard) -> keeps guard m R -> keeps guard' m R.
Proof.
  intros Hg Hm t a t' Ht Hrun. destruct (Hm t a t' Ht Hrun) as (Ht' & Hlen & Ha).
  split; [exact Ht'|]. split; [exact Hlen|]. intros [H|H]; apply Ha; [left; apply Hg, H|right; exact H].
Qed.

(** The rows are only added: when the table is short in the end, it was
    short after the first computation. *)
Lemma keeps_bind {A B : Type} (guard : Prop) (m : M A) (R : A -> Prop) (k : A -> M B)
    (R' : B -> Prop) :
  keeps guard m R -> (forall a, keeps guard (k a) (fun b => R a -> R' b)) ->
  keeps guard (m ≫= k) R'.
Proof.
  intros Hm Hk t b t' Ht Hrun. unfold mbind, M_bind in Hrun.
  destruct (m t) as [[a t1]|] eqn:E; [|discriminate].
  destruct (Hm t a t1 Ht E) as (Ht1 & Hlen1 & Ha).
  destruct (Hk a t1 b t' Ht1 Hrun) as (Ht' & Hlen & Hb).
  split; [exact Ht'|]. split; [lia|]. intros Hsmall. apply Hb; [exact Hsmall|].
  apply Ha. destruct Hsmall as [H|H]; [left; exact H|right; lia].
Qed.

Lemma mapM__keeps {A B : Type} (guard : Prop) (f : A -> M B) (Q : A -> B -> Prop)
    (xs : list A) :
  (forall x, In x xs -> keeps guard (f x) (Q x)) -> keeps guard (mapM_ f xs) (Forall2 Q xs).
Proof.
  induction xs as [|x xs IH]; intros Hf; cbn [mapM_].
  - apply keeps_ret. constructor.
  - apply (keeps_bind _ _ (Q x)); [apply Hf; left; reflexivity|]. intros y.
    apply (keeps_bind _ _ (Forall2 Q xs));
      [apply IH; intros z Hz; apply Hf; right; exact Hz|].
    intros ys. apply keeps_ret. intros Hys Hy. constructor; assumption.
Qed.

Lemma preserves_None (guard P : Prop) (v : Qc) : preserves denote guard P (mret None) v.
Proof. apply keeps_ret. intros _ r [=]. Qed.

Lemma preserves_Some (guard P : Prop) (r : BoxedExpression) (v : Qc) :
  (P -> denote r = v) -> preserves denote guard P (mret (Some r)) v.
Proof. intros Hr. apply keeps_ret. intros HP r' [= <-]. exact (Hr HP). Qed.

Lemma preserves_bind {A : Type} (guard P : Prop) (m : M A) (R : A -> Prop)
    (k : A -> M (option BoxedExpression)) (v : Qc) :
  keeps guard m R ->
  (forall a, preserves denote guard (P /\ R a) (k a) v) ->
  preserves denote guard P (m ≫= k) v.
Proof.
  intros Hm Hk. apply (keeps_bind _ _ R); [exact Hm|]. intros a.
  eapply keeps_impl; [|exact (Hk a)]. cbn beta. intros o Ho Ha HP. apply Ho. split; assumption.
Qed.

Lemma preserves_diverge (guard P : Prop) (v : Qc) : preserves denote guard P diverge v.
Proof. intros t o t' _ [=]. Qed.

(** The result of a call, for a caller whose own condition implies the
    condition of the call. *)
Lemma preserves_call (guard guard' : Prop) (m : M (option BoxedExpression)) (v : Qc) :
  (guard' -> guard) ->
  preserves denote guard True m v ->
  keeps guard' m (fun o => forall r, o = Some r -> denote r = v).
Proof.
  intros Hg Hm. apply (keeps_guard guard); [exact Hg|].
  revert Hm. apply keeps_impl. intros o Ho. apply Ho. exact I.
Qed.

Lemma preserves_tail_call (guard guard' P : Prop) (m : M (option BoxedExpression)) (v : Qc) :
  (guard' -> guard) ->
  preserves denote guard True m v -> preserves denote guard' P m v.
Proof.
  intros Hg Hm. apply (keeps_guard guard); [exact Hg|].
  revert Hm. apply keeps_impl. intros o Ho _. apply Ho. exact I.
Qed.

(** *** Expressions with small exponents *)

Lemma small_operand (h : string) (xs : list BoxedExpression) (x : BoxedExpression) :
  smallExponents (BoxedFunction h xs) = true -> In x xs -> smallExponents x = true.
Proof.
  cbn [smallExponents]. intros H%andb_true_iff Hx. destruct H as [_ H].
  rewrite forallb_forall in H. exact (H x Hx).
Qed.

Lemma small_ops_ (expr x : BoxedExpression) :
  smallExponents expr = true -> In x (ops_ expr) -> smallExponents x = true.
Proof. destruct expr as [| | |h xs]; try (intros _ []). apply small_operand. Qed.

Lemma small_op1 (expr : BoxedExpression) :
  smallExponents expr = true -> smallExponents (op1 expr) = true.
Proof.
  destruct expr as [| | |h xs]; try reflexivity. intros H. rewrite op1_application.
  destruct (xs !! 0%nat) as [x|] eqn:Hx; [|reflexivity].
  apply (small_operand h xs x H), list_elem_of_In. eapply list_elem_of_lookup_2, Hx.
Qed.


Lemma small_exponent (expr : BoxedExpression) (exp : Z) :
  smallExponents expr = true -> head expr = "Power" ->
  asMachineInteger (op2 expr) = Some exp -> (Z.abs exp < Z.of_nat exactRows)%Z.
Proof.
  destruct expr as [| | |h xs]; try discriminate. cbn [head]. intros H -> Hexp.
  rewrite op2_application in Hexp. cbn [smallExponents String.eqb Ascii.eqb Bool.eqb] in H.
  rewrite Hexp in H. apply andb_true_iff in H as [H _]. apply Z.ltb_lt, H.
Qed.

Lemma small_Multiply (expr : BoxedExpression) :
  smallExponents expr = true -> head expr = "Multiply" ->
  smallExponents (BoxedFunction "Multiply" (ops_ expr)) = true.
Proof. destruct expr as [| | |h xs]; try discriminate. cbn [head]. intros H ->. exact H. Qed.

Lemma small_tail (x : BoxedExpression) (xs : list BoxedExpression) :
  smallExponents (BoxedFunction "Multiply" (x :: xs)) = true ->
  smallExponents (BoxedFunction "Multiply" xs) = true.
Proof.
  cbn [smallExponents String.eqb Ascii.eqb Bool.eqb forallb andb].
  intros [_ H]%andb_true_iff. exact H.
Qed.

(** *** The terms of the multinomial expansion *)

Lemma factorial_mono (m n : nat) : (m <= n)%nat -> (factorial m <= factorial n)%Z.
Proof.
  induction 1 as [|n _ IH]; [lia|]. cbn [factorial].
  pose proof (factorial_pos n). nia.
Qed.

(** A multinomial coefficient of an exponent below [exactRows] is at most
    [2^53]. *)
Lemma multinomial_small (val : list Z) :
  Forall (fun v => 0 <= v)%Z val -> (sumZ val < Z.of_nat exactRows)%Z ->
  (multinomial val <= maxExact)%Z.
Proof.
  intros Hval Hsum. pose proof (multinomial_factorials val Hval) as Hfact.
  pose proof (sumZ_nonneg val Hval) as Hpos.
  assert (Hden : (1 <= factorials val)%Z).
  { clear. unfold factorials. induction val as [|ki k IH]; cbn [map prodZ fold_right]; [lia|].
    pose proof (factorial_pos (Z.to_nat ki)).
    fold (prodZ (map (fun ki => factorial (Z.to_nat ki)) k)). nia. }
  pose proof (multinomial_pos val Hval) as Hm.
  assert (Hle : (multinomial val <= factorial (Z.to_nat (sumZ val)))%Z) by nia.
  pose proof (factorial_mono (Z.to_nat (sumZ val)) 18 ltac:(unfold exactRows in Hsum; lia)) as H18.
  assert (Hmax : (factorial 18 <= maxExact)%Z) by (vm_compute; discriminate).
  lia.
Qed.

Lemma term_keeps (guard : Prop) (terms : list BoxedExpression) (val : list Z) :
  Forall (fun v => 0 <= v)%Z val -> val <> [] ->
  (guard -> (sumZ val < Z.of_nat exactRows)%Z) ->
  keeps guard (term terms val) (fun y => y = termOf terms val).
Proof.
  intros Hval Hne Hguard t y t' Ht Hrun.
  destruct (term_frame terms val t y t' Ht Hrun) as (Ht' & Hlen & Hsum).
  split; [exact Ht'|]. split; [exact Hlen|]. intros Hsmall.
  destruct (term_spec terms val t Ht Hval) as (t'' & Hterm & _).
  { apply multinomial_small; [exact Hval|].
    destruct Hsmall as [H|H]; [exact (Hguard H)|]. specialize (Hsum Hne). lia. }
  congruence.
Qed.

(** The functions of the expansion preserve the value: [expandPower] for an
    exponent below [exactRows] in absolute value, all of them on
    expressions with small exponents, and in any case when the table is
    short in the end. *)
Lemma expand_sound_all (fuel : nat) :
  (forall h ops,
     preserves denote (h = "Multiply" /\ smallExponents (BoxedFunction h ops) = true) True
       (distribute fuel h ops) (denote (BoxedFunction h ops))) /\
  (forall base exp,
     preserves denote ((Z.abs exp < Z.of_nat exactRows)%Z /\ smallExponents base = true) True
       (expandPower fuel base exp) (powQ (denote base) exp)) /\
  (forall expr,
     preserves denote (smallExponents expr = true) True
       (expandMultinomial fuel expr) (denote expr)) /\
  (forall expr,
     preserves denote (smallExponents expr = true) True
       (expandNumerator fuel expr) (denote expr)) /\
  (forall expr,
     preserves denote (smallExponents expr = true) True
       (expand fuel (Some expr)) (denote expr)).
Proof using sound.
  induction fuel as [|fuel (IHd & IHp & IHm & IHn & IHe)].
  { split; [|split; [|split; [|split]]]; intros; apply preserves_diverge. }
  assert (Hd2 : forall guard x y,
             keeps guard (distribute2 fuel x y) (fun a => denote a = denote x * denote y)).
  { intros guard x y t a t' Ht Hrun. apply distribute2_sound in Hrun as [-> Hrun].
    split; [exact Ht|]. split; [lia|]. intros _. exact Hrun. }
  split; [|split; [|split; [|split]]].
  - (* distribute *)
    intros h ops. rewrite distribute_S.
    destruct (String.eqb_spec h "Power") as [->|_].
    { destruct (ops !! 1%nat ≫= asMachineInteger) as [exp|] eqn:Hexp;
        [|apply preserves_None].
      replace (denote (BoxedFunction "Power" ops))
        with (powQ (denote (default Nothing (ops !! 0%nat))) exp);
        [eapply preserves_tail_call; [|apply IHp]; intros [[=] _]|].
      symmetry. apply (node_Power denote sound (BoxedFunction "Power" ops) exp);
        [reflexivity|].
      rewrite op2_application.
      destruct (ops !! 1%nat) as [y|]; [exact Hexp|discriminate]. }
    destruct (String.eqb_spec h "Negate") as [->|_].
    { replace (denote (BoxedFunction "Negate" ops))
        with (denote (BoxedFunction "Multiply" [NegativeOne; default Nothing (ops !! 0%nat)]));
        [eapply preserves_tail_call; [|apply IHd]; intros [[=] _]|].
      rewrite (node_Multiply denote sound (BoxedFunction "Multiply" _)) by reflexivity.
      rewrite (node_Negate denote sound (BoxedFunction "Negate" ops)) by reflexivity.
      rewrite op1_application, ops_application. cbn [map].
      rewrite !prodQ_cons, (build_NegativeOne denote sound). change (prodQ []) with 1. ring. }
    destruct (String.eqb_spec h "Divide") as [->|_].
    { destruct (ops !! 0%nat ≫= Accessors.ops) as [ops0|] eqn:Hops0;
        [|apply preserves_None].
      destruct (ops !! 0%nat) as [o|] eqn:Ho; [|discriminate].
      cbn in Hops0. destruct o as [| | |h0 xs0]; try discriminate.
      injection Hops0 as ->. cbn [default head].
      apply (preserves_bind _ _ _
               (fun num => forall r, num = Some r -> denote r = denote (BoxedFunction h0 ops0))).
      - eapply preserves_call; [|apply IHd]. intros [[=] _].
      - intros [num|]; [|apply preserves_None]. apply preserves_Some. intros [_ Hnum].
        rewrite (build_div denote sound), (Hnum num eq_refl).
        rewrite (node_Divide denote sound (BoxedFunction "Divide" ops)) by reflexivity.
        rewrite op1_application, op2_application, Ho. reflexivity. }
    destruct (String.eqb_spec h "Multiply") as [->|_]; [|apply preserves_None].
    rewrite (node_Multiply denote sound (BoxedFunction "Multiply" ops)) by reflexivity.
    rewrite ops_application.
    destruct ops as [|x [|y [|z rest]]].
    + intros t o t' _ Hrun. exfalso. revert Hrun. cbn [tail].
      unfold mbind, M_bind. rewrite distribute_no_operands. discriminate.
    + apply preserves_Some. intros _. cbn [map]. rewrite prodQ_cons.
      change (prodQ []) with 1. ring.
    + apply (preserves_bind _ _ _ (fun r => denote r = denote x * denote y)).
      * apply Hd2.
      * intros r. apply preserves_Some. intros [_ Hr]. rewrite Hr. cbn [map].
        rewrite !prodQ_cons. change (prodQ []) with 1. ring.
    + cbn [tail lookup list_lookup default].
      apply (preserves_bind _ _ _
               (fun rhs => forall r, rhs = Some r ->
                  denote r = denote (BoxedFunction "Multiply" (y :: z :: rest)))).
      * eapply preserves_call; [|apply IHd]. intros [_ H].
        split; [reflexivity|]. exact (small_tail _ _ H).
      * intros [rhs|]; [|apply preserves_None].
        apply (preserves_bind _ _ _ (fun r => denote r = denote x * denote rhs)).
        -- apply Hd2.
        -- intros r. apply preserves_Some. intros [[_ Hrhs] Hr].
           rewrite Hr, (Hrhs rhs eq_refl).
           rewrite (node_Multiply denote sound (BoxedFunction "Multiply" _)) by reflexivity.
           reflexivity.
  - (* expandPower *)
    intros base exp. rewrite expandPower_S.
    destruct (Z.ltb_spec exp 0) as [Hneg|Hnonneg].
    { apply (preserves_bind _ _ _
               (fun o => forall r, o = Some r -> denote r = powQ (denote base) (- exp))).
      - eapply preserves_call; [|apply IHp]. rewrite Z.abs_opp. tauto.
      - intros [e|]; [apply preserves_Some|apply preserves_None]. intros [_ He].
        rewrite (build_inv denote sound), (He e eq_refl). unfold powQ.
        replace (- exp <? 0)%Z with false by (symmetry; apply Z.ltb_ge; lia).
        replace (exp <? 0)%Z with true by (symmetry; apply Z.ltb_lt; lia).
        reflexivity. }
    destruct (Z.eqb_spec exp 0) as [->|Hne0].
    { apply preserves_Some. intros _. rewrite (build_One denote sound). reflexivity. }
    destruct (Z.eqb_spec exp 1) as [->|Hne1].
    { replace (powQ (denote base) 1) with (denote base);
        [eapply preserves_tail_call; [|apply IHe]; tauto|].
      unfold powQ. cbn [Z.ltb Z.compare]. change (Z.to_nat 1) with 1%nat.
      cbn [Qcpower]. ring. }
    assert (Hpow : forall x, powQ x exp = x ^ Z.to_nat exp).
    { intros x. unfold powQ.
      replace (exp <? 0)%Z with false by (symmetry; apply Z.ltb_ge; lia). reflexivity. }
    destruct (isHead base "Negate") eqn:HN.
    { apply isHead_eq in HN. cbn zeta.
      apply (preserves_bind _ _ _
               (fun o => forall r, o = Some r -> denote r = powQ (denote (op1 base)) exp)).
      - eapply preserves_call; [|apply IHp]. intros [H1 H2].
        split; [exact H1|apply small_op1, H2].
      - intros [result|]; [|apply preserves_None]. apply preserves_Some. intros [_ Hres].
        rewrite sign_parity by exact Hnonneg.
        rewrite !Hpow, (node_Negate denote sound base HN), Qcpower_opp.
        rewrite Z2Nat.id by exact Hnonneg.
        destruct (Z.odd exp).
        + rewrite (build_neg denote sound), (Hres result eq_refl), Hpow. reflexivity.
        + rewrite (Hres result eq_refl), Hpow. reflexivity. }
    destruct (isHead base "Add") eqn:HA; cbn [negb]; [|apply preserves_None].
    apply isHead_eq in HA. cbn zeta.
    intros t o t' Ht Hrun. unfold mbind, M_bind, lift, mret, M_ret in Hrun.
    destruct (powers fuel (Z.of_nat (length (ops_ base))) exp) as [it|] eqn:Hit;
      [|discriminate].
    apply powers_some in Hit as [Hlen ->]; [|exact Hnonneg].
    rewrite Nat2Z.id in Hrun.
    destruct (mapM_ (term (ops_ base)) (compositions (length (ops_ base)) exp) t)
      as [[result t1]|] eqn:Hterms; [|discriminate].
    injection Hrun as <- <-.
    destruct (mapM__keeps
                ((Z.abs exp < Z.of_nat exactRows)%Z /\ smallExponents base = true)
                (term (ops_ base)) (fun val y => y = termOf (ops_ base) val)
                (compositions (length (ops_ base)) exp)) with (t := t) (a := result) (t' := t1)
      as (Ht1 & Hlen1 & Hres); [|exact Ht|exact Hterms|].
    { intros val Hval. apply in_compositions in Hval as (Hl & Hpos & Hsum); [|lia|lia].
      apply term_keeps; [exact Hpos| |].
      - intros ->. cbn [length] in Hl. lia.
      - intros [Hexp _]. lia. }
    split; [exact Ht1|]. split; [exact Hlen1|]. intros Hsmall _ r [= <-].
    specialize (Hres Hsmall).
    rewrite (build_add denote sound).
    rewrite (Forall2_map_eq denote (fun val => denote (termOf (ops_ base) val)) _ result)
      by (eapply Forall2_impl; [exact Hres|]; intros val y ->; reflexivity).
    rewrite (sumQ_map_ext _ (fun val => ofZ (multinomial val)
                                         * monomialQ (map denote (ops_ base)) val)).
    2:{ intros val Hval. apply in_compositions in Hval as (Hl & Hpos & _); [|lia|lia].
        apply termOf_denoteQ; assumption. }
    rewrite <- (length_map denote (ops_ base)), multinomial_theoremQ.
    + rewrite Hpow, (node_Add denote sound base HA). reflexivity.
    + destruct (ops_ base); [cbn in Hlen; lia|discriminate].
    + exact Hnonneg.
  - (* expandMultinomial *)
    intros expr. rewrite expandMultinomial_S.
    destruct (isHead expr "Power") eqn:HP; cbn [negb]; [|apply preserves_None].
    apply isHead_eq in HP.
    destruct (asMachineInteger (op2 expr)) as [exp|] eqn:Hexp; [|apply preserves_None].
    rewrite (node_Power denote sound expr exp HP Hexp).
    eapply preserves_tail_call; [|apply IHp]. intros H.
    split; [exact (small_exponent expr exp H HP Hexp)|apply small_op1, H].
  - (* expandNumerator *)
    intros expr. rewrite expandNumerator_S.
    destruct (isHead expr "Divide") eqn:HD; cbn [negb]; [|apply preserves_None].
    apply isHead_eq in HD.
    apply (preserves_bind _ _ _
             (fun o => forall r, o = Some r -> denote r = denote (op1 expr))).
    + eapply preserves_call; [|apply IHe]. apply small_op1.
    + intros [en|]; [|apply preserves_None].
      destruct (isHead en "Add") eqn:HA; apply preserves_Some; intros [_ Hen];
        rewrite (node_Divide denote sound expr HD), <- (Hen en eq_refl).
      * apply isHead_eq in HA. rewrite (build_add denote sound), map_map.
        rewrite (sumQ_map_ext _ (fun x => denote x / denote (op2 expr)))
          by (intros x _; apply (build_div denote sound)).
        rewrite sumQ_map_div, <- (node_Add denote sound en HA). reflexivity.
      * apply (build_div denote sound).
  - (* expand *)
    intros expr. rewrite expand_S. cbn zeta.
    destruct (isRelationalOperator (head expr)) eqn:Hrel.
    { apply (preserves_bind _ _ _ (Forall2 (fun x y => denote y = denote x) (ops_ expr))).
      - apply mapM__keeps. intros x Hx.
        apply (keeps_bind _ _ (fun o => forall r, o = Some r -> denote r = denote x)).
        + eapply preserves_call; [|apply IHe]. intros H. exact (small_ops_ expr x H Hx).
        + intros [r|]; apply keeps_ret; intros Ho; [exact (Ho r eq_refl)|reflexivity].
      - intros xs. apply preserves_Some. intros [_ Hxs].
        apply (node_relational denote sound expr xs Hrel).
        rewrite (Forall2_map_eq denote denote _ _ Hxs). reflexivity. }
    apply (preserves_bind _ _ _ (fun o => forall r, o = Some r -> denote r = denote expr)).
    + eapply preserves_call; [|apply IHn]. tauto.
    + intros [result|]; [apply preserves_Some; intros [_ Hres]; exact (Hres result eq_refl)|].
      destruct (String.eqb_spec (head expr) "Multiply") as [HM|_].
      { replace (denote expr) with (denote (BoxedFunction "Multiply" (ops_ expr))).
        - eapply preserves_tail_call; [|apply IHd]. intros H.
          split; [reflexivity|exact (small_Multiply expr H HM)].
        - rewrite (node_Multiply denote sound expr HM).
          apply (node_Multiply denote sound (BoxedFunction "Multiply" (ops_ expr))).
          reflexivity. }
      destruct (String.eqb_spec (head expr) "Add") as [HA|_].
      { apply preserves_Some. intros _.
        rewrite (build_simplifyAdd denote sound), (node_Add denote sound expr HA).
        reflexivity. }
      destruct (String.eqb_spec (head expr) "Negate") as [HN|_].
      { apply (preserves_bind _ _ _
                 (fun o => forall r, o = Some r -> denote r = denote (op1 expr))).
        - eapply preserves_call; [|apply IHe]. apply small_op1.
        - intros [op|]; [|apply preserves_None]. apply preserves_Some. intros [_ Hop].
          rewrite (build_neg denote sound), (Hop op eq_refl),
            (node_Negate denote sound expr HN). reflexivity. }
      destruct (String.eqb_spec (head expr) "Power") as [HP|_]; [|apply preserves_None].
      eapply preserves_tail_call; [|apply IHm]. tauto.
Qed.


(** X11. [distribute] on a product of at least one operand returns an
    expression (never [null]) whose value is the product of the values of
    the operands; the table [binomials] is left alone, and a larger budget
    does not change the result. *)
Theorem distribute_product (ops : list BoxedExpression) :
  ops <> [] ->
  exists fuel r,
    (forall fuel', (fuel <= fuel')%nat -> forall t,
       distribute fuel' "Multiply" ops t = Some (Some r, t)) /\
    denote r = prodQ (map denote ops).
Proof using sound.
  intros Hne. destruct (distribute_Multiply_stable ops Hne) as (fuel & r & Hrun).
  exists fuel, r. split; [exact Hrun|].
  destruct (expand_sound_all fuel) as (Hd & _).
  destruct (Hd "Multiply" ops binomials (Some r) binomials computedTable_binomials
              (Hrun fuel ltac:(reflexivity) binomials)) as (_ & _ & Hr).
  assert (Hshort : (length binomials <= exactRows)%nat) by (vm_compute; lia).
  rewrite (Hr (or_intror Hshort) I r eq_refl).
  apply (node_Multiply denote sound (BoxedFunction "Multiply" ops)). reflexivity.
Qed.

(** X12. [expand] is totally correct on expressions whose sums and
    products all have at least one operand and whose powers have no integer
    exponent above 18 in absolute value: it returns once the budget of
    nested calls is large enough; the table [binomials] is a table of
    computed rows afterwards, with the rows it had before; and a result that
    is an expression rather than [null] has the value of the input under
    every sound valuation. The bound on the exponents keeps the
    coefficients exact: a multinomial coefficient of an exponent [e] is at
    most [e!], and [18! <= 2^53]. *)
Theorem expand_correct (expr : BoxedExpression) :
  wellFormed expr = true -> smallExponents expr = true ->
  exists fuel, forall fuel', (fuel <= fuel')%nat -> forall t, computedTable t ->
    exists o t',
      expand fuel' (Some expr) t = Some (o, t') /\
      computedTable t' /\
      (length t <= length t')%nat /\
      (forall r, o = Some r -> denote r = denote expr).
Proof using sound.
  intros Hwf Hsmall.
  destruct (expand_halts_below (S (size expr)) expr ltac:(lia) Hwf) as [(fuel & Hrun) _].
  exists fuel. intros fuel' Hle t Ht. destruct (Hrun fuel' Hle t) as ([o t'] & Hres).
  exists o, t'. split; [exact Hres|].
  destruct (expand_sound_all fuel') as (_ & _ & _ & _ & He).
  destruct (He expr t o t' Ht Hres) as (Ht' & Hlen & Hval).
  split; [exact Ht'|]. split; [exact Hlen|]. exact (Hval (or_introl Hsmall) I).
Qed.

End Valuation.

End ExpandSoundness.

(** *** The plain engine is sound for the evaluator [evalQ] *)

Section PlainValue.

Import Accessors Expand Value.

Local Open Scope Qc_scope.

Variable rho : string -> Qc.

Lemma nth_evalQ (xs : list BoxedExpression) (i : nat) :
  nth i (map (evalQ rho) xs) (rho "Nothing") = evalQ rho (default Nothing (xs !! i)).
Proof.
  revert i. induction xs as [|x xs IH]; intros [|i]; try reflexivity. apply IH.
Qed.

Lemma evalQ_application (h : string) (xs : list BoxedExpression) :
  evalQ rho (BoxedFunction h xs) = applyQ (rho "Nothing") h (map (evalQ rho) xs).
Proof. reflexivity. Qed.

Lemma plain_sound : Sound (ce := plainEngine) (imports := plainImports) (evalQ rho).
Proof.
  constructor.
  - intros [| | |h xs] He; cbn [head] in He; try discriminate. subst h.
    rewrite evalQ_application, op1_application, <- nth_evalQ. reflexivity.
  - intros [| | |h xs] He; cbn [head] in He; try discriminate. subst h.
    rewrite evalQ_application, op1_application, op2_application, <- !nth_evalQ. reflexivity.
  - intros [| | |h xs] He; cbn [head] in He; try discriminate. subst h. reflexivity.
  - intros [| | |h xs] He; cbn [head] in He; try discriminate. subst h. reflexivity.
  - intros [| | |h xs] n He Hn; cbn [head] in He; try discriminate. subst h.
    rewrite evalQ_application, op1_application, <- !nth_evalQ.
    rewrite op2_application in Hn. unfold applyQ. cbn [String.eqb Ascii.eqb Bool.eqb].
    rewrite !nth_evalQ. destruct (default Nothing (xs !! 1%nat)) as [re im| | |];
      cbn [asMachineInteger plainImports] in Hn; try discriminate.
    destruct (Qc_eq_dec im 0); [|discriminate]. cbn [evalQ]. rewrite Hn. reflexivity.
  - intros [| | |h ys] xs Hrel Hxs; cbn [head] in Hrel |- *; try discriminate.
    cbn [_fn plainEngine]. rewrite !evalQ_application, ops_application in *.
    rewrite Hxs. reflexivity.
  - reflexivity.
  - cbn [NegativeOne plainEngine evalQ integer]. apply Qc_is_canon. reflexivity.
  - reflexivity.
  - reflexivity.
  - reflexivity.
  - reflexivity.
  - intros x n _. cbn [pow plainEngine]. rewrite evalQ_application. unfold applyQ.
    cbn [String.eqb Ascii.eqb Bool.eqb map nth evalQ integer].
    rewrite asInteger_integer. reflexivity.
  - reflexivity.
  - intros x. cbn [inv plainEngine]. rewrite evalQ_application. unfold applyQ.
    cbn [String.eqb Ascii.eqb Bool.eqb map nth evalQ integer]. unfold Qcdiv.
    change (Q2Qc (inject_Z 1)) with 1. ring.
  - reflexivity.
  - reflexivity.
Qed.

End PlainValue.

Lemma distribute2_spec_witness :
  exists r,
    (forall fuel', (5 <= fuel')%nat -> forall t,
       Expand.distribute2 (ce := Expand.plainEngine) (imports := Expand.plainImports) fuel'
         (plus [sym_a; sym_b]) (minus (over sym_c sym_a)) t
       = Some (r, t)) /\
    Value.evalQ rho_half r
    = (Value.evalQ rho_half (plus [sym_a; sym_b])
       * Value.evalQ rho_half (minus (over sym_c sym_a)))%Qc.
Proof.
  apply (distribute2_spec (ce := Expand.plainEngine) (imports := Expand.plainImports)
           (Value.evalQ rho_half) (plain_sound rho_half) 5).
  vm_compute. lia.
Defined.

(** ** A larger budget does not change a result *)

Section RefinesFacts.

Import Accessors Expand Expansion.

Lemma refines_refl {A : Type} (m : M A) : refines m m.
Proof. intros t res H. exact H. Qed.

Lemma refines_diverge {A : Type} (m : M A) : refines diverge m.
Proof. intros t res [=]. Qed.

Lemma refines_bind {A B : Type} (m m' : M A) (k k' : A -> M B) :
  refines m m' -> (forall a, refines (k a) (k' a)) -> refines (m ≫= k) (m' ≫= k').
Proof.
  intros Hm Hk t res H. unfold mbind, M_bind in *.
  destruct (m t) as [[a t1]|] eqn:E; [|discriminate].
  rewrite (Hm t (a, t1) E). exact (Hk a t1 res H).
Qed.

Lemma refines_mapM_ {A B : Type} (f g : A -> M B) (xs : list A) :
  (forall x, refines (f x) (g x)) -> refines (mapM_ f xs) (mapM_ g xs).
Proof.
  intros Hfg. induction xs as [|x xs IH]; cbn [mapM_]; [apply refines_refl|].
  apply refines_bind; [apply Hfg|]. intros y.
  apply refines_bind; [exact IH|]. intros ys. apply refines_refl.
Qed.

Lemma powers_mono (fuel fuel' : nat) (n exp : Z) (yields : list (list Z)) :
  (fuel <= fuel')%nat -> powers fuel n exp = Some yields -> powers fuel' n exp = Some yields.
Proof.
  revert fuel' n exp yields. induction fuel as [|fuel IH]; intros fuel' n exp yields Hle Hrun;
    [discriminate|].
  destruct fuel' as [|fuel']; [lia|]. cbn [powers] in *.
  destruct (n =? 1); [exact Hrun|].
  destruct (mapM (fun i => map (cons i) <$> powers fuel (n - 1) (exp - i)) (upto exp))
    as [blocks|] eqn:E; [|discriminate].
  replace (mapM (fun i => map (cons i) <$> powers fuel' (n - 1) (exp - i)) (upto exp))
    with (Some blocks); [exact Hrun|].
  symmetry. apply mapM_Some. apply mapM_Some in E.
  eapply Forall2_impl; [exact E|]. intros i block Hi. cbn beta in *.
  destruct (powers fuel (n - 1) (exp - i)) as [ys|] eqn:Hys; [|discriminate].
  rewrite (IH fuel' _ _ ys ltac:(lia) Hys). exact Hi.
Qed.

Lemma refines_lift_powers (fuel fuel' : nat) (n exp : Z) :
  (fuel <= fuel')%nat -> refines (lift (powers fuel n exp)) (lift (powers fuel' n exp)).
Proof.
  intros Hle t res H. unfold lift in *.
  destruct (powers fuel n exp) as [ys|] eqn:E; [|discriminate].
  rewrite (powers_mono fuel fuel' n exp ys Hle E). exact H.
Qed.

End RefinesFacts.

(** One step of a proof that two computations of the same shape refine
    one another. *)
Ltac refines_step hyps :=
  first
    [ apply refines_refl
    | hyps
    | match goal with
      | |- Expansion.refines (mbind _ _) (mbind _ _) => apply refines_bind; [|intros ?]
      | |- Expansion.refines (Expand.mapM_ _ _) (Expand.mapM_ _ _) =>
          apply refines_mapM_; intros ?
      | |- Expansion.refines (Expand.lift (Expand.powers _ _ _))
                             (Expand.lift (Expand.powers _ _ _)) =>
          apply refines_lift_powers; lia
      | |- Expansion.refines (match ?x with _ => _ end) (match ?x with _ => _ end) =>
          destruct x
      end ].

Section ExpandBudget.

Import Accessors Expand Expansion.

Context {ce : IComputeEngine} {imports : Imports}.

Lemma distribute2_mono (fuel fuel' : nat) (lhs rhs : BoxedExpression) :
  (fuel <= fuel')%nat -> refines (distribute2 fuel lhs rhs) (distribute2 fuel' lhs rhs).
Proof.
  revert fuel' lhs rhs. induction fuel as [|fuel IH]; intros fuel' lhs rhs Hle;
    [apply refines_diverge|].
  destruct fuel' as [|fuel']; [lia|]. rewrite !distribute2_S. cbn zeta.
  repeat refines_step ltac:(apply IH; lia).
Qed.

Lemma expand_mono_all (fuel : nat) :
  forall fuel', (fuel <= fuel')%nat ->
    (forall h ops, refines (distribute fuel h ops) (distribute fuel' h ops)) /\
    (forall base exp, refines (expandPower fuel base exp) (expandPower fuel' base exp)) /\
    (forall expr, refines (expandMultinomial fuel expr) (expandMultinomial fuel' expr)) /\
    (forall expr, refines (expandNumerator fuel expr) (expandNumerator fuel' expr)) /\
    (forall expr, refines (expand fuel (Some expr)) (expand fuel' (Some expr))).
Proof.
  induction fuel as [|fuel IH]; intros fuel' Hle.
  { split; [|split; [|split; [|split]]]; intros; apply refines_diverge. }
  destruct fuel' as [|fuel']; [lia|].
  destruct (IH fuel' ltac:(lia)) as (IHd & IHp & IHm & IHn & IHe).
  pose proof (fun l r => distribute2_mono fuel fuel' l r ltac:(lia)) as IHd2.
  split; [|split; [|split; [|split]]].
  - intros h ops. rewrite !distribute_S.
    repeat refines_step ltac:(first [apply IHd | apply IHp | apply IHd2]).
  - intros base exp. rewrite !expandPower_S. cbn zeta.
    repeat refines_step ltac:(first [apply IHp | apply IHe]).
  - intros expr. rewrite !expandMultinomial_S.
    repeat refines_step ltac:(apply IHp).
  - intros expr. rewrite !expandNumerator_S.
    repeat refines_step ltac:(apply IHe).
  - intros expr. rewrite !expand_S. cbn zeta.
    repeat refines_step ltac:(first [apply IHn | apply IHd | apply IHe | apply IHm]).
Qed.

End ExpandBudget.

(** ** [expandAll] and [expandDenominator] *)

Section ExpandAll.

Import Accessors Expand Expansion Value.

Local Open Scope Qc_scope.

Context {ce : IComputeEngine} {imports : Imports}.

Variable denote : BoxedExpression -> Qc.
Hypothesis sound : Sound denote.

Lemma expandAll_S (fuel : nat) (expr : BoxedExpression) :
  expandAll (S fuel) expr =
    match ops expr with
    | Some xs =>
        if String.eqb (head expr) "" then mret None
        else
          ops ← mapM_ (fun x => r ← expandAll fuel x; mret (default x r)) xs;
          let result := box (head expr) ops in
          r ← expand fuel (Some result);
          mret (Some (default result r))
    | None => mret None
    end.
Proof. reflexivity. Qed.

Lemma expandAll_mono (fuel fuel' : nat) (expr : BoxedExpression) :
  (fuel <= fuel')%nat -> refines (expandAll fuel expr) (expandAll fuel' expr).
Proof.
  revert fuel' expr. induction fuel as [|fuel IH]; intros fuel' expr Hle;
    [apply refines_diverge|].
  destruct fuel' as [|fuel']; [lia|]. rewrite !expandAll_S. cbn zeta.
  destruct (expand_mono_all fuel fuel' ltac:(lia)) as (_ & _ & _ & _ & IHe).
  repeat refines_step ltac:(first [apply IH; lia | apply IHe]).
Qed.





Hypothesis box_congruence : forall h xs ys,
  map denote xs = map denote ys -> denote (box h xs) = denote (BoxedFunction h ys).
Hypothesis box_wellFormed : forall h xs, wellFormed (box h xs) = true.

Lemma mapM__cons_run {A B : Type} (f : A -> M B) (x : A) (xs : list A) (t t1 t2 : Table)
    (y : B) (ys : list B) :
  f x t = Some (y, t1) -> mapM_ f xs t1 = Some (ys, t2) ->
  mapM_ f (x :: xs) t = Some (y :: ys, t2).
Proof. intros Hx Hxs. cbn [mapM_]. unfold mbind, M_bind. rewrite Hx, Hxs. reflexivity. Qed.

(** The loop over the operands of [expandAll]. *)
Lemma expandAll_operands (xs : list BoxedExpression) :
  Forall (fun x => forall t, computedTable t ->
            exists fuel o t',
              expandAll fuel x t = Some (o, t') /\ computedTable t' /\
              (length t <= length t')%nat /\
              ((length t' <= exactRows)%nat ->
               forall r, o = Some r -> denote r = denote x)) xs ->
  forall t, computedTable t ->
    exists fuel ys t',
      mapM_ (fun x => r ← expandAll fuel x; mret (default x r)) xs t = Some (ys, t') /\
      computedTable t' /\ (length t <= length t')%nat /\
      ((length t' <= exactRows)%nat -> map denote ys = map denote xs).
Proof using Type.
  induction 1 as [|x xs Hx _ IH]; intros t Ht.
  - exists 0%nat, [], t. split; [reflexivity|]. split; [exact Ht|]. split; [lia|reflexivity].
  - destruct (Hx t Ht) as (f1 & o & t1 & Hrun1 & Ht1 & Hlen1 & Hval1).
    destruct (IH t1 Ht1) as (f2 & ys & t2 & Hrun2 & Ht2 & Hlen2 & Hval2).
    exists (Nat.max f1 f2), (default x o :: ys), t2.
    split; [|split; [exact Ht2|split; [lia|]]].
    + apply mapM__cons_run with (t1 := t1).
      * unfold mbind, M_bind.
        rewrite (expandAll_mono f1 (Nat.max f1 f2) x ltac:(lia) t _ Hrun1). reflexivity.
      * revert Hrun2. apply refines_mapM_. intros y.
        apply refines_bind; [|intros; apply refines_refl]. apply expandAll_mono. lia.
    + intros Hsmall. cbn [map]. rewrite (Hval2 Hsmall). f_equal.
      destruct o as [r|]; [exact (Hval1 ltac:(lia) r eq_refl)|reflexivity].
Qed.

(** X14. With an engine whose [box] returns expressions in which sums and
    products have operands and respects values, [expandAll] returns for
    every expression, [null] exactly for an atom (or an application of the
    empty operator); the table [binomials] is a table of computed rows
    afterwards, with the rows it had before; and when it has at most 19
    rows in the end, so that no exponent above 18 was expanded and every
    coefficient formed is exact, the expression returned has the value of
    the input. *)
Theorem expandAll_correct (expr : BoxedExpression) (t : Table) :
  computedTable t ->
  exists fuel o t',
    (forall fuel', (fuel <= fuel')%nat -> expandAll fuel' expr t = Some (o, t')) /\
    computedTable t' /\
    (length t <= length t')%nat /\
    ((length t' <= exactRows)%nat -> forall r, o = Some r -> denote r = denote expr) /\
    (o = None <-> ops expr = None \/ head expr = "").
Proof using sound box_congruence box_wellFormed.
  revert t. induction expr as [re im|s|s|h xs IH] using BoxedExpression_ind'; intros t Ht;
    try (exists 1%nat, None, t; split;
         [intros [|fuel'] Hle; [lia|reflexivity]
         |split; [exact Ht
                 |split; [lia
                         |split; [intros _ r [=]|split; [left; reflexivity|reflexivity]]]]]).
  destruct (String.eqb_spec h "") as [->|Hh].
  { exists 1%nat, None, t. split; [intros [|fuel'] Hle; [lia|reflexivity]|].
    split; [exact Ht|]. split; [lia|]. split; [intros _ r [=]|].
    split; [right; reflexivity|reflexivity]. }
  destruct (expandAll_operands xs) with (t := t) as (f1 & ys & t1 & Hops & Ht1 & Hlen1 & Hys);
    [|exact Ht|].
  { eapply Forall_impl; [exact IH|]. intros x Hx s Hs.
    destruct (Hx s Hs) as (fuel & o & s' & Hrun & Hs' & Hlen & Hval & _).
    exists fuel, o, s'. split; [apply Hrun; lia|]. split; [exact Hs'|]. split; assumption. }
  set (result := box h ys).
  destruct (expand_halts_below (S (size result)) result ltac:(lia) (box_wellFormed h ys))
    as [(f2 & Hrun) _].
  destruct (Hrun f2 ltac:(lia) t1) as ([o t2] & Hres).
  destruct (expand_sound_all denote sound f2) as (_ & _ & _ & _ & He).
  destruct (He result t1 o t2 Ht1 Hres) as (Ht2 & Hlen2 & Hval).
  pose proof (fun H : (length t2 <= exactRows)%nat => Hval (or_intror H) I) as Hval'.
  clear Hval.
  exists (S (Nat.max f1 f2)), (Some (default result o)), t2.
  split; [|split; [exact Ht2|split; [lia|split]]].
  - intros [|fuel'] Hle; [lia|]. rewrite expandAll_S. cbn [ops head].
    destruct (String.eqb_spec h "") as [|_]; [congruence|].
    unfold mbind at 1, M_bind at 1.
    assert (Hmono : refines
              (mapM_ (fun x => r ← expandAll f1 x; mret (default x r)) xs)
              (mapM_ (fun x => r ← expandAll fuel' x; mret (default x r)) xs)).
    { apply refines_mapM_. intros y. apply refines_bind; [|intros; apply refines_refl].
      apply expandAll_mono. lia. }
    rewrite (Hmono t _ Hops). cbn zeta. fold result. unfold mbind, M_bind.
    destruct (expand_mono_all f2 fuel' ltac:(lia)) as (_ & _ & _ & _ & Hexp).
    rewrite (Hexp result t1 _ Hres). reflexivity.
  - intros Hsmall r [= <-].
    assert (Hresult : denote result = denote (BoxedFunction h xs))
      by (apply box_congruence, Hys; lia).
    rewrite <- Hresult.
    destruct o as [r|]; [exact (Hval' Hsmall r eq_refl)|reflexivity].
  - split; [discriminate|]. intros [H|H]; [discriminate|]. cbn [head] in H. congruence.
Qed.

End ExpandAll.

(** *** The canonical engine *)

Section CanonicalEngine.

Import Accessors Expand Value.

Local Open Scope Qc_scope.

Variable rho : string -> Qc.

Lemma canonical_sound :
  Sound (ce := canonicalEngine) (imports := plainImports) (evalQ rho).
Proof. destruct (plain_sound rho). constructor; assumption. Qed.

Lemma canonicalize_wellFormed (expr : BoxedExpression) :
  wellFormed (canonicalize expr) = true.
Proof.
  induction expr as [re im|s|s|h xs IH] using BoxedExpression_ind'; try reflexivity.
  destruct xs as [|x xs].
  - cbn [canonicalize]. destruct (String.eqb h "Add") eqn:HA; [reflexivity|].
    destruct (String.eqb h "Multiply") eqn:HM; [reflexivity|].
    cbn [wellFormed]. rewrite HA, HM. reflexivity.
  - cbn [canonicalize wellFormed map]. rewrite andb_false_r. cbn [negb andb].
    rewrite forallb_forall. intros y Hy.
    change (canonicalize x :: map canonicalize xs) with (map canonicalize (x :: xs)) in Hy.
    apply in_map_iff in Hy as (z & <- & Hz). rewrite Forall_forall in IH.
    apply IH, list_elem_of_In, Hz.
Qed.

Lemma evalQ_canonicalize (expr : BoxedExpression) :
  evalQ rho (canonicalize expr) = evalQ rho expr.
Proof.
  induction expr as [re im|s|s|h xs IH] using BoxedExpression_ind'; try reflexivity.
  destruct xs as [|x xs].
  - cbn [canonicalize]. destruct (String.eqb_spec h "Add") as [->|HA]; [reflexivity|].
    destruct (String.eqb_spec h "Multiply") as [->|HM]; reflexivity.
  - cbn [canonicalize]. rewrite !evalQ_application, map_map. f_equal.
    apply map_ext_in. intros y Hy. rewrite Forall_forall in IH.
    apply IH, list_elem_of_In, Hy.
Qed.

Lemma canonical_box_congruence (h : string) (xs ys : list BoxedExpression) :
  map (evalQ rho) xs = map (evalQ rho) ys ->
  evalQ rho (box (IComputeEngine := canonicalEngine) h xs) = evalQ rho (BoxedFunction h ys).
Proof.
  intros H. cbn [box canonicalEngine]. rewrite evalQ_canonicalize, !evalQ_application, H.
  reflexivity.
Qed.

End CanonicalEngine.

Lemma distribute_product_witness :
  exists fuel r,
    (forall fuel', (fuel <= fuel')%nat -> forall t,
       Expand.distribute (ce := Expand.plainEngine) (imports := Expand.plainImports) fuel'
         "Multiply" [plus [sym_a; sym_b]; sym_c; minus sym_a] t = Some (Some r, t)) /\
    Value.evalQ rho_half r
    = Value.prodQ (map (Value.evalQ rho_half) [plus [sym_a; sym_b]; sym_c; minus sym_a]).
Proof.
  apply (distribute_product (ce := Expand.plainEngine) (imports := Expand.plainImports)
           (Value.evalQ rho_half) (plain_sound rho_half)).
  discriminate.
Defined.

Lemma expand_correct_witness :
  exists fuel, forall fuel', (fuel <= fuel')%nat -> forall t, Expand.computedTable t ->
    exists o t',
      Expand.expand (ce := Expand.plainEngine) (imports := Expand.plainImports) fuel'
        (Some (times_ [power (plus [sym_a; minus sym_b]) 3; plus [sym_c; sym_a]])) t
      = Some (o, t') /\
      Expand.computedTable t' /\
      (length t <= length t')%nat /\
      (forall r, o = Some r ->
         Value.evalQ rho_half r
         = Value.evalQ rho_half
             (times_ [power (plus [sym_a; minus sym_b]) 3; plus [sym_c; sym_a]])).
Proof.
  apply (expand_correct (ce := Expand.plainEngine) (imports := Expand.plainImports)
           (Value.evalQ rho_half) (plain_sound rho_half)); reflexivity.
Defined.


Lemma expandAll_correct_witness :
  (exists r,
     Expansion.expandAll (ce := Value.canonicalEngine) (imports := Expand.plainImports)
       8 (plus [times_ [plus [sym_a; sym_b]; sym_c]; power (plus [sym_a; sym_b]) 2])
       Expand.binomials = Some (Some r, Expand.binomials) /\
     (length Expand.binomials <= Expand.exactRows)%nat /\
     Value.evalQ rho_half r
     = Value.evalQ rho_half
         (plus [times_ [plus [sym_a; sym_b]; sym_c]; power (plus [sym_a; sym_b]) 2])) /\
  (exists fuel o t',
     (forall fuel', (fuel <= fuel')%nat ->
        Expansion.expandAll (ce := Value.canonicalEngine) (imports := Expand.plainImports)
          fuel' (plus [times_ [plus [sym_a; sym_b]; sym_c]; power (plus [sym_a; sym_b]) 2])
          Expand.binomials = Some (o, t')) /\
     Expand.computedTable t' /\
     (length Expand.binomials <= length t')%nat /\
     ((length t' <= Expand.exactRows)%nat -> forall r, o = Some r ->
        Value.evalQ rho_half r
        = Value.evalQ rho_half
            (plus [times_ [plus [sym_a; sym_b]; sym_c]; power (plus [sym_a; sym_b]) 2])) /\
     (o = None <->
        Accessors.ops
          (plus [times_ [plus [sym_a; sym_b]; sym_c]; power (plus [sym_a; sym_b]) 2]) = None
        \/ Accessors.head
             (plus [times_ [plus [sym_a; sym_b]; sym_c]; power (plus [sym_a; sym_b]) 2])
           = "")).
Proof.
  split.
  - eexists. split; [vm_compute; reflexivity|]. split; [vm_compute; lia|].
    apply Qc_is_canon; vm_compute; reflexivity.
  - apply (expandAll_correct (ce := Value.canonicalEngine) (imports := Expand.plainImports)
             (Value.evalQ rho_half) (canonical_sound rho_half)
             (canonical_box_congruence rho_half)
             (fun h xs => canonicalize_wellFormed (BoxedFunction h xs))).
    exact computedTable_binomials.
Defined.

(** ** The shape of what [checkNumericArgs] returns *)

Section NumericArgsShape.

Import Accessors Validate.

Context {CE : Type} {engine : Engine CE}.

(** The strict loop pushes one value per index; the value at an index is
    the classification of the operand there, with the flag as the values
    pushed before left it. *)
Lemma classify_fold_lookup (ce : CE) (count : nat) (ops : list BoxedExpression) (n : nat) :
  let '(valid, xs) :=
    fold_left (fun '(valid, xs) i =>
                 let '(valid, x) := classify ce count i (ops !! i) valid in
                 (valid, xs ++ [x]))
              (seq 0 n) (true, []) in
  length xs = n /\
  valid = allValid xs /\
  (forall i, (i < n)%nat ->
     xs !! i = Some (classify ce count i (ops !! i) (allValid (take i xs))).2).
Proof.
  induction n as [|n IH].
  - cbn. split; [reflexivity|]. split; [reflexivity|]. intros i Hi. lia.
  - rewrite seq_S, fold_left_app. cbn [fold_left Nat.add].
    destruct (fold_left _ (seq 0 n) (true, [])) as [valid xs].
    destruct IH as (Hlen & Hvalid & Hlookup).
    destruct (classify ce count n (ops !! n) valid) as [valid' x] eqn:E.
    split; [rewrite length_app; cbn [length]; lia|].
    split.
    { rewrite allValid_snoc, <- Hvalid. apply (classify_valid _ _ _ _ _ _ _ E). }
    intros i Hi. destruct (Nat.eq_dec i n) as [->|Hne].
    + rewrite lookup_app_r by lia. rewrite Hlen, Nat.sub_diag. cbn [lookup list_lookup].
      rewrite take_app_length' by (symmetry; exact Hlen). rewrite <- Hvalid, E. reflexivity.
    + rewrite lookup_app_l by lia. rewrite take_app_le by lia. apply Hlookup. lia.
Qed.

(** What [classify] pushes for an operand that is present. *)
Lemma classify_present (ce : CE) (count i : nat) (op : BoxedExpression) (valid : bool) :
  ((count <= i)%nat -> (classify ce count i (Some op) valid).2 = unexpected op) /\
  ((i < count)%nat ->
     (classify ce count i (Some op) valid).2 = op \/
     (classify ce count i (Some op) valid).2 = typeError numberType (typeOf ce op) op).
Proof.
  unfold classify. split; intros Hi.
  - replace (count <=? i)%nat with true by (symmetry; apply Nat.leb_le; exact Hi). reflexivity.
  - replace (count <=? i)%nat with false by (symmetry; apply Nat.leb_gt; exact Hi).
    repeat match goal with
           | |- context [if ?b then _ else _] => destruct b
           end; cbn [snd]; auto.
Qed.

(** X15. In strict mode [checkNumericArgs] returns one value per position
    up to the larger of the expected count and the number of (flattened)
    operands: past the count an unexpected-argument error, past the
    operands a missing error, and otherwise the operand itself or a type
    error that wraps it, so that operands are neither dropped nor moved;
    when every returned value is valid the result is the flattened operand
    list itself. *)
Theorem checkNumericArgs_shape (ce : CE) (ops : list BoxedExpression) (options : Options) :
  strict ce = true ->
  let flat := flatten ops (flattenHead options) in
  let n := default (length flat) (count options) in
  let xs := (checkNumericArgs ce ops options).1 in
  length xs = Nat.max n (length flat) /\
  (forall i op, flat !! i = Some op -> (n <= i)%nat -> xs !! i = Some (unexpected op)) /\
  (forall i, (length flat <= i < n)%nat -> xs !! i = Some missing) /\
  (forall i op, flat !! i = Some op -> (i < n)%nat ->
     xs !! i = Some op \/ xs !! i = Some (typeError numberType (typeOf ce op) op)) /\
  (allValid xs = true -> xs = flat).
Proof.
  intros Hstrict flat n xs.
  assert (Hxs : length xs = Nat.max n (length flat) /\
                forall i, (i < Nat.max n (length flat))%nat ->
                  xs !! i = Some (classify ce n i (flat !! i) (allValid (take i xs))).2).
  { subst xs. unfold checkNumericArgs. rewrite Hstrict. cbn [negb]. fold flat. fold n.
    pose proof (classify_fold_lookup ce n flat (Nat.max n (length flat))) as H.
    destruct (fold_left _ (seq 0 (Nat.max n (length flat))) (true, [])) as [valid ys].
    destruct H as (Hlen & _ & Hlookup).
    destruct valid; cbn [fst]; split; assumption. }
  destruct Hxs as [Hlen Hlookup].
  assert (Hunexpected : forall i op, flat !! i = Some op -> (n <= i)%nat ->
            xs !! i = Some (unexpected op)).
  { intros i op Hop Hi. pose proof (lookup_lt_Some _ _ _ Hop) as Hlt.
    rewrite Hlookup, Hop by lia.
    rewrite (proj1 (classify_present ce n i op _) Hi). reflexivity. }
  assert (Hmissing : forall i, (length flat <= i < n)%nat -> xs !! i = Some missing).
  { intros i Hi. rewrite Hlookup by lia.
    rewrite (lookup_ge_None_2 flat i) by lia. reflexivity. }
  assert (Hpresent : forall i op, flat !! i = Some op -> (i < n)%nat ->
            xs !! i = Some op \/ xs !! i = Some (typeError numberType (typeOf ce op) op)).
  { intros i op Hop Hi. rewrite Hlookup, Hop by lia.
    destruct (proj2 (classify_present ce n i op (allValid (take i xs))) Hi) as [->| ->];
      auto. }
  split; [exact Hlen|]. split; [exact Hunexpected|]. split; [exact Hmissing|].
  split; [exact Hpresent|].
  intros Hvalid.
  assert (Hall : forall i x, xs !! i = Some x -> isValid x = true).
  { intros i x Hx. unfold allValid in Hvalid. rewrite forallb_forall in Hvalid.
    apply Hvalid, list_elem_of_In. eapply list_elem_of_lookup_2, Hx. }
  assert (Hn : n = length flat).
  { destruct (Nat.lt_trichotomy n (length flat)) as [Hlt|[Heq|Hgt]]; [|exact Heq|].
    - destruct (lookup_lt_is_Some_2 flat n Hlt) as [op Hop].
      pose proof (Hall n _ (Hunexpected n op Hop ltac:(lia))) as H. discriminate.
    - pose proof (Hall (length flat) _ (Hmissing (length flat) ltac:(lia))) as H.
      discriminate. }
  apply list_eq. intros i. destruct (flat !! i) as [op|] eqn:Hop.
  - pose proof (lookup_lt_Some _ _ _ Hop) as Hlt.
    destruct (Hpresent i op Hop ltac:(lia)) as [H|H]; [exact H|].
    pose proof (Hall i _ H) as Hbad. discriminate.
  - apply lookup_ge_None_2. apply lookup_ge_None_1 in Hop. lia.
Qed.

(** X16. The flag [isValid] of the strict loop of [checkNumericArgs] is
    shared by all operands: a finite collection operand that comes after an
    invalid operand is replaced by a type error whatever its elements
    are, also when all of them are numbers. *)
Theorem checkNumericArgs_collection_after_invalid (ce : CE) (ops : list BoxedExpression)
    (options : Options) (i : nat) (op : BoxedExpression) :
  strict ce = true ->
  let flat := flatten ops (flattenHead options) in
  flat !! i = Some op ->
  (i < default (length flat) (count options))%nat ->
  allValid (take i flat) = false ->
  isValid op = true ->
  isNumber ce op = false ->
  symbol op = None ->
  isUnknown (typeOf ce op) = false ->
  isFiniteIndexableCollection ce op = true ->
  (checkNumericArgs ce ops options).1 !! i
  = Some (typeError numberType (typeOf ce op) op).
Proof.
  intros Hstrict flat Hop Hi Hbad Hvalid Hnumber Hsymbol Hknown Hcollection.
  set (n := default (length flat) (count options)) in *.
  pose proof (lookup_lt_Some _ _ _ Hop) as Hlt.
  unfold checkNumericArgs. rewrite Hstrict. cbn [negb]. fold flat. fold n.
  pose proof (classify_fold_lookup ce n flat (Nat.max n (length flat))) as H.
  pose proof (classify_fold_operands ce n flat 0 i true [] ltac:(reflexivity)) as Hprefix.
  assert (Hsplit : seq 0 (Nat.max n (length flat))
                   = seq 0 i ++ seq i (Nat.max n (length flat) - i)).
  { rewrite <- seq_app. f_equal. lia. }
  destruct (fold_left _ (seq 0 (Nat.max n (length flat))) (true, [])) as [valid xs] eqn:E.
  destruct H as (Hlen & _ & Hlookup).
  assert (Hxs : xs !! i = Some (typeError numberType (typeOf ce op) op)).
  { rewrite Hlookup, Hop by lia.
    assert (Hflag : allValid (take i xs) = false).
    { destruct (allValid (take i xs)) eqn:Hflag; [|reflexivity]. exfalso.
      (* the first [i] values pushed are those of the loop over [seq 0 i] *)
      pose proof (classify_fold_lookup ce n flat i) as Hi'.
      rewrite Hsplit, fold_left_app in E.
      destruct (fold_left _ (seq 0 i) (true, [])) as [valid0 xs0] eqn:E0.
      destruct Hi' as (Hlen0 & Hvalid0 & _).
      assert (Hpre : xs0 `prefix_of` xs).
      { clear -E. revert valid0 xs0 E.
        generalize (seq i (Nat.max n (length flat) - i)) as idxs.
        induction idxs as [|j idxs IH]; intros valid0 xs0 E; cbn [fold_left] in E.
        - injection E as _ <-. reflexivity.
        - destruct (classify ce n j (flat !! j) valid0) as [v x].
          etransitivity; [|exact (IH _ _ E)]. apply prefix_app_r. reflexivity. }
      destruct Hpre as (rest & ->).
      rewrite take_app_length' in Hflag by (symmetry; exact Hlen0).
      rewrite Nat.add_0_l in Hprefix. rewrite Hprefix in Hbad; [discriminate|].
      cbn [fst]. rewrite Hvalid0. exact Hflag. }
    rewrite Hflag. unfold classify.
    replace (n <=? i)%nat with false by (symmetry; apply Nat.leb_gt; lia).
    rewrite Hvalid, Hnumber, Hsymbol, Hknown, Hcollection. reflexivity. }
  destruct valid; exact Hxs.
Qed.

End NumericArgsShape.

(** ** The shape of what [validateArguments] returns *)

Section ArgumentsShape.

Import Accessors Validate Checks.

Context {CE : Type} {engine : Engine CE}.

Implicit Types (ce : CE) (ops result : list BoxedExpression).

Lemma checkOperand_shape ce (lazy threadable withSignature : bool) (op : BoxedExpression)
    (param : Ty) :
  (checkOperand ce lazy threadable withSignature op param).1 = op \/
  (checkOperand ce lazy threadable withSignature op param).1
  = typeError param (typeOf ce op) op.
Proof.
  unfold checkOperand.
  repeat match goal with
         | |- context [if ?b then _ else _] => destruct b
         end; cbn [fst]; auto.
Qed.

(** The values pushed so far: one per position, each reporting on the
    operand of its position. *)
Lemma positional_snoc ops result (x : BoxedExpression) :
  (forall j y, result !! j = Some y -> positional ops j y) ->
  positional ops (length result) x ->
  forall j y, (result ++ [x]) !! j = Some y -> positional ops j y.
Proof.
  intros Hres Hx j y Hj. apply lookup_app_Some in Hj as [Hj|[Hge Hj]].
  - exact (Hres j y Hj).
  - destruct (j - length result)%nat as [|k] eqn:Hk; [|destruct k; discriminate].
    cbn in Hj. injection Hj as <-. replace j with (length result) by lia. exact Hx.
Qed.

Lemma positional_operand ce ops (lazy threadable withSignature : bool) (i : nat)
    (op : BoxedExpression) (param : Ty) :
  ops !! i = Some op ->
  positional ops i (checkOperand ce lazy threadable withSignature op param).1.
Proof.
  intros Hop. unfold positional. rewrite Hop.
  destruct (checkOperand_shape ce lazy threadable withSignature op param) as [-> | ->];
    [left; reflexivity|right; left; eauto].
Qed.

Lemma validateRequired_shape ce lazy threadable ops params i valid result :
  length result = i ->
  (forall j y, result !! j = Some y -> positional ops j y) ->
  let '(i', valid', result') := validateRequired ce lazy threadable ops params i valid result in
  i' = (i + length params)%nat /\
  length result' = i' /\
  (forall j y, result' !! j = Some y -> positional ops j y) /\
  (valid' = true -> valid = true /\ (params <> [] -> (i' <= length ops)%nat)).
Proof.
  revert i valid result. induction params as [|param params IH]; intros i valid result Hlen Hres;
    cbn [validateRequired].
  - split; [cbn; lia|]. split; [exact Hlen|]. split; [exact Hres|]. intros ->. split; [reflexivity|congruence].
  - destruct (ops !! i) as [op|] eqn:Hop.
    + pose proof (positional_operand ce ops lazy threadable true i op param Hop) as Hx.
      destruct (checkOperand ce lazy threadable true op param) as [x ok]. cbn [fst] in Hx.
      specialize (IH (S i) (valid && ok) (result ++ [x])).
      destruct (validateRequired ce lazy threadable ops params (S i) (valid && ok)
                  (result ++ [x])) as [[i' valid'] result'].
      destruct IH as (Hi' & Hlen' & Hres' & Hvalid').
      { rewrite length_app. cbn [length]. lia. }
      { apply positional_snoc; [exact Hres|]. rewrite Hlen. exact Hx. }
      split; [cbn [length]; lia|]. split; [exact Hlen'|]. split; [exact Hres'|].
      intros Hv. destruct (Hvalid' Hv) as [Hvo Hle]. apply andb_true_iff in Hvo as [-> _].
      split; [reflexivity|]. intros _. apply lookup_lt_Some in Hop.
      destruct params as [|p params]; [cbn [length] in Hi'; lia|].
      apply Hle. discriminate.
    + specialize (IH (S i) false (result ++ [error "missing" None])).
      destruct (validateRequired ce lazy threadable ops params (S i) false
                  (result ++ [error "missing" None])) as [[i' valid'] result'].
      destruct IH as (Hi' & Hlen' & Hres' & Hvalid').
      { rewrite length_app. cbn [length]. lia. }
      { apply positional_snoc; [exact Hres|]. rewrite Hlen. unfold positional.
        rewrite Hop. reflexivity. }
      split; [cbn [length]; lia|]. split; [exact Hlen'|]. split; [exact Hres'|].
      intros Hv. destruct (Hvalid' Hv) as [Hvo _]. discriminate.
Qed.

Lemma validateOptional_shape ce lazy threadable ops optParams i valid result :
  length result = i ->
  (forall j y, result !! j = Some y -> positional ops j y) ->
  let '(i', valid', result') :=
    validateOptional ce lazy threadable ops optParams i valid result in
  (i <= i' <= i + length optParams)%nat /\
  (i' = i \/ (i' <= length ops)%nat) /\
  length result' = i' /\
  (forall j y, result' !! j = Some y -> positional ops j y) /\
  (valid' = true -> valid = true).
Proof.
  revert i valid result. induction optParams as [|param optParams IH];
    intros i valid result Hlen Hres; cbn [validateOptional].
  - split; [cbn; lia|]. split; [left; reflexivity|]. split; [exact Hlen|].
    split; [exact Hres|]. auto.
  - destruct (ops !! i) as [op|] eqn:Hop.
    + pose proof (positional_operand ce ops lazy threadable false i op param Hop) as Hx.
      destruct (checkOperand ce lazy threadable false op param) as [x ok]. cbn [fst] in Hx.
      specialize (IH (S i) (valid && ok) (result ++ [x])).
      destruct (validateOptional ce lazy threadable ops optParams (S i) (valid && ok)
                  (result ++ [x])) as [[i' valid'] result'].
      destruct IH as (Hi' & Hor & Hlen' & Hres' & Hvalid').
      { rewrite length_app. cbn [length]. lia. }
      { apply positional_snoc; [exact Hres|]. rewrite Hlen. exact Hx. }
      apply lookup_lt_Some in Hop.
      split; [cbn [length]; lia|]. split; [right; lia|]. split; [exact Hlen'|].
      split; [exact Hres'|]. intros Hv. specialize (Hvalid' Hv).
      apply andb_true_iff in Hvalid' as [-> _]. reflexivity.
    + split; [cbn [length]; lia|]. split; [left; reflexivity|]. split; [exact Hlen|].
      split; [exact Hres|]. auto.
Qed.

Lemma validateRest_shape ce lazy threadable ops rest restParam i valid result :
  rest = drop i ops ->
  length result = i ->
  (forall j y, result !! j = Some y -> positional ops j y) ->
  let '(i', valid', result') :=
    validateRest ce lazy threadable rest restParam i valid result in
  i' = (i + length rest)%nat /\
  length result' = i' /\
  (forall j y, result' !! j = Some y -> positional ops j y) /\
  (valid' = true -> valid = true).
Proof.
  revert i valid result. induction rest as [|op rest IH]; intros i valid result Hrest Hlen Hres;
    cbn [validateRest].
  - split; [cbn; lia|]. split; [exact Hlen|]. split; [exact Hres|]. auto.
  - assert (Hop : ops !! i = Some op).
    { rewrite <- (Nat.add_0_r i), <- lookup_drop, <- Hrest. reflexivity. }
    assert (Hrest' : rest = drop (S i) ops).
    { rewrite (drop_S _ _ _ Hop) in Hrest. congruence. }
    pose proof (positional_operand ce ops lazy threadable false i op restParam Hop) as Hx.
    destruct (checkOperand ce lazy threadable false op restParam) as [x ok]. cbn [fst] in Hx.
    specialize (IH (S i) (valid && ok) (result ++ [x]) Hrest').
    destruct (validateRest ce lazy threadable rest restParam (S i) (valid && ok)
                (result ++ [x])) as [[i' valid'] result'].
    destruct IH as (Hi' & Hlen' & Hres' & Hvalid').
    { rewrite length_app. cbn [length]. lia. }
    { apply positional_snoc; [exact Hres|]. rewrite Hlen. exact Hx. }
    split; [cbn [length]; lia|]. split; [exact Hlen'|]. split; [exact Hres'|].
    intros Hv. specialize (Hvalid' Hv). apply andb_true_iff in Hvalid' as [-> _].
    reflexivity.
Qed.

(** X17. In strict mode and for a function signature, [validateArguments]
    either returns [null], and then the number of operands fits the
    signature (at least the required parameters and, without a rest
    parameter, at most the required and optional ones), or it returns a
    list with one entry per position up to the larger of the number of
    operands and of required parameters: at the position of an operand the
    operand itself, a type error that wraps it or an unexpected-argument
    error for it, and a missing error at each position of a required
    parameter without operand. Operands are neither dropped nor moved. *)
Theorem validateArguments_shape ce ops (args optArgs : list Ty) (restArg : option Ty)
    (res : Ty) (lazy threadable : bool) :
  strict ce = true ->
  match (validateArguments ce ops (TSignature args optArgs restArg res) lazy threadable).1 with
  | Some result =>
      length result = Nat.max (length ops) (length args) /\
      (forall j y, result !! j = Some y -> positional ops j y)
  | None =>
      (length args <= length ops)%nat /\
      (restArg = None -> (length ops <= length args + length optArgs)%nat)
  end.
Proof.
  intros Hstrict. unfold validateArguments. rewrite Hstrict.
  cbn [negb signatureOf Validate.args Validate.optArgs Validate.restArg].
  pose proof (validateRequired_shape ce lazy threadable ops args 0 true [] eq_refl
                ltac:(intros j y; rewrite lookup_nil; discriminate)) as H1.
  destruct (validateRequired ce lazy threadable ops args 0 true []) as [[i1 valid1] result1].
  destruct H1 as (Hi1 & Hlen1 & Hres1 & Hvalid1).
  pose proof (validateOptional_shape ce lazy threadable ops optArgs i1 valid1 result1
                Hlen1 Hres1) as H2.
  destruct (validateOptional ce lazy threadable ops optArgs i1 valid1 result1)
    as [[i2 valid2] result2].
  destruct H2 as (Hi2 & Hor2 & Hlen2 & Hres2 & Hvalid2).
  assert (H3 : let '(i3, valid3, result3) :=
                 match restArg with
                 | Some restParam =>
                     validateRest ce lazy threadable (drop i2 ops) restParam i2 valid2 result2
                 | None => (i2, valid2, result2)
                 end in
               (i2 <= i3)%nat /\ (i3 = i2 \/ i3 = length ops /\ (i2 <= length ops)%nat) /\
               (restArg = None -> i3 = i2) /\
               length result3 = i3 /\
               (forall j y, result3 !! j = Some y -> positional ops j y) /\
               (valid3 = true -> valid2 = true)).
  { destruct restArg as [restParam|].
    - pose proof (validateRest_shape ce lazy threadable ops (drop i2 ops) restParam i2
                    valid2 result2 eq_refl Hlen2 Hres2) as H3.
      destruct (validateRest ce lazy threadable (drop i2 ops) restParam i2 valid2 result2)
        as [[i3 valid3] result3].
      destruct H3 as (Hi3 & Hlen3 & Hres3 & Hvalid3). rewrite length_drop in Hi3.
      split; [lia|]. split; [lia|]. split; [discriminate|].
      split; [exact Hlen3|]. split; [exact Hres3|exact Hvalid3].
    - split; [lia|]. split; [left; reflexivity|]. split; [reflexivity|].
      split; [exact Hlen2|]. split; [exact Hres2|auto]. }
  destruct (match restArg with
            | Some restParam =>
                validateRest ce lazy threadable (drop i2 ops) restParam i2 valid2 result2
            | None => (i2, valid2, result2)
            end) as [[i3 valid3] result3].
  destruct H3 as (Hi3 & Hor3 & Hnone3 & Hlen3 & Hres3 & Hvalid3).
  destruct (i3 <? length ops)%nat eqn:Hlt.
  - apply Nat.ltb_lt in Hlt. cbn [negb fst]. split.
    + rewrite length_app, length_map, length_drop. lia.
    + intros j y Hj. apply lookup_app_Some in Hj as [Hj|[Hge Hj]]; [exact (Hres3 j y Hj)|].
      rewrite list_lookup_fmap, lookup_drop in Hj.
      destruct (ops !! (i3 + (j - length result3))%nat) as [op|] eqn:Hop; [|discriminate].
      injection Hj as <-. unfold positional.
      replace (i3 + (j - length result3))%nat with j in Hop by lia.
      rewrite Hop. right. right. reflexivity.
  - apply Nat.ltb_ge in Hlt. destruct valid3; cbn [negb fst].
    + pose proof (Hvalid2 (Hvalid3 eq_refl)) as ->.
      destruct (Hvalid1 eq_refl) as [_ Hle].
      destruct (inferRequired lazy threadable ops args 0 ce) as [i4 ce4].
      destruct (inferOptional threadable ops optArgs i4 ce4) as [i5 ce5]. cbn [fst].
      split.
      * destruct args as [|a args]; [cbn; lia|]. specialize (Hle ltac:(discriminate)). lia.
      * intros Hrest. specialize (Hnone3 Hrest). lia.
    + split; [|exact Hres3].
      destruct Hor3 as [->|[-> Hle]]; [|lia].
      destruct Hor2 as [->|Hle2]; lia.
Qed.

End ArgumentsShape.

(** ** [checkType], [checkPure] and [checkTypes] *)

Section CheckTypes.

Import Accessors Validate Checks.

Context {CE : Type} {engine : Engine CE} {forms : Forms}.

(** X18. [checkType] and [checkPure] return a valid expression exactly when
    nothing is absent, the canonical form of the argument is valid and its
    type matches (resp. it is pure); the expression returned is then that
    canonical form. In every other case the result is invalid: an error, or
    the invalid canonical form itself. *)
Theorem checkType_valid (ce : CE) (arg : option BoxedExpression) (type : option Ty) :
  (isValid (checkType ce arg type) = true <->
     exists a ty, arg = Some a /\ type = Some ty /\
       isValid (canonical a) = true /\ matches (typeOf ce (canonical a)) ty = true) /\
  (isValid (checkType ce arg type) = true ->
     exists a, arg = Some a /\ checkType ce arg type = canonical a) /\
  (isValid (checkPure ce arg) = true <->
     exists a, arg = Some a /\ isValid (canonical a) = true /\ isPure (canonical a) = true) /\
  (isValid (checkPure ce arg) = true ->
     exists a, arg = Some a /\ checkPure ce arg = canonical a).
Proof.
  unfold checkType, checkPure.
  destruct arg as [a|].
  2:{ repeat split; try discriminate; intros (? & ? & ?); try discriminate.
      destruct H as (? & ? & ?). discriminate. }
  split; [|split; [|split]].
  - destruct type as [ty|].
    2:{ split; [discriminate|]. intros (? & ? & _ & ? & _). discriminate. }
    destruct (isValid (canonical a)) eqn:Hv; cbn [negb].
    + destruct (matches (typeOf ce (canonical a)) ty) eqn:Hm.
      * split; [intros _; exists a, ty; auto|intros _; exact Hv].
      * split; [discriminate|]. intros (a' & ty' & [= <-] & [= <-] & _ & H). congruence.
    + split; [congruence|]. intros (a' & ty' & [= <-] & _ & H & _). congruence.
  - destruct type as [ty|]; [|discriminate].
    destruct (isValid (canonical a)) eqn:Hv; cbn [negb]; [|congruence].
    destruct (matches (typeOf ce (canonical a)) ty); [|discriminate].
    intros _. exists a. auto.
  - destruct (isValid (canonical a)) eqn:Hv; cbn [negb].
    + destruct (isPure (canonical a)) eqn:Hp.
      * split; [intros _; exists a; auto|intros _; exact Hv].
      * split; [discriminate|]. intros (a' & [= <-] & _ & H). congruence.
    + split; [congruence|]. intros (a' & [= <-] & H & _). congruence.
  - destruct (isValid (canonical a)) eqn:Hv; cbn [negb]; [|congruence].
    destruct (isPure (canonical a)); [|discriminate].
    intros _. exists a. auto.
Qed.

(** X19. [checkTypes] returns one value per position up to the larger of
    the numbers of arguments and of types: a missing error where there is a
    type and no argument, an unexpected-argument error where there is an
    argument and no type, and where there are both either the argument
    as it is (when the quick check passes) or what [checkType] returns for
    it. A result without invalid value has as many arguments as types. *)
Theorem checkTypes_shape (ce : CE) (args : list BoxedExpression) (types : list Ty) :
  let result := checkTypes ce args types in
  length result = Nat.max (length args) (length types) /\
  (forall i, (length args <= i < length types)%nat -> result !! i = Some missing) /\
  (forall i arg, args !! i = Some arg -> (length types <= i)%nat ->
     result !! i = Some (unexpected arg)) /\
  (forall i arg ty, args !! i = Some arg -> types !! i = Some ty ->
     result !! i = Some arg \/ result !! i = Some (checkType ce (Some arg) (Some ty))) /\
  (allValid result = true -> length args = length types).
Proof.
  cbn zeta. unfold checkTypes.
  destruct ((length args =? length types)%nat
            && forallb (fun p => matches (typeOf ce p.1) p.2) (zip args types)) eqn:Hquick.
  { apply andb_true_iff in Hquick as [Hlen%Nat.eqb_eq _].
    split; [lia|]. split; [intros i Hi; lia|]. split.
    - intros i arg Harg Hi. apply lookup_lt_Some in Harg. lia.
    - split; [intros i arg ty Harg _; left; exact Harg|intros _; exact Hlen]. }
  clear Hquick.
  set (front := map (fun i => checkType ce (args !! i) (types !! i)) (seq 0 (length types))).
  set (back := map (fun i => error "unexpected-argument" (toString <$> args !! i))
                   (seq (length types) (length args - length types))).
  assert (Hfront : length front = length types)
    by (subst front; rewrite length_map, length_seq; reflexivity).
  assert (Hmissing : forall i, (length args <= i < length types)%nat ->
            (front ++ back) !! i = Some missing).
  { intros i Hi. rewrite lookup_app_l by lia. subst front.
    change (map ?f ?l) with (f <$> l). rewrite list_lookup_fmap, lookup_seq_lt by lia.
    cbn [fmap option_fmap option_map Nat.add].
    rewrite (lookup_ge_None_2 args i) by lia. reflexivity. }
  assert (Hunexpected : forall i arg, args !! i = Some arg -> (length types <= i)%nat ->
            (front ++ back) !! i = Some (unexpected arg)).
  { intros i arg Harg Hi. pose proof (lookup_lt_Some _ _ _ Harg) as Hlt.
    rewrite lookup_app_r by lia. subst back. rewrite Hfront.
    change (map ?f ?l) with (f <$> l). rewrite list_lookup_fmap, lookup_seq_lt by lia.
    cbn [fmap option_fmap option_map].
    replace (length types + (i - length types))%nat with i by lia.
    rewrite Harg. reflexivity. }
  split; [|split; [exact Hmissing|split; [exact Hunexpected|split]]].
  - rewrite length_app, Hfront. subst back. rewrite length_map, length_seq. lia.
  - intros i arg ty Harg Hty. right. pose proof (lookup_lt_Some _ _ _ Hty) as Hlt.
    rewrite lookup_app_l by lia. subst front.
    change (map ?f ?l) with (f <$> l). rewrite list_lookup_fmap, lookup_seq_lt by lia.
    cbn [fmap option_fmap option_map Nat.add]. rewrite Harg, Hty. reflexivity.
  - intros Hvalid.
    assert (Hall : forall i x, (front ++ back) !! i = Some x -> isValid x = true).
    { intros i x Hx. unfold allValid in Hvalid. rewrite forallb_forall in Hvalid.
      apply Hvalid, list_elem_of_In. eapply list_elem_of_lookup_2, Hx. }
    destruct (Nat.lt_trichotomy (length args) (length types)) as [Hlt|[Heq|Hgt]];
      [|exact Heq|].
    + pose proof (Hall _ _ (Hmissing (length args) ltac:(lia))) as H. discriminate.
    + destruct (lookup_lt_is_Some_2 args (length types) Hgt) as [arg Harg].
      pose proof (Hall _ _ (Hunexpected _ arg Harg ltac:(lia))) as H. discriminate.
Qed.

End CheckTypes.

Lemma checkNumericArgs_shape_witness :
  length (Validate.checkNumericArgs (engine := Validate.smallEngine) strictEngine
            [symbol_x; number_7] (Validate.mkOptions (Some 3%nat) None)).1 = 3%nat /\
  (Validate.checkNumericArgs (engine := Validate.smallEngine) strictEngine
     [symbol_x; number_7] (Validate.mkOptions (Some 3%nat) None)).1 !! 2%nat
  = Some Validate.missing /\
  (Validate.checkNumericArgs (engine := Validate.smallEngine) strictEngine
     [symbol_x; number_7] noOptions).1 = [symbol_x; number_7].
Proof.
  destruct (checkNumericArgs_shape (engine := Validate.smallEngine) strictEngine
              [symbol_x; number_7] (Validate.mkOptions (Some 3%nat) None) eq_refl)
    as (Hlen & _ & Hmissing & _).
  destruct (checkNumericArgs_shape (engine := Validate.smallEngine) strictEngine
              [symbol_x; number_7] noOptions eq_refl) as (_ & _ & _ & _ & Hvalid).
  split; [exact Hlen|]. split; [apply Hmissing; cbn; lia|].
  apply Hvalid. vm_compute. reflexivity.
Defined.

Lemma checkNumericArgs_collection_after_invalid_witness :
  forallb (Validate.isNumber (Engine := Validate.smallEngine) strictEngine)
          (Validate.each (Engine := Validate.smallEngine) strictEngine list_7) = true /\
  (Validate.checkNumericArgs (engine := Validate.smallEngine) strictEngine
     [badOperand; list_7] noOptions).1 !! 1%nat
  = Some (Validate.typeError (engine := Validate.smallEngine) Validate.numberType
            (Validate.typeOf (Engine := Validate.smallEngine) strictEngine list_7) list_7).
Proof.
  split; [vm_compute; reflexivity|].
  apply (checkNumericArgs_collection_after_invalid (engine := Validate.smallEngine)
           strictEngine [badOperand; list_7] noOptions 1 list_7);
    first [reflexivity | cbn; lia].
Defined.

Lemma validateArguments_shape_witness :
  (exists result,
     (Validate.validateArguments (engine := Validate.smallEngine) strictEngine
        [symbol_x; number_7; symbol_y] binaryReal false false).1 = Some result /\
     length result = 3%nat /\
     (forall j y, result !! j = Some y ->
        Checks.positional (engine := Validate.smallEngine) [symbol_x; number_7; symbol_y] j y))
  /\ (Validate.validateArguments (engine := Validate.smallEngine) strictEngine
        [symbol_x; number_7] binaryReal false false).1 = None.
Proof.
  pose proof (validateArguments_shape (engine := Validate.smallEngine) strictEngine
                [symbol_x; number_7; symbol_y] [Validate.realType; Validate.realType] []
                None Validate.realType false false eq_refl) as H.
  split; [|vm_compute; reflexivity].
  change (Validate.TSignature [Validate.realType; Validate.realType] [] None
            Validate.realType) with binaryReal in H.
  destruct ((Validate.validateArguments (engine := Validate.smallEngine) strictEngine
               [symbol_x; number_7; symbol_y] binaryReal false false).1) as [result|] eqn:E.
  - exists result. split; [reflexivity|]. exact H.
  - vm_compute in E. discriminate.
Defined.

(** ** [hashCode] *)

Section HashFacts.

Import Hash.

Lemma toInt32_range (x : Z) : - 2 ^ 31 <= toInt32 x < 2 ^ 31.
Proof. unfold toInt32. pose proof (Z.mod_pos_bound (x + 2 ^ 31) (2 ^ 32) ltac:(lia)). lia. Qed.

Lemma toInt32_small (x : Z) : - 2 ^ 31 <= x < 2 ^ 31 -> toInt32 x = x.
Proof. intros H. unfold toInt32. rewrite Z.mod_small by lia. lia. Qed.

Lemma toInt32_mod (x : Z) : toInt32 x mod 2 ^ 32 = x mod 2 ^ 32.
Proof.
  unfold toInt32.
  replace ((x + 2 ^ 31) mod 2 ^ 32 - 2 ^ 31)
    with ((x + 2 ^ 31) mod 2 ^ 32 + (- 2 ^ 31)) by lia.
  rewrite Zplus_mod_idemp_l. f_equal. lia.
Qed.

Lemma toInt32_congr (x y : Z) : x mod 2 ^ 32 = y mod 2 ^ 32 -> toInt32 x = toInt32 y.
Proof.
  intros H. unfold toInt32. f_equal.
  rewrite <- (Zplus_mod_idemp_l x), <- (Zplus_mod_idemp_l y), H. reflexivity.
Qed.

Lemma hashLoop_horner_from (s : list Z) (hash acc : Z) :
  hash = toInt32 acc ->
  fold_left (fun hash c => toInt32 (imul 31 hash + c)) s hash
  = toInt32 (fold_left (fun hash c => 31 * hash + c) s acc).
Proof.
  revert hash acc. induction s as [|c s IH]; intros hash acc Hacc; cbn [fold_left].
  - exact Hacc.
  - apply IH. subst hash. apply toInt32_congr.
    rewrite (Zplus_mod (imul 31 (toInt32 acc)) c), (Zplus_mod (31 * acc) c).
    f_equal. f_equal. unfold imul.
    rewrite toInt32_mod, Zmult_mod, !toInt32_mod, <- Zmult_mod. reflexivity.
Qed.

(** X20. [hashCode] is the absolute value of the polynomial hash
    [c0 * 31^(n-1) + ... + c(n-1)] of the code units, reduced to a signed
    32-bit integer: the wrap-around of each step of the loop does not
    change the final value. The result lies between 0 and [2^31]
    included, and for a string whose polynomial hash is below [2^31] it
    is that hash itself. *)
Theorem hashCode_horner (s : list Z) :
  hashCode s = Z.abs (toInt32 (horner s)) /\
  0 <= hashCode s <= 2 ^ 31 /\
  (0 <= horner s < 2 ^ 31 -> hashCode s = horner s).
Proof.
  assert (H : hashCode s = Z.abs (toInt32 (horner s))).
  { unfold hashCode, hashLoop, horner. f_equal. apply hashLoop_horner_from. reflexivity. }
  split; [exact H|]. split.
  - rewrite H. pose proof (toInt32_range (horner s)). lia.
  - intros Hsmall. rewrite H, toInt32_small by lia. lia.
Qed.

End HashFacts.

(** ** [isSymbolDefinition] and [isFunctionDefinition] *)

Section DefinitionFacts.

Import Definitions.

(** X21. The two predicates do not partition the definitions: both return
    [true] exactly for an object that is not a boxed expression, has none
    of the fields [type], [signature] and [sgn], has one of [value],
    [constant], [inferred] and one of [evaluate], [complexity],
    [canonical], and does not have [complexity] together with [constant].
    In particular a definition with a [type] field is never accepted by
    both, and [isSymbolDefinition] never returns [true] for a definition
    with a [signature] or [sgn] field. *)
Theorem definitions_overlap (def : Def) :
  (isSymbolDefinition def = Returns true /\ isFunctionDefinition def = Returns true <->
     isObject def = true /\ engine def = false /\
     type def = None /\ signature def = false /\ sgn def = None /\
     (value def || constant def || inferred def) = true /\
     (evaluate def || complexity def || canonical def) = true /\
     (complexity def && constant def) = false) /\
  (type def <> None ->
     ~ (isSymbolDefinition def = Returns true /\ isFunctionDefinition def = Returns true)) /\
  (isSymbolDefinition def = Returns true -> signature def = false /\ sgn def = None).
Proof.
  destruct def as [o e v c i t s g ev cx cn].
  unfold isSymbolDefinition, isFunctionDefinition.
  cbn [isObject engine value constant inferred type signature sgn evaluate complexity
       canonical].
  destruct o, e, v, c, i, t as [[| |]|], s, g as [[| |]|], ev, cx, cn;
    cbn; repeat split; try (intros; intuition congruence).
Qed.

End DefinitionFacts.

(** ** The ordering suites of the comparison test *)

Section SuiteFacts.

Import Suites.

(** X22. The suites [LESS THAN], [LESS EQUAL], [GREATER] and
    [GREATER EQUAL] all call [engine.less] on the rows of the table
    [exprs], with the expectations [c < 0], [c <= 0], [c > 0] and
    [c >= 0]. The rows [[1, 1, 0]] and [[1, 0, 1]] tell these apart, so
    whatever [engine.less] computes, no two of the four suites pass
    together. *)
Theorem ordering_suites_exclusive (less : Expression -> Expression -> option bool) :
  ~ (passes less expectedLess /\ passes less expectedLessEqual) /\
  ~ (passes less expectedLess /\ passes less expectedGreater) /\
  ~ (passes less expectedLess /\ passes less expectedGreaterEqual) /\
  ~ (passes less expectedLessEqual /\ passes less expectedGreater) /\
  ~ (passes less expectedLessEqual /\ passes less expectedGreaterEqual) /\
  ~ (passes less expectedGreater /\ passes less expectedGreaterEqual).
Proof.
  assert (Hrow : forall expected (i : nat) row,
            passes less expected -> Compare.exprs !! i = Some row ->
            less row.1.1 row.1.2 = expected row).
  { intros expected i row Hpass Hi. unfold passes in Hpass. rewrite Forall_forall in Hpass.
    apply Hpass. eapply list_elem_of_lookup_2, Hi. }
  repeat split; intros [H1 H2].
  - pose proof (Hrow _ 0%nat _ H1 eq_refl) as E1. pose proof (Hrow _ 0%nat _ H2 eq_refl) as E2.
    cbn in E1, E2. congruence.
  - pose proof (Hrow _ 1%nat _ H1 eq_refl) as E1. pose proof (Hrow _ 1%nat _ H2 eq_refl) as E2.
    cbn in E1, E2. congruence.
  - pose proof (Hrow _ 0%nat _ H1 eq_refl) as E1. pose proof (Hrow _ 0%nat _ H2 eq_refl) as E2.
    cbn in E1, E2. congruence.
  - pose proof (Hrow _ 0%nat _ H1 eq_refl) as E1. pose proof (Hrow _ 0%nat _ H2 eq_refl) as E2.
    cbn in E1, E2. congruence.
  - pose proof (Hrow _ 1%nat _ H1 eq_refl) as E1. pose proof (Hrow _ 1%nat _ H2 eq_refl) as E2.
    cbn in E1, E2. congruence.
  - pose proof (Hrow _ 0%nat _ H1 eq_refl) as E1. pose proof (Hrow _ 0%nat _ H2 eq_refl) as E2.
    cbn in E1, E2. congruence.
Qed.

End SuiteFacts.

(** ** [normalizeFlags], once more *)

(** X23. [normalizeFlags] is idempotent, and it changes no flag other than
    [even] and [odd]. *)
Theorem normalizeFlags_idempotent (flags : Flags.NumericFlags) :
  (Flags.normalizeFlags (Some flags) ≫= fun result => Flags.normalizeFlags (Some result))
  = Flags.normalizeFlags (Some flags) /\
  exists result,
    Flags.normalizeFlags (Some flags) = Some result /\
    Flags.number result = Flags.number flags /\
    Flags.integer result = Flags.integer flags /\
    Flags.zero result = Flags.zero flags /\
    Flags.positive result = Flags.positive flags.
Proof.
  destruct flags as [n i z p [[|]|] [[|]|]]; cbn; (split; [reflexivity|]);
    eexists; (split; [reflexivity|]); cbn; auto.
Qed.

(** ** [getPiTerm] *)

Section PiTerm.

Import Accessors Utils Angles.

Context {numerics : Numerics}.

Variable rho : string -> C.

(** The numeric evaluation agrees with the valuation. *)
Hypothesis N_sound : forall expr q, N expr = Some q -> evalC rho expr = q.

Local Open Scope Qc_scope.

Lemma Cadd_0_l (x : C) : Cadd (Cmul (Cre 0) (rho "Pi")) x = x.
Proof. destruct x as [a b], (rho "Pi") as [p q]. unfold Cadd, Cmul, Cre. cbn. f_equal; ring. Qed.

Lemma numericTerm_sound (expr : BoxedExpression) :
  bool_decide (is_Some (N expr)) = true ->
  exists k t, numericTerm expr = Some (k, t) /\ evalC rho expr = Cadd (Cmul k (rho "Pi")) t.
Proof using N_sound.
  intros H. apply bool_decide_eq_true in H as [q Hq].
  exists (Cre 0), q. unfold numericTerm. rewrite Hq. split; [reflexivity|].
  rewrite Cadd_0_l. apply N_sound, Hq.
Qed.

Lemma evalC_literal (expr : BoxedExpression) :
  isNumberLiteral expr = true -> evalC rho expr = numericValue expr.
Proof. destruct expr; try discriminate. reflexivity. Qed.

(** X24. On an expression whose leaves, where [getPiTerm] falls back on
    the numeric evaluation, have a numeric value, and in which no number
    literal that divides is zero, [getPiTerm] returns a pair [[k, t]] with
    [expr = k * Pi + t], for every value of the symbol [Pi]: through
    [Negate], sums of two terms, products with a number literal and
    quotients by a number literal that is not zero. *)
Theorem getPiTerm_sound (expr : BoxedExpression) :
  numericLeaves expr = true ->
  exists k t,
    getPiTerm expr = Some (k, t) /\
    evalC rho expr = Cadd (Cmul k (rho "Pi")) t.
Proof using N_sound.
  induction expr as [re im|s|s|h xs IH] using BoxedExpression_ind'.
  - apply numericTerm_sound.
  - cbn [numericLeaves getPiTerm isSymbol symbol].
    destruct (String.eqb_spec s "Pi") as [->|Hs]; [|apply numericTerm_sound].
    intros _. exists (Cre 1), (Cre 0). split; [reflexivity|].
    cbn [evalC String.eqb Ascii.eqb Bool.eqb]. destruct (rho "Pi") as [p q].
    unfold Cadd, Cmul, Cre. cbn. f_equal; ring.
  - apply numericTerm_sound.
  - cbn [numericLeaves getPiTerm isSymbol symbol].
    destruct (String.eqb_spec h "Negate") as [->|HN].
    { destruct xs as [|x xs]; [discriminate|]. intros Hx.
      apply Forall_cons in IH as [IHx _]. destruct (IHx Hx) as (k & t & -> & Hval).
      exists (Cneg k), (Cneg t). split; [reflexivity|].
      cbn [evalC String.eqb Ascii.eqb Bool.eqb map nth]. rewrite Hval.
      destruct k, t, (rho "Pi"). unfold Cneg, Cadd, Cmul. cbn. f_equal; ring. }
    destruct (String.eqb h "Add" && (nops (BoxedFunction h xs) =? 2)%Z) eqn:HA.
    { apply andb_true_iff in HA as [HA%String.eqb_eq _]. subst h.
      destruct xs as [|a [|b [|c xs]]]; try discriminate.
      intros [Ha Hb]%andb_true_iff.
      apply Forall_cons in IH as [IHa IH]. apply Forall_cons in IH as [IHb _].
      destruct (IHa Ha) as (k1 & t1 & -> & Hv1). destruct (IHb Hb) as (k2 & t2 & -> & Hv2).
      exists (Cadd k1 k2), (Cadd t1 t2). split; [reflexivity|].
      cbn [evalC String.eqb Ascii.eqb Bool.eqb map fold_right]. rewrite Hv1, Hv2.
      destruct k1, t1, k2, t2, (rho "Pi"). unfold Cadd, Cmul, Cre. cbn. f_equal; ring. }
    destruct (String.eqb h "Multiply" && (nops (BoxedFunction h xs) =? 2)%Z) eqn:HM.
    { apply andb_true_iff in HM as [HM%String.eqb_eq _]. subst h.
      destruct xs as [|a [|b [|c xs]]]; try discriminate.
      apply Forall_cons in IH as [IHa IH]. apply Forall_cons in IH as [IHb _].
      assert (Hprod : evalC rho (BoxedFunction "Multiply" [a; b])
                      = Cmul (evalC rho a) (evalC rho b)).
      { cbn [evalC String.eqb Ascii.eqb Bool.eqb map fold_right].
        rewrite Cmul_1_r. reflexivity. }
      destruct (isNumberLiteral a) eqn:La.
      - intros Hb. destruct (IHb Hb) as (k & t & -> & Hv).
        eexists _, _. split; [reflexivity|]. cbn [fst snd].
        rewrite Hprod, Hv, (evalC_literal a La).
        destruct k, t, (numericValue a), (rho "Pi"). unfold Cadd, Cmul. cbn. f_equal; ring.
      - destruct (isNumberLiteral b) eqn:Lb; [|apply numericTerm_sound].
        intros Ha. destruct (IHa Ha) as (k & t & -> & Hv).
        eexists _, _. split; [reflexivity|]. cbn [fst snd].
        rewrite Hprod, Hv, (evalC_literal b Lb).
        destruct k, t, (numericValue b), (rho "Pi"). unfold Cadd, Cmul. cbn. f_equal; ring. }
    destruct (String.eqb_spec h "Divide") as [->|HD]; [|apply numericTerm_sound].
    destruct xs as [|a [|b xs]]; try apply numericTerm_sound.
    destruct (isNumberLiteral b) eqn:Lb; [|apply numericTerm_sound].
    apply Forall_cons in IH as [IHa _].
    intros [Hnz%negb_true_iff Ha]%andb_true_iff.
    destruct (IHa Ha) as (k & t & -> & Hv).
    eexists _, _. split; [reflexivity|]. cbn [fst snd].
    cbn [evalC String.eqb Ascii.eqb Bool.eqb map nth]. fold (evalC rho a). fold (evalC rho b).
    unfold div. rewrite Hnz.
    rewrite Hv, (evalC_literal b Lb). unfold Cdiv.
    destruct k, t, (Cinv (numericValue b)), (rho "Pi"). unfold Cadd, Cmul. cbn. f_equal; ring.
Qed.

End PiTerm.

Section PiTermEdges.

Import Accessors Utils Angles.

Context {numerics : Numerics}.

Local Open Scope Qc_scope.

Lemma Cadd_0_r (x : C) : Cadd x (Cre 0) = x.
Proof. destruct x as [a b]. unfold Cadd, Cre. cbn. f_equal; ring. Qed.

(** X25. An atom other than [Pi] that has no numeric value counts as 0:
    [getPiTerm] returns [[0, 0]] for it, and in a sum of two terms it is
    dropped, the pair returned for [a + x] being the pair of [a]. A
    [Negate] without operand makes the call throw. *)
Theorem getPiTerm_non_numeric (a x : BoxedExpression) (k t : NumericValue) :
  ops x = None -> isSymbol x "Pi" = false -> N x = None ->
  getPiTerm a = Some (k, t) ->
  getPiTerm x = Some (Cre 0, Cre 0) /\
  getPiTerm (BoxedFunction "Add" [a; x]) = Some (k, t) /\
  getPiTerm (BoxedFunction "Add" [x; a]) = Some (k, t) /\
  getPiTerm (BoxedFunction "Negate" []) = None.
Proof.
  intros Hatom Hpi Hnum Ha.
  assert (Hx : getPiTerm x = Some (Cre 0, Cre 0)).
  { destruct x as [re im|s|s|h xs]; try discriminate;
      cbn [getPiTerm]; rewrite ?Hpi; unfold numericTerm; rewrite Hnum; reflexivity. }
  split; [exact Hx|]. split; [|split; [|reflexivity]].
  - cbn [getPiTerm isSymbol symbol String.eqb Ascii.eqb Bool.eqb andb nops ops_ ops default
         length Z.of_nat Pos.of_succ_nat Pos.succ Z.eqb Pos.eqb].
    rewrite Ha, Hx. cbn. rewrite !Cadd_0_r. reflexivity.
  - cbn [getPiTerm isSymbol symbol String.eqb Ascii.eqb Bool.eqb andb nops ops_ ops default
         length Z.of_nat Pos.of_succ_nat Pos.succ Z.eqb Pos.eqb].
    rewrite Ha, Hx. cbn. destruct k as [k1 k2], t as [t1 t2]. unfold Cadd, Cre. cbn.
    do 2 f_equal; f_equal; ring.
Qed.

End PiTermEdges.

Lemma literal_N_sound (rho : string -> Utils.C) (expr : BoxedExpression) (q : Utils.C) :
  Angles.N (Numerics := Angles.literalNumerics) expr = Some q -> Utils.evalC rho expr = q.
Proof. destruct expr; cbn; intros [= <-]. reflexivity. Qed.

Lemma getPiTerm_sound_witness :
  exists k t,
    Angles.getPiTerm (numerics := Angles.literalNumerics)
      (plus [times_ [real 2; symbol_Pi]; over (minus symbol_Pi) (real 4)]) = Some (k, t) /\
    Utils.evalC rho_C (plus [times_ [real 2; symbol_Pi]; over (minus symbol_Pi) (real 4)])
    = Utils.Cadd (Utils.Cmul k (rho_C "Pi")) t.
Proof.
  apply (getPiTerm_sound (numerics := Angles.literalNumerics) rho_C (literal_N_sound rho_C)).
  vm_compute. reflexivity.
Defined.

Lemma getPiTerm_non_numeric_witness :
  Angles.getPiTerm (numerics := Angles.literalNumerics) symbol_x
  = Some (Utils.Cre (Q2Qc 0), Utils.Cre (Q2Qc 0)) /\
  Angles.getPiTerm (numerics := Angles.literalNumerics) (plus [symbol_Pi; symbol_x])
  = Some (Utils.Cre (Q2Qc 1), Utils.Cre (Q2Qc 0)) /\
  Angles.getPiTerm (numerics := Angles.literalNumerics) (plus [symbol_x; symbol_Pi])
  = Some (Utils.Cre (Q2Qc 1), Utils.Cre (Q2Qc 0)) /\
  Angles.getPiTerm (numerics := Angles.literalNumerics) (BoxedFunction "Negate" []) = None.
Proof.
  apply (getPiTerm_non_numeric (numerics := Angles.literalNumerics) symbol_Pi symbol_x);
    reflexivity.
Defined.

(** ** [isLatexString] and [asLatexString] *)

Section LatexFacts.

Import Latex.

Variable isWhiteSpace : Z -> bool.
Hypothesis dollar_visible : isWhiteSpace dollar = false.

Local Abbreviation white := (Forall (fun c => isWhiteSpace c = true)).

Lemma trimStart_white (pad rest : JSString) :
  white pad -> trimStart isWhiteSpace (pad ++ rest) = trimStart isWhiteSpace rest.
Proof. induction 1 as [|c pad Hc _ IH]; [reflexivity|]. cbn. rewrite Hc. exact IH. Qed.

Lemma white_rev (pad : JSString) : white pad -> white (rev pad).
Proof. intros H. apply Forall_forall. intros c Hc. rewrite Forall_forall in H.
  apply H. apply list_elem_of_In. apply list_elem_of_In, in_rev in Hc. exact Hc. Qed.

Lemma startsWith_nil (s : JSString) : startsWith s [] = true.
Proof. destruct s; reflexivity. Qed.

Lemma startsWith_app (p s : JSString) : startsWith (p ++ s) p = true.
Proof.
  induction p as [|c p IH]; [apply startsWith_nil|]. cbn. rewrite Z.eqb_refl. exact IH.
Qed.

Lemma endsWith_app (s p : JSString) : endsWith (s ++ p) p = true.
Proof. unfold endsWith. rewrite rev_app_distr. apply startsWith_app. Qed.

Lemma startsWith_one (s : JSString) (c : Z) :
  startsWith s [c] = match s with x :: _ => Z.eqb x c | [] => false end.
Proof. destruct s as [|x s]; [reflexivity|]. cbn. rewrite startsWith_nil. apply andb_true_r. Qed.

Lemma startsWith_two (c : Z) (s : JSString) :
  startsWith (c :: s) [c; c] = startsWith s [c].
Proof. cbn [startsWith]. rewrite Z.eqb_refl. reflexivity. Qed.

(** [trim] removes the white space around a text that begins and ends with
    a dollar sign. *)
Lemma trim_delimited (pad1 pad2 core : JSString) :
  white pad1 -> white pad2 ->
  startsWith core [dollar] = true -> endsWith core [dollar] = true ->
  trim isWhiteSpace (pad1 ++ core ++ pad2) = core.
Proof using dollar_visible.
  intros H1 H2 Hs He. unfold trim. rewrite trimStart_white by exact H1.
  rewrite startsWith_one in Hs. destruct core as [|c core]; [discriminate|].
  apply Z.eqb_eq in Hs. subst c.
  unfold endsWith in He. change (rev [dollar]) with [dollar] in He.
  rewrite startsWith_one in He.
  destruct (rev (dollar :: core)) as [|y r] eqn:Hrev; [discriminate|].
  apply Z.eqb_eq in He. subst y.
  cbn [app trimStart]. rewrite dollar_visible.
  change (dollar :: core ++ pad2) with ((dollar :: core) ++ pad2).
  rewrite rev_app_distr, trimStart_white by (apply white_rev; exact H2).
  rewrite Hrev. cbn [trimStart]. rewrite dollar_visible, <- Hrev. apply rev_involutive.
Qed.

Lemma strip_app (p q body : JSString) :
  length p = length q -> strip (length p) (p ++ body ++ q) = body.
Proof.
  intros Hlen. unfold strip. rewrite drop_app_length, !length_app.
  replace (length p + (length body + length q) - length p - length p)%nat
    with (length body) by lia.
  apply take_app_length.
Qed.

(** X26. [asLatexString] strips the delimiters and the white space around
    them: a text between [$$] and [$$] comes back as it is, and so does a
    text between [$] and [$] unless it begins and ends with a dollar sign
    itself, in which case the outer pair is read as [$$ ... $$] and the
    text loses its first and last character. Every string that
    [isLatexString] accepts is given a text. *)
Theorem asLatexString_strips (pad1 pad2 body s : JSString) :
  white pad1 -> white pad2 ->
  asLatexString isWhiteSpace
    (AString (pad1 ++ ([dollar; dollar] ++ body ++ [dollar; dollar]) ++ pad2)) = Some body /\
  asLatexString isWhiteSpace (AString (pad1 ++ ([dollar] ++ body ++ [dollar]) ++ pad2))
  = Some (if startsWith body [dollar] && endsWith body [dollar] then strip 1 body else body) /\
  (isLatexString (AString s) = true -> is_Some (asLatexString isWhiteSpace (AString s))).
Proof using dollar_visible.
  intros H1 H2. split; [|split].
  - cbn [asLatexString]. unfold asLatexStringOfString.
    set (core := [dollar; dollar] ++ body ++ [dollar; dollar]).
    assert (Hs2 : startsWith core [dollar; dollar] = true) by apply startsWith_app.
    assert (He2 : endsWith core [dollar; dollar] = true).
    { subst core. rewrite app_assoc. apply endsWith_app. }
    assert (Hs : startsWith core [dollar] = true) by apply (startsWith_app [dollar]).
    assert (He : endsWith core [dollar] = true).
    { subst core. change [dollar; dollar] with ([dollar] ++ [dollar]) at 2.
      rewrite !app_assoc. apply endsWith_app. }
    rewrite trim_delimited by assumption. rewrite Hs2, He2. cbn [andb]. f_equal.
    apply (strip_app [dollar; dollar] [dollar; dollar] body). reflexivity.
  - cbn [asLatexString]. unfold asLatexStringOfString.
    set (core := [dollar] ++ body ++ [dollar]).
    assert (Hs : startsWith core [dollar] = true) by apply startsWith_app.
    assert (He : endsWith core [dollar] = true).
    { subst core. rewrite app_assoc. apply endsWith_app. }
    rewrite trim_delimited by assumption. rewrite Hs, He. cbn [andb].
    assert (Hs2 : startsWith core [dollar; dollar] = startsWith (body ++ [dollar]) [dollar]).
    { subst core. apply startsWith_two. }
    assert (He2 : endsWith core [dollar; dollar] = startsWith (rev body ++ [dollar]) [dollar]).
    { subst core. unfold endsWith. change (rev [dollar; dollar]) with [dollar; dollar].
      rewrite app_assoc, rev_app_distr, rev_app_distr. apply startsWith_two. }
    rewrite Hs2, He2.
    destruct body as [|b body].
    + cbn. reflexivity.
    + assert (Hb : startsWith ((b :: body) ++ [dollar]) [dollar]
                   = startsWith (b :: body) [dollar]).
      { rewrite !startsWith_one. reflexivity. }
      assert (Hr : startsWith (rev (b :: body) ++ [dollar]) [dollar]
                   = endsWith (b :: body) [dollar]).
      { unfold endsWith. change (rev [dollar]) with [dollar].
        rewrite !startsWith_one. cbn [rev].
        destruct (rev body ++ [b]) as [|x l] eqn:E; [destruct (rev body); discriminate|].
        reflexivity. }
      rewrite Hb, Hr.
      destruct (startsWith (b :: body) [dollar] && endsWith (b :: body) [dollar]).
      * f_equal. subst core. unfold strip. cbn [drop length app]. rewrite !length_app.
        cbn [length].
        replace (S (S (length body + 1)) - 2 - 2)%nat with (length body - 1)%nat by lia.
        replace (S (length body) - 1 - 1)%nat with (length body - 1)%nat by lia.
        rewrite !drop_0. apply take_app_le. lia.
      * f_equal. apply (strip_app [dollar] [dollar] (b :: body)). reflexivity.
  - cbn [isLatexString asLatexString]. intros [Hs He]%andb_true_iff.
    unfold asLatexStringOfString.
    pose proof (trim_delimited [] [] s ltac:(constructor) ltac:(constructor) Hs He) as Htrim.
    cbn [app] in Htrim. rewrite app_nil_r in Htrim. rewrite Htrim, Hs, He.
    destruct (startsWith s [dollar; dollar] && endsWith s [dollar; dollar]);
      eexists; reflexivity.
Qed.

End LatexFacts.

(** ** Threaded operands of [validateArguments] *)

Section Threaded.

Import Accessors Validate.

Context {CE : Type} {engine : Engine CE}.

Lemma inferOperand_collection (op : BoxedExpression) (param : Ty) (ce : CE) :
  isFiniteIndexableCollection ce op = true -> inferOperand true op param ce = ce.
Proof. intros H. unfold inferOperand. rewrite H. reflexivity. Qed.

(** X27. Threaded operands are left out of the inference: with
    [threadable] set, when every operand is a finite indexable collection,
    [validateArguments] leaves the engine as it found it, whatever it
    returns. *)
Theorem validateArguments_threaded (ce : CE) (ops : list BoxedExpression) (signature : Ty)
    (lazy : bool) :
  (forall ce' op, In op ops -> isFiniteIndexableCollection ce' op = true) ->
  (validateArguments ce ops signature lazy true).2 = ce.
Proof.
  intros Hcoll. unfold validateArguments.
  destruct (strict ce); cbn [negb]; [|reflexivity].
  destruct (signatureOf signature) as [sig|]; [|reflexivity].
  destruct (validateRequired ce lazy true ops (args sig) 0 true []) as [[i1 valid1] result1].
  destruct (validateOptional ce lazy true ops (optArgs sig) i1 valid1 result1)
    as [[i2 valid2] result2].
  destruct (match restArg sig with
            | Some restParam => validateRest ce lazy true (drop i2 ops) restParam i2 valid2 result2
            | None => (i2, valid2, result2)
            end) as [[i3 valid3] result3].
  destruct (if (i3 <? length ops)%nat then _ else _) as [valid result].
  destruct valid; cbn [negb]; [|reflexivity].
  assert (Hop : forall i op, ops !! i = Some op -> forall ce' param,
            inferOperand true op param ce' = ce').
  { intros i op Hi ce' param. apply inferOperand_collection, Hcoll.
    apply list_elem_of_In. eapply list_elem_of_lookup_2, Hi. }
  assert (Hreq : forall params i, (inferRequired lazy true ops params i ce).2 = ce).
  { induction params as [|param params IH]; intros i; cbn [inferRequired]; [reflexivity|].
    destruct (negb lazy); [|apply IH].
    destruct (ops !! i) as [op|] eqn:Hi; [rewrite (Hop i op Hi)|]; apply IH. }
  assert (Hopt : forall optParams i, (inferOptional true ops optParams i ce).2 = ce).
  { induction optParams as [|param optParams IH]; intros i; cbn [inferOptional];
      [reflexivity|].
    destruct (ops !! i) as [op|] eqn:Hi; [|reflexivity].
    rewrite (Hop i op Hi). apply IH. }
  assert (Hrest : forall rest param, (forall op, In op rest -> In op ops) ->
            inferRest lazy true rest param ce = ce).
  { unfold inferRest. intros rest param. destruct (negb lazy);
      induction rest as [|op rest IH]; intros Hin; cbn [fold_left]; try reflexivity.
    - rewrite inferOperand_collection by (apply Hcoll, Hin; left; reflexivity).
      apply IH. intros x Hx. apply Hin. right. exact Hx.
    - apply IH. intros x Hx. apply Hin. right. exact Hx. }
  pose proof (Hreq (args sig) 0%nat) as H1.
  destruct (inferRequired lazy true ops (args sig) 0 ce) as [i4 ce4]. cbn [snd] in H1. subst ce4.
  pose proof (Hopt (optArgs sig) i4) as H2.
  destruct (inferOptional true ops (optArgs sig) i4 ce) as [i5 ce5]. cbn [snd] in H2.
  subst ce5. cbn [snd].
  destruct (restArg sig) as [restParam|]; [|reflexivity].
  apply Hrest. intros op Hin. apply list_elem_of_In.
  apply list_elem_of_In in Hin. exact (subseteq_drop i5 ops op Hin).
Qed.

End Threaded.

Lemma asLatexString_strips_witness :
  Latex.asLatexString isSpace
    (Latex.AString ([32] ++ ([Latex.dollar; Latex.dollar] ++ x_squared
                               ++ [Latex.dollar; Latex.dollar]) ++ [32; 32]))
  = Some x_squared /\
  Latex.asLatexString isSpace
    (Latex.AString ([32] ++ ([Latex.dollar] ++ x_squared ++ [Latex.dollar]) ++ [32; 32]))
  = Some (if Latex.startsWith x_squared [Latex.dollar]
             && Latex.endsWith x_squared [Latex.dollar]
          then Latex.strip 1 x_squared else x_squared) /\
  (Latex.isLatexString (Latex.AString [Latex.dollar; Latex.dollar; Latex.dollar]) = true ->
   is_Some (Latex.asLatexString isSpace
              (Latex.AString [Latex.dollar; Latex.dollar; Latex.dollar]))).
Proof.
  apply (asLatexString_strips isSpace eq_refl [32] [32; 32] x_squared
           [Latex.dollar; Latex.dollar; Latex.dollar]);
    repeat constructor.
Defined.

Lemma validateArguments_threaded_witness :
  (Validate.validateArguments (engine := Validate.smallEngine) strictEngine
     [list_7] unaryReal false true).2 = strictEngine.
Proof.
  apply (validateArguments_threaded (engine := Validate.smallEngine) strictEngine
           [list_7] unaryReal false).
  intros ce' op [<-|[]]. reflexivity.
Defined.
